(** * PriorityQueue: a sorted list over a doubly linked list, and the
      priority queue built on it

    The development embeds [sorted_list.c] and [priority_queue.c].  Every C
    pointer is an address ([Z], [NULL] is 0); the structures the code
    allocates live in an explicit memory that each function threads through
    a small state-and-fault monad.  The doubly linked list the sorted list
    is built on is an external engine: it is modelled at the level of its
    interface, as sequences of nodes that keep their address when they
    move. *)

From stdpp Require Import base option list gmap fin_maps sorting.
From Stdlib Require Import ZArith Lia.

Local Open Scope Z_scope.
#[local] Set Warnings "-clear-no-such-hyp".

(** ** Memory *)

Definition NULL : Z := 0.

(** A node of the linked list engine: its address and the payload
    reference it stores. *)
Definition node : Type := Z * Z.

(** One linked list instance: the address of its end sentinel and its
    nodes in traversal order. *)
Record dll_t := Dll { dll_tail : Z; dll_nodes : list node }.

(** [struct sorted_list]. *)
Record sorted_list_t := SortedList { dll : Z; cmp : Z → Z → Z }.

(** [struct priority_queue]. *)
Record priority_queue_t := PriorityQueue { sorted_list : Z }.

(** [sorted_list_iter_t], as compiled without [NDEBUG]: the position and the
    list it was taken from. *)
Record sorted_list_iter_t := Iter { iterator : Z; list_ : Z }.

Record heap := Heap {
  dlls : gmap Z dll_t;
  slists : gmap Z sorted_list_t;
  queues : gmap Z priority_queue_t;
  brk : Z;              (* the next address malloc hands out *)
  supply : list bool    (* whether the coming allocation requests succeed *)
}.

Definition set_dlls (f : gmap Z dll_t → gmap Z dll_t) (h : heap) : heap :=
  Heap (f (dlls h)) (slists h) (queues h) (brk h) (supply h).

(** Nothing allocated yet; addresses start at 100. *)
Definition empty_heap : heap := Heap ∅ ∅ ∅ 100 [].

(** ** The monad: state and faults *)

Inductive fault :=
  | AssertionFailed   (* an [assert] of this code base tripped *)
  | Undefined         (* the contract of the linked list engine was broken *)
  | Diverged.         (* a loop did not come to an end *)

Inductive outcome (X : Type) :=
  | Ok (x : X) (h : heap)
  | Fault (f : fault).
Arguments Ok {X} x h.
Arguments Fault {X} f.

Definition M (X : Type) : Type := heap → outcome X.

Definition ret {X} (x : X) : M X := λ h, Ok x h.
Definition fail {X} (f : fault) : M X := λ _, Fault f.
Definition bind {X Y} (m : M X) (k : X → M Y) : M Y :=
  λ h, match m h with
       | Ok x h' => k x h'
       | Fault f => Fault f
       end.

Notation "x <~ m ;; k" := (bind m (λ x, k))
  (at level 100, m at next level, right associativity).
Notation "m ;;; k" := (bind m (λ _, k))
  (at level 100, right associativity).

Definition assert (b : bool) : M unit :=
  if b then ret tt else fail AssertionFailed.

Definition modify (f : heap → heap) : M unit := λ h, Ok tt (f h).

(** The number of nodes in memory bounds every traversal. *)
Definition heap_size (h : heap) : nat :=
  sum_list_with (λ dr, length (dll_nodes dr.2)) (map_to_list (dlls h)).

Fixpoint while_fuel {S : Type} (fuel : nat) (cond : S → M bool)
    (body : S → M S) (s : S) : M S :=
  match fuel with
  | O => fail Diverged
  | Datatypes.S fuel' =>
      b <~ cond s;;
      if b : bool then s' <~ body s;; while_fuel fuel' cond body s'
      else ret s
  end.

(** [while (cond) body]: the loop state is what the C loop reads and
    writes.  A loop of this code either walks positions, each at most
    once, or moves at least one node per turn, so one that has taken more
    turns than the memory has nodes is not going to stop. *)
Definition while {S : Type} (cond : S → M bool) (body : S → M S) (s : S)
    : M S :=
  λ h, while_fuel (Datatypes.S (heap_size h)) cond body s h.

(** [malloc]: fails when the environment says so, and otherwise returns a
    fresh address. *)
Definition malloc (size : Z) : M Z := λ h,
  match supply h with
  | false :: rest =>
      Ok NULL (Heap (dlls h) (slists h) (queues h) (brk h) rest)
  | true :: rest =>
      Ok (brk h) (Heap (dlls h) (slists h) (queues h) (brk h + size) rest)
  | [] =>
      Ok (brk h) (Heap (dlls h) (slists h) (queues h) (brk h + size) [])
  end.

Definition free (p : Z) : M unit := ret tt.

(** ** The linked list engine *)

Definition first_cell (ns : list node) (t : Z) : Z :=
  match ns with
  | n :: _ => n.1
  | [] => t
  end.

(** The nodes before a position and the nodes from it on; the end sentinel
    has every node before it. *)
Fixpoint split_at (it t : Z) (ns : list node)
    : option (list node * list node) :=
  match ns with
  | [] => if decide (it = t) then Some ([], []) else None
  | n :: ns' =>
      if decide (it = n.1) then Some ([], n :: ns')
      else (λ ba, (n :: ba.1, ba.2)) <$> split_at it t ns'
  end.

Fixpoint locate_in (it : Z) (ds : list (Z * dll_t))
    : option (Z * dll_t * (list node * list node)) :=
  match ds with
  | [] => None
  | dr :: ds' =>
      match split_at it (dll_tail dr.2) (dll_nodes dr.2) with
      | Some ba => Some (dr.1, dr.2, ba)
      | None => locate_in it ds'
      end
  end.

(** The list a position belongs to, and the nodes around it. *)
Definition locate (it : Z) (h : heap)
    : option (Z * dll_t * (list node * list node)) :=
  locate_in it (map_to_list (dlls h)).

Definition load_dll (d : Z) : M dll_t := λ h,
  match dlls h !! d with
  | Some r => Ok r h
  | None => Fault Undefined
  end.

Definition store_nodes (d : Z) (t : Z) (ns : list node) : M unit :=
  modify (set_dlls (λ m, <[d := Dll t ns]> m)).

(** Modelled from the spec: [DLLCreate] of the linked list engine (dll.c is
    not part of the sources).  A new, empty container with "a distinguished
    non-dereferenceable end sentinel per container"; no-value when the
    allocation fails. *)
Definition DLLCreate : M Z :=
  d <~ malloc 2;;
  if decide (d = NULL) then ret NULL
  else store_nodes d (d + 1) [];;; ret d.

(** Modelled from the spec: [DLLBegin], the first position of the
    container, which is its end when it is empty. *)
Definition DLLBegin (d : Z) : M Z :=
  r <~ load_dll d;; ret (first_cell (dll_nodes r) (dll_tail r)).

(** Modelled from the spec: [DLLEnd], the "stable sentinel". *)
Definition DLLEnd (d : Z) : M Z :=
  r <~ load_dll d;; ret (dll_tail r).

(** Modelled from the spec: [DLLNext], the following position in traversal
    order; there is none after the end sentinel. *)
Definition DLLNext (it : Z) : M Z := λ h,
  match locate it h with
  | Some (_, r, (_, _ :: a)) => Ok (first_cell a (dll_tail r)) h
  | _ => Fault Undefined
  end.

(** Modelled from the spec: [DLLGetData], the payload at a position;
    "dereferencing the end sentinel" is a contract violation. *)
Definition DLLGetData (it : Z) : M Z := λ h,
  match locate it h with
  | Some (_, _, (_, n :: _)) => Ok n.2 h
  | _ => Fault Undefined
  end.

(** Modelled from the spec: [DLLInsertBefore(position, payload)], which
    links a new node immediately before the position and returns the new
    position; an allocation failure is surfaced "as a no-value/end-sentinel
    position", here the end of the container. *)
Definition DLLInsertBefore (it data : Z) : M Z := λ h,
  match locate it h with
  | Some (d, r, (b, a)) =>
      (new <~ malloc 1;;
       if decide (new = NULL) then ret (dll_tail r)
       else store_nodes d (dll_tail r) (b ++ (new, data) :: a);;; ret new) h
  | None => Fault Undefined
  end.

(** Modelled from the spec: [DLLRemove(position)], which detaches the node
    and returns the position that followed it; the end sentinel cannot be
    removed. *)
Definition DLLRemove (it : Z) : M Z := λ h,
  match locate it h with
  | Some (d, r, (b, _ :: a)) =>
      (store_nodes d (dll_tail r) (b ++ a);;;
       ret (first_cell a (dll_tail r))) h
  | _ => Fault Undefined
  end.

(** Modelled from the spec: [DLLPopFront], which removes the first node and
    returns its payload; following "Dequeue = PopFront (returns no-value if
    empty)", an empty container yields [NULL]. *)
Definition DLLPopFront (d : Z) : M Z :=
  r <~ load_dll d;;
  match dll_nodes r with
  | [] => ret NULL
  | n :: ns => store_nodes d (dll_tail r) ns;;; ret n.2
  end.

(** Modelled from the spec: [DLLPopBack], the same at the last node. *)
Definition DLLPopBack (d : Z) : M Z :=
  r <~ load_dll d;;
  match last (dll_nodes r) with
  | None => ret NULL
  | Some n => store_nodes d (dll_tail r) (removelast (dll_nodes r));;; ret n.2
  end.

(** Modelled from the spec: [DLLIsEmpty]. *)
Definition DLLIsEmpty (d : Z) : M Z :=
  r <~ load_dll d;;
  ret (match dll_nodes r with [] => 1 | _ => 0 end).

(** Modelled from the spec: [DLLCount]. *)
Definition DLLCount (d : Z) : M Z :=
  r <~ load_dll d;; ret (Z.of_nat (length (dll_nodes r))).

(** Modelled from the spec: [DLLSplice(beforePosition, rangeStart,
    rangeEnd)], the "relinking of a contiguous run of elements from one
    container into another": the nodes of [[from, to)] leave their
    container and are linked, in order, before [where_]; [to] has to be
    reachable from [from]. *)
Definition DLLSplice (where_ from to : Z) : M unit := λ h,
  match locate from h, locate where_ h with
  | Some (s, rs, (b1, a1)), Some (d, rd, (bw, aw)) =>
      match split_at to (dll_tail rs) a1 with
      | Some (mid, a2) =>
          if decide (d = s) then Fault Undefined
          else (store_nodes s (dll_tail rs) (b1 ++ a2);;;
                store_nodes d (dll_tail rd) (bw ++ mid ++ aw)) h
      | None => Fault Undefined
      end
  | _, _ => Fault Undefined
  end.

Fixpoint for_each (action : Z → Z → Z) (parameter : Z) (ns : list node) : Z :=
  match ns with
  | [] => 0
  | n :: ns' =>
      let status := action n.2 parameter in
      if decide (status = 0) then for_each action parameter ns' else status
  end.

(** Modelled from the spec: [DLLForEach], which "invokes action(payload,
    param) for every position in [from,to) in traversal order; aborts early
    and returns the first non-zero/failure status returned by action;
    returns success (zero) if the full range is exhausted". *)
Definition DLLForEach (from to : Z) (action : Z → Z → Z) (parameter : Z)
    : M Z := λ h,
  match locate from h with
  | Some (_, r, (_, a)) =>
      match split_at to (dll_tail r) a with
      | Some (mid, _) => Ok (for_each action parameter mid) h
      | None => Fault Undefined
      end
  | None => Fault Undefined
  end.

(** Modelled from the spec: [DLLPrev], the position before in traversal
    order; nothing is before the first one. *)
Definition DLLPrev (it : Z) : M Z := λ h,
  match locate it h with
  | Some (_, _, (b, _)) =>
      match last b with
      | Some n => Ok n.1 h
      | None => Fault Undefined
      end
  | None => Fault Undefined
  end.

(** Modelled from the spec: [DLLDestroy], which releases a container with
    its nodes. *)
Definition DLLDestroy (d : Z) : M unit :=
  r <~ load_dll d;;
  modify (set_dlls (λ m, delete d m)).

(** [free] of a block in which a list or queue structure lives: the
    structure is gone. *)
Definition release (p : Z) : M unit :=
  modify (λ h, Heap (dlls h) (delete p (slists h)) (delete p (queues h))
                    (brk h) (supply h)).

(** ** sorted_list.c *)

Definition set_slists (f : gmap Z sorted_list_t → gmap Z sorted_list_t)
    (h : heap) : heap :=
  Heap (dlls h) (f (slists h)) (queues h) (brk h) (supply h).

(** Reading a field through a [sorted_list_t *]. *)
Definition load_slist (p : Z) : M sorted_list_t := λ h,
  match slists h !! p with
  | Some sl => Ok sl h
  | None => Fault Undefined
  end.

Definition non_null (p : Z) : bool := bool_decide (p ≠ NULL).

Definition SortedListCreate (compare : Z → Z → Z) : M Z :=
  sorted_list <~ malloc 1;;
  if decide (NULL = sorted_list) then ret NULL
  else
    d <~ DLLCreate;;
    if decide (NULL = d) then free sorted_list;;; ret NULL
    else
      modify (set_slists (λ m, <[sorted_list := SortedList d compare]> m));;;
      ret sorted_list.

Definition SortedListCount (sorted_list : Z) : M Z :=
  assert (non_null sorted_list);;;
  sl <~ load_slist sorted_list;;
  DLLCount (dll sl).

Definition SortedListBegin (sorted_list : Z) : M sorted_list_iter_t :=
  assert (non_null sorted_list);;;
  sl <~ load_slist sorted_list;;
  b <~ DLLBegin (dll sl);;
  ret (Iter b sorted_list).

Definition SortedListEnd (sorted_list : Z) : M sorted_list_iter_t :=
  assert (non_null sorted_list);;;
  sl <~ load_slist sorted_list;;
  e <~ DLLEnd (dll sl);;
  ret (Iter e sorted_list).

Definition SortedListNext (it : sorted_list_iter_t) : M sorted_list_iter_t :=
  assert (non_null (iterator it));;;
  n <~ DLLNext (iterator it);;
  ret (Iter n (list_ it)).

Definition SortedListIsEmpty (sorted_list : Z) : M Z :=
  assert (non_null sorted_list);;;
  sl <~ load_slist sorted_list;;
  DLLIsEmpty (dll sl).

Definition SortedListIsEqual (iter1 iter2 : sorted_list_iter_t) : M Z :=
  assert (non_null (iterator iter1));;;
  assert (non_null (iterator iter2));;;
  ret (if decide (iterator iter1 = iterator iter2) then 1 else 0).

Definition SortedListGetData (it : sorted_list_iter_t) : M Z :=
  assert (non_null (iterator it));;;
  DLLGetData (iterator it).

(** The guard of the scan in [SortedListInsert]:
    [start.iterator != end.iterator && 0 > cmp(GetData(start), data)]. *)
Definition insert_guard (sorted_list : Z) (end_ : sorted_list_iter_t)
    (data : Z) (start : sorted_list_iter_t) : M bool :=
  if decide (iterator start ≠ iterator end_) then
    sl <~ load_slist sorted_list;;
    x <~ SortedListGetData start;;
    ret (bool_decide (0 > cmp sl x data))
  else ret false.

Definition SortedListInsert (sorted_list data : Z) : M sorted_list_iter_t :=
  assert (non_null sorted_list);;;
  end_ <~ SortedListEnd sorted_list;;
  start <~ SortedListBegin sorted_list;;
  start <~ while (insert_guard sorted_list end_ data) SortedListNext start;;
  new <~ DLLInsertBefore (iterator start) data;;
  ret (Iter new sorted_list).

Definition SortedListRemove (it : sorted_list_iter_t) : M sorted_list_iter_t :=
  assert (non_null (iterator it));;;
  n <~ DLLRemove (iterator it);;
  ret (Iter n (list_ it)).

Definition SortedListPopBack (sorted_list : Z) : M Z :=
  assert (non_null sorted_list);;;
  sl <~ load_slist sorted_list;;
  DLLPopBack (dll sl).

Definition SortedListPopFront (sorted_list : Z) : M Z :=
  assert (non_null sorted_list);;;
  sl <~ load_slist sorted_list;;
  DLLPopFront (dll sl).

(** [from != DLLEnd(source->dll)]. *)
Definition merge_guard (source : Z) (st : Z * Z * Z) : M bool :=
  let '(runner, from, to) := st in
  s <~ load_slist source;;
  e <~ DLLEnd (dll s);;
  ret (bool_decide (from ≠ e)).

(** [runner != DLLEnd(dest->dll) &&
     0 >= dest->cmp(DLLGetData(runner), DLLGetData(from))]. *)
Definition runner_guard (dest from runner : Z) : M bool :=
  d <~ load_slist dest;;
  e <~ DLLEnd (dll d);;
  if decide (runner ≠ e) then
    x <~ DLLGetData runner;;
    y <~ DLLGetData from;;
    ret (bool_decide (0 >= cmp d x y))
  else ret false.

(** [to != DLLEnd(source->dll) &&
     0 > dest->cmp(DLLGetData(to), DLLGetData(runner))]. *)
Definition to_guard (dest source runner to : Z) : M bool :=
  s <~ load_slist source;;
  e <~ DLLEnd (dll s);;
  if decide (to ≠ e) then
    d <~ load_slist dest;;
    x <~ DLLGetData to;;
    y <~ DLLGetData runner;;
    ret (bool_decide (0 > cmp d x y))
  else ret false.

(** One turn of the outer loop of [SortedListMerge]. *)
Definition merge_body (dest source : Z) (st : Z * Z * Z) : M (Z * Z * Z) :=
  let '(runner, from, to) := st in
  runner <~ while (runner_guard dest from) DLLNext runner;;
  d <~ load_slist dest;;
  e <~ DLLEnd (dll d);;
  to <~ (if decide (runner = e) then s <~ load_slist source;; DLLEnd (dll s)
         else while (to_guard dest source runner) DLLNext to);;
  DLLSplice runner from to;;;
  s <~ load_slist source;;
  from <~ DLLBegin (dll s);;
  ret (runner, from, to).

Definition SortedListMerge (dest source : Z) : M unit :=
  assert (non_null dest);;;
  assert (non_null source);;;
  s <~ load_slist source;;
  to <~ DLLBegin (dll s);;
  d <~ load_slist dest;;
  runner <~ DLLBegin (dll d);;
  s <~ load_slist source;;
  from <~ DLLBegin (dll s);;
  while (merge_guard source) (merge_body dest source) (runner, from, to);;;
  ret tt.

(** [target.iterator != to.iterator &&
     0 < list->cmp(SortedListGetData(target), parameter)]. *)
Definition find_guard (list to_it parameter : Z)
    (target : sorted_list_iter_t) : M bool :=
  if decide (iterator target ≠ to_it) then
    sl <~ load_slist list;;
    x <~ SortedListGetData target;;
    ret (bool_decide (0 < cmp sl x parameter))
  else ret false.

Definition SortedListFind (list : Z) (from to : sorted_list_iter_t)
    (parameter : Z) : M sorted_list_iter_t :=
  assert (non_null (iterator from));;;
  assert (non_null (iterator to));;;
  assert (non_null list);;;
  assert (bool_decide (list_ from = list_ to));;;
  while (find_guard list (iterator to) parameter) SortedListNext from.

(** The loop of [SortedListFindIf] goes on while the range is not exhausted
    and the current payload does not match. *)
Definition findif_guard (to_it : Z) (ismatch : Z → Z → Z) (parameter : Z)
    (runner : sorted_list_iter_t) : M bool :=
  if decide (iterator runner ≠ to_it) then
    x <~ SortedListGetData runner;;
    ret (bool_decide (ismatch x parameter = 0))
  else ret false.

(** It is left either by [return (runner)] inside the body or, with the
    range exhausted, by [return (to)]. *)
Definition SortedListFindIf (from to : sorted_list_iter_t)
    (ismatch : Z → Z → Z) (parameter : Z) : M sorted_list_iter_t :=
  assert (non_null (iterator from));;;
  assert (non_null (iterator to));;;
  assert (bool_decide (list_ from = list_ to));;;
  runner <~ while (findif_guard (iterator to) ismatch parameter)
                  SortedListNext from;;
  if decide (iterator runner ≠ iterator to) then ret runner else ret to.

Definition SortedListForEach (from to : sorted_list_iter_t)
    (action : Z → Z → Z) (parameter : Z) : M Z :=
  assert (non_null (iterator from));;;
  assert (non_null (iterator to));;;
  if decide (list_ from ≠ list_ to) then ret (-1)
  else DLLForEach (iterator from) (iterator to) action parameter.

Definition SortedListPrev (it : sorted_list_iter_t) : M sorted_list_iter_t :=
  assert (non_null (iterator it));;;
  p <~ DLLPrev (iterator it);;
  ret (Iter p (list_ it)).

Definition SortedListDestroy (sorted_list : Z) : M unit :=
  assert (non_null sorted_list);;;
  sl <~ load_slist sorted_list;;
  DLLDestroy (dll sl);;;
  release sorted_list.

(** ** priority_queue.c *)

Definition set_queues (f : gmap Z priority_queue_t → gmap Z priority_queue_t)
    (h : heap) : heap :=
  Heap (dlls h) (slists h) (f (queues h)) (brk h) (supply h).

Definition load_queue (p : Z) : M priority_queue_t := λ h,
  match queues h !! p with
  | Some q => Ok q h
  | None => Fault Undefined
  end.

Definition PriorityQueueCreate (compare : Z → Z → Z) : M Z :=
  priority_queue <~ malloc 1;;
  if decide (NULL = priority_queue) then ret NULL
  else
    sl <~ SortedListCreate compare;;
    if decide (NULL = sl) then free priority_queue;;; ret NULL
    else
      modify (set_queues (λ m, <[priority_queue := PriorityQueue sl]> m));;;
      ret priority_queue.

Definition PriorityQueueEnqueue (queue data : Z) : M Z :=
  assert (non_null queue);;;
  q <~ load_queue queue;;
  insert <~ SortedListInsert (sorted_list q) data;;
  e <~ SortedListEnd (sorted_list q);;
  SortedListIsEqual e insert.

Definition PriorityQueueDequeue (queue : Z) : M Z :=
  assert (non_null queue);;;
  q <~ load_queue queue;;
  SortedListPopFront (sorted_list q).

Definition PriorityQueuePeek (queue : Z) : M Z :=
  assert (non_null queue);;;
  q <~ load_queue queue;;
  b <~ SortedListBegin (sorted_list q);;
  SortedListGetData b.

Definition PriorityQueueIsEmpty (queue : Z) : M Z :=
  assert (non_null queue);;;
  q <~ load_queue queue;;
  SortedListIsEmpty (sorted_list q).

Definition PriorityQueueSize (queue : Z) : M Z :=
  assert (non_null queue);;;
  q <~ load_queue queue;;
  SortedListCount (sorted_list q).

Definition PriorityQueueErase (queue : Z) (ismatch : Z → Z → Z)
    (parameter : Z) : M Z :=
  assert (non_null queue);;;
  q <~ load_queue queue;;
  b <~ SortedListBegin (sorted_list q);;
  e <~ SortedListEnd (sorted_list q);;
  result <~ SortedListFindIf b e ismatch parameter;;
  e' <~ SortedListEnd (sorted_list q);;
  eq <~ SortedListIsEqual result e';;
  if decide (eq ≠ 0) then ret queue
  else
    data <~ SortedListGetData result;;
    SortedListRemove result;;;
    ret data.

Definition PriorityQueueClear (queue : Z) : M unit :=
  assert (non_null queue);;;
  q <~ load_queue queue;;
  while (λ _ : unit, e <~ SortedListIsEmpty (sorted_list q);;
                     ret (bool_decide (e = 0)))
        (λ _, SortedListPopFront (sorted_list q);;; ret tt) tt.

Definition PriorityQueueDestroy (queue : Z) : M unit :=
  assert (non_null queue);;;
  q <~ load_queue queue;;
  SortedListDestroy (sorted_list q);;;
  release queue.

(** ** Vocabulary of the statements *)

(** *** The shape of the memory *)

(** The positions of a container in traversal order, its end included. *)
Definition cells (r : dll_t) : list Z := (dll_nodes r).*1 ++ [dll_tail r].

Definition all_cells (h : heap) : list Z :=
  map_to_list (dlls h) ≫= (λ dr, cells dr.2).

(** A well-formed memory: no two positions share an address, and every
    address in use is non-null and was handed out by [malloc]. *)
Definition wf (h : heap) : Prop :=
  NoDup (all_cells h) ∧ Forall (λ c, 0 < c < brk h) (all_cells h).

Global Instance wf_dec h : Decision (wf h).
Proof. unfold wf. apply _. Defined.

(** [it] is the position of container [d] that has the nodes [b] before it
    and the nodes [a] from it on. *)
Definition at_pos (h : heap) (d t : Z) (b a : list node) (it : Z) : Prop :=
  dlls h !! d = Some (Dll t (b ++ a)) ∧ it = first_cell a t.

(** The payloads of a container in traversal order. *)
Definition payloads (ns : list node) : list Z := ns.*2.

(** [sl] is a live sorted list: its structure holds the container [d] and
    the comparator [c], and [d] has the end sentinel [t] and the nodes
    [ns]. *)
Definition is_slist (h : heap) (sl d : Z) (c : Z → Z → Z) (t : Z)
    (ns : list node) : Prop :=
  sl ≠ NULL ∧ slists h !! sl = Some (SortedList d c) ∧
  dlls h !! d = Some (Dll t ns).

(** [q] is a live queue over the sorted list [sl]. *)
Definition is_queue (h : heap) (q sl d : Z) (c : Z → Z → Z) (t : Z)
    (ns : list node) : Prop :=
  q ≠ NULL ∧ queues h !! q = Some (PriorityQueue sl) ∧
  is_slist h sl d c t ns.

(** The iterator [s] taken to the position [n]. *)
Definition move (s : sorted_list_iter_t) (n : Z) : sorted_list_iter_t :=
  Iter n (list_ s).

(** Whether the next allocation request is served. *)
Definition served (h : heap) : bool :=
  match supply h with false :: _ => false | _ => true end.

(** The environment serves the next [n] allocation requests. *)
Definition provides (n : nat) (h : heap) : Prop :=
  Forall (λ b, b = true) (take n (supply h)).

(** *** Runs *)

(** The result of a computation that returns. *)
Definition run {X} (m : M X) (h : heap) : option X :=
  match m h with Ok x _ => Some x | Fault _ => None end.

(** The memory a computation leaves. *)
Definition heap_after {X} (m : M X) (h : heap) : heap :=
  match m h with Ok _ h' => h' | Fault _ => h end.

(** Computations that leave the memory as it is. *)
Definition pure {X} (m : M X) : Prop := ∀ h x h', m h = Ok x h' → h' = h.

(** [h1] is [h] with at most one node taken out of one container. *)
Definition deleted (h h1 : heap) : Prop :=
  h1 = h ∨
  ∃ d t b n a,
    dlls h !! d = Some (Dll t (b ++ n :: a)) ∧
    h1 = set_dlls (λ m, <[d := Dll t (b ++ a)]> m) h.

(** *** Scans and order *)

(** [mid] is left at the first node whose payload fails [test]. *)
Definition scan_stop (test : Z → bool) (mid m1 m2 : list node) : Prop :=
  mid = m1 ++ m2 ∧ Forall (λ n, test n.2 = true) m1 ∧
  match m2 with [] => True | n :: _ => test n.2 = false end.

(** A comparator that orders: swapping its arguments flips the sign of the
    result, and "not after" is transitive. *)
Record consistent (c : Z → Z → Z) : Prop := {
  cmp_antisym : ∀ a b, Z.sgn (c a b) = - Z.sgn (c b a);
  cmp_trans : ∀ a b x, c a b <= 0 → c b x <= 0 → c a x <= 0
}.

(** A node may stand immediately before another one. *)
Definition before_ok (c : Z → Z → Z) (a b : node) : Prop := c a.2 b.2 <= 0.

(** The order [SortedListInsert] keeps: every node may stand before its
    successor. *)
Definition sorted (c : Z → Z → Z) (ns : list node) : Prop :=
  Sorted (before_ok c) ns.

Global Instance sorted_dec c ns : Decision (sorted c ns).
Proof. unfold sorted, before_ok. apply _. Defined.

(** *** Merging *)

(** What [SortedListMerge] does to the nodes [D] of the destination from its
    scan point on and to the nodes of the source: with the source used up
    nothing changes; otherwise the scan point passes the nodes [D1] that
    may stand before the head [s0] of the source, the run of the source
    that has to come before the node [r] found there (all that is left of
    the source when no such node is found) is taken over, and the merge
    goes on from [r] with the rest. *)
Inductive merge_rel (c : Z → Z → Z) : list node → list node → list node → Prop :=
  | merge_done D : merge_rel c D [] D
  | merge_run D1 D2 s0 S1 S2 R :
      Forall (λ n, c n.2 s0.2 <= 0) D1 →
      match D2 with
      | [] => S2 = []
      | r :: _ =>
          c r.2 s0.2 > 0 ∧ Forall (λ s, c s.2 r.2 < 0) (s0 :: S1) ∧
          match S2 with [] => True | s' :: _ => c s'.2 r.2 >= 0 end
      end →
      merge_rel c D2 S2 R →
      merge_rel c (D1 ++ D2) (s0 :: S1 ++ S2) (D1 ++ (s0 :: S1) ++ R).

(** The destination [sd] (container [dd], nodes [Dpre ++ Dpost]) and the
    source [ss] (container [ds], nodes [S]) in the course of a merge. *)
Definition merge_inv (h : heap) (sd ss dd ds : Z) (c c' : Z → Z → Z)
    (td ts : Z) (Dpre Dpost S : list node) : Prop :=
  wf h ∧ slists h !! sd = Some (SortedList dd c) ∧
  slists h !! ss = Some (SortedList ds c') ∧ dd ≠ ds ∧
  dlls h !! dd = Some (Dll td (Dpre ++ Dpost)) ∧
  dlls h !! ds = Some (Dll ts S).

(** Nothing but the two containers differs. *)
Definition same_but (h h' : heap) (dd ds : Z) : Prop :=
  (∀ d, d ≠ dd → d ≠ ds → dlls h' !! d = dlls h !! d) ∧
  slists h' = slists h ∧ queues h' = queues h ∧
  brk h' = brk h ∧ supply h' = supply h.

(** *** Operations and what they keep *)

(** The operations that change a sorted list, on the lists themselves and
    through the queue that owns one. *)
Inductive op :=
  | Insert (sl data : Z)
  | Remove (it : sorted_list_iter_t)
  | PopFront (sl : Z)
  | PopBack (sl : Z)
  | Merge (dest source : Z)
  | Enqueue (q data : Z)
  | Dequeue (q : Z)
  | Erase (q : Z) (ismatch : Z → Z → Z) (parameter : Z).

(** The call an operation stands for. *)
Definition exec (o : op) : M unit :=
  match o with
  | Insert sl data => SortedListInsert sl data;;; ret tt
  | Remove it => SortedListRemove it;;; ret tt
  | PopFront sl => SortedListPopFront sl;;; ret tt
  | PopBack sl => SortedListPopBack sl;;; ret tt
  | Merge dest source => SortedListMerge dest source
  | Enqueue q data => PriorityQueueEnqueue q data;;; ret tt
  | Dequeue q => PriorityQueueDequeue q;;; ret tt
  | Erase q ismatch parameter => PriorityQueueErase q ismatch parameter;;; ret tt
  end.

(** [SortedListMerge] is for two different lists whose comparators agree;
    the other operations ask for nothing beyond returning. *)
Definition admissible (h : heap) (o : op) : Prop :=
  match o with
  | Merge dest source =>
      dest ≠ source ∧
      ∀ s1 s2, slists h !! dest = Some s1 → slists h !! source = Some s2 →
               ∀ a b, cmp s1 a b = cmp s2 a b
  | _ => True
  end.

(** A run of operations, each of which returns. *)
Inductive steps : heap → list op → heap → Prop :=
  | steps_nil h : steps h [] h
  | steps_cons h o h1 os h2 :
      admissible h o → exec o h = Ok tt h1 → steps h1 os h2 →
      steps h (o :: os) h2.

(** The operations one after the other. *)
Definition run_ops (os : list op) : M unit :=
  foldr (λ o m, exec o;;; m) (ret tt) os.

(** No two lists share a container. *)
Definition no_alias (h : heap) : Prop :=
  ∀ sl1 sl2 s1 s2,
    slists h !! sl1 = Some s1 → slists h !! sl2 = Some s2 →
    dll s1 = dll s2 → sl1 = sl2.

(** Every list has a comparator that orders and a container that is
    sorted by it. *)
Definition lists_sorted (h : heap) : Prop :=
  ∀ sl s, slists h !! sl = Some s →
    consistent (cmp s) ∧
    ∃ t ns, dlls h !! dll s = Some (Dll t ns) ∧ sorted (cmp s) ns.

(** What every operation keeps. *)
Definition inv (h : heap) : Prop := wf h ∧ no_alias h ∧ lists_sorted h.

(** *** Sample comparators, memories and runs *)

(** Numbers as payloads, the smaller the more urgent: the result is
    positive when [new_data] has to come before [data]. *)
Definition ascending (data new_data : Z) : Z := data - new_data.

(** [ismatch] for "the payload is [parameter]". *)
Definition equals (data parameter : Z) : Z :=
  if decide (data = parameter) then 1 else 0.

(** The memory once [SortedListCreate(ascending)] has run in an empty one:
    the list is at address 100, over the container 101 whose end is 102. *)
Definition one_list : heap := heap_after (SortedListCreate ascending) empty_heap.

(** A comparator that orders nothing: whatever the payloads, the new one
    goes first. *)
Definition always_first (data new_data : Z) : Z := 1.

(** Two lists of one node each under [always_first]. *)
Definition two_unordered : heap :=
  heap_after (a <~ SortedListCreate always_first;;
              b <~ SortedListCreate always_first;;
              SortedListInsert a 7;;; SortedListInsert b 8) empty_heap.

(** The memory once [PriorityQueueCreate(ascending)] has run in an empty
    one: the queue 100 over the list 101, container 102 with end 103. *)
Definition one_queue : heap :=
  heap_after (PriorityQueueCreate ascending) empty_heap.

(** Two lists: 100 over the container 101 (end 102) and 103 over the
    container 104 (end 105). *)
Definition two_lists : heap :=
  heap_after (SortedListCreate ascending;;; SortedListCreate ascending)
             empty_heap.

(** The list 100 with 1, 3, 5 and the list 103 with 2, 3, 4. *)
Definition two_filled : heap :=
  heap_after (a <~ SortedListCreate ascending;;
              b <~ SortedListCreate ascending;;
              SortedListInsert a 5;;; SortedListInsert a 1;;;
              SortedListInsert a 3;;; SortedListInsert b 3;;;
              SortedListInsert b 4;;; SortedListInsert b 2) empty_heap.

(** The memory with the queue 100 (list 101, container 102 with end 103)
    after 1, 2 and 3 were enqueued: they are in the nodes 104, 105, 106. *)
Definition queue_123 : heap :=
  heap_after (q <~ PriorityQueueCreate ascending;;
              PriorityQueueEnqueue q 1;;;
              PriorityQueueEnqueue q 2;;;
              PriorityQueueEnqueue q 3) empty_heap.

(** The queue 100 after 2, 1 and 2 again were enqueued: the second 2 went
    before the first. *)
Definition queue_122 : heap :=
  heap_after (q <~ PriorityQueueCreate ascending;;
              PriorityQueueEnqueue q 2;;;
              PriorityQueueEnqueue q 1;;;
              PriorityQueueEnqueue q 2) empty_heap.

(** A queue created when the environment serves three requests and denies
    the fourth. *)
Definition starved_queue : heap :=
  heap_after (PriorityQueueCreate ascending)
             (Heap ∅ ∅ ∅ 100 [true; true; true; false]).

(** Enqueue 5, 1, 3; peek; then dequeue three times, asking whether the
    queue is empty before each dequeue and after the last. *)
Definition priority_scenario : M (list Z) :=
  q <~ PriorityQueueCreate ascending;;
  PriorityQueueEnqueue q 5;;;
  PriorityQueueEnqueue q 1;;;
  PriorityQueueEnqueue q 3;;;
  peek <~ PriorityQueuePeek q;;
  e0 <~ PriorityQueueIsEmpty q;;
  x <~ PriorityQueueDequeue q;;
  e1 <~ PriorityQueueIsEmpty q;;
  y <~ PriorityQueueDequeue q;;
  e2 <~ PriorityQueueIsEmpty q;;
  z <~ PriorityQueueDequeue q;;
  e3 <~ PriorityQueueIsEmpty q;;
  ret [peek; e0; x; e1; y; e2; z; e3].

(** Enqueue 1, 2, 3; erase the element that equals 2; dequeue twice; erase
    again; ask for the size.  The results, after the queue handle. *)
Definition erase_scenario : M (list Z) :=
  q <~ PriorityQueueCreate ascending;;
  PriorityQueueEnqueue q 1;;;
  PriorityQueueEnqueue q 2;;;
  PriorityQueueEnqueue q 3;;;
  erased <~ PriorityQueueErase q equals 2;;
  again <~ PriorityQueueErase q equals 2;;
  size <~ PriorityQueueSize q;;
  x <~ PriorityQueueDequeue q;;
  y <~ PriorityQueueDequeue q;;
  ret [q; erased; again; size; x; y].

(** Fill two lists, merge them, and take three nodes out. *)
Definition busy_run : list op :=
  [Insert 100 5; Insert 100 1; Insert 103 3; Insert 103 1; Insert 100 3;
   Merge 100 103; PopFront 100; PopBack 100; Remove (Iter 110 100)].

(** *** Client loops *)

(** One call per element, the results in the order of the calls. *)
Fixpoint for_all {X Y} (f : X → M Y) (xs : list X) : M (list Y) :=
  match xs with
  | [] => ret []
  | x :: xs' => y <~ f x;; ys <~ for_all f xs';; ret (y :: ys)
  end.

(** Enqueue the payloads [xs] one after the other, then dequeue as many
    times. *)
Definition sort_through (q : Z) (xs : list Z) : M (list Z) :=
  for_all (PriorityQueueEnqueue q) xs;;;
  for_all (λ _ : unit, PriorityQueueDequeue q) (replicate (length xs) tt).

(** The guard of a traversal that stops at the position [e]. *)
Definition not_at (e : sorted_list_iter_t)
    (st : sorted_list_iter_t * list Z) : M bool :=
  eq <~ SortedListIsEqual st.1 e;; ret (bool_decide (eq = 0)).

(** Read a list from its first position to its end. *)
Definition read_forward (sorted_list : Z) : M (list Z) :=
  b <~ SortedListBegin sorted_list;;
  e <~ SortedListEnd sorted_list;;
  st <~ while (not_at e)
              (λ st, x <~ SortedListGetData st.1;;
                     nxt <~ SortedListNext st.1;;
                     ret (nxt, st.2 ++ [x]))
              (b, []);;
  ret st.2.

(** Read a list from its end back to its first position. *)
Definition read_backward (sorted_list : Z) : M (list Z) :=
  b <~ SortedListBegin sorted_list;;
  e <~ SortedListEnd sorted_list;;
  st <~ while (not_at b)
              (λ st, prv <~ SortedListPrev st.1;;
                     x <~ SortedListGetData prv;;
                     ret (prv, st.2 ++ [x]))
              (e, []);;
  ret st.2.

(** Every structure in memory has an address that [malloc] has handed
    out. *)
Definition allocated (h : heap) : Prop :=
  0 < brk h ∧
  (∀ k, is_Some (dlls h !! k) → k < brk h) ∧
  (∀ k, is_Some (slists h !! k) → k < brk h) ∧
  (∀ k, is_Some (queues h !! k) → k < brk h).

(** The structures of [h] are in [h'] as they are in [h]. *)
Definition extends (h h' : heap) : Prop :=
  (∀ k r, dlls h !! k = Some r → dlls h' !! k = Some r) ∧
  (∀ k s, slists h !! k = Some s → slists h' !! k = Some s) ∧
  (∀ k q, queues h !! k = Some q → queues h' !! k = Some q).

(** * Properties *)

(** ** Steps of the monad *)

Lemma bind_ok {X Y} (m : M X) (k : X → M Y) h x h' :
  m h = Ok x h' → bind m k h = k x h'.
Proof. unfold bind. by intros ->. Qed.

Lemma bind_assert_true {Y} (k : unit → M Y) h :
  bind (assert true) k h = k tt h.
Proof. done. Qed.

Lemma non_null_true p : p ≠ NULL → non_null p = true.
Proof. intros. unfold non_null. by rewrite bool_decide_eq_true. Qed.

(** ** Positions *)

Lemma split_at_inv it t ns b a :
  split_at it t ns = Some (b, a) →
  ns = b ++ a ∧ it = first_cell a t ∧ it ∉ b.*1.
Proof.
  revert b. induction ns as [|n ns IH]; intros b; simpl.
  - case_decide; [|done]. intros [= <- <-]. set_solver.
  - case_decide as Hn.
    + intros [= <- <-]. set_solver.
    + destruct (split_at it t ns) as [[b' a']|] eqn:E; [|done].
      simpl. intros [= <- <-]. destruct (IH b' eq_refl) as (-> & -> & Hb).
      split_and!; [done..|]. simpl. set_solver.
Qed.

Lemma split_at_app it t b a :
  it = first_cell a t → it ∉ b.*1 → split_at it t (b ++ a) = Some (b, a).
Proof.
  intros ->. induction b as [|n b IH]; simpl; intros Hb.
  - destruct a; simpl; by rewrite decide_True.
  - rewrite decide_False by set_solver. rewrite IH by set_solver. done.
Qed.

Lemma first_cell_elem a t : first_cell a t ∈ a.*1 ++ [t].
Proof. destruct a; set_solver. Qed.

Lemma first_cell_fresh b a t :
  NoDup ((b ++ a).*1 ++ [t]) → first_cell a t ∉ b.*1.
Proof.
  rewrite fmap_app, <-(assoc_L (++)). intros [_ [H _]]%NoDup_app Hin.
  apply (H _ Hin), first_cell_elem.
Qed.

Lemma locate_in_spec l it d r b a :
  NoDup (l ≫= (λ dr, cells dr.2)) → (d, r) ∈ l →
  dll_nodes r = b ++ a → it = first_cell a (dll_tail r) →
  locate_in it l = Some (d, r, (b, a)).
Proof.
  intros Hnd Hin Hns ->. induction l as [|[d' r'] l IH]; [by inversion Hin|].
  rewrite bind_cons in Hnd. simpl in Hnd. apply NoDup_app in Hnd as (Hr' & Hdis & Hl).
  simpl. apply elem_of_cons in Hin as [[= <- <-]|Hin].
  - rewrite Hns, split_at_app; [done..|].
    apply first_cell_fresh. unfold cells in Hr'. by rewrite Hns in Hr'.
  - destruct (split_at _ _ (dll_nodes r')) as [[b' a']|] eqn:E; [|by apply IH].
    exfalso. apply split_at_inv in E as (E1 & E2 & _).
    apply (Hdis (first_cell a (dll_tail r))).
    + unfold cells. rewrite E1, E2, fmap_app, <-(assoc_L (++)).
      apply elem_of_app. right. apply first_cell_elem.
    + apply list_elem_of_bind. exists (d, r). split; [|done]. simpl.
      unfold cells. rewrite Hns, fmap_app, <-(assoc_L (++)).
      apply elem_of_app. right. apply first_cell_elem.
Qed.

Lemma locate_at h d t b a it :
  wf h → at_pos h d t b a it →
  locate it h = Some (d, Dll t (b ++ a), (b, a)).
Proof.
  intros [Hnd _] [Hd ->]. unfold locate.
  apply locate_in_spec; [done| |done..]. by apply elem_of_map_to_list.
Qed.

(** *** Well-formed memories *)

Lemma cells_of_lookup (m : gmap Z dll_t) d r :
  m !! d = Some r →
  map_to_list m ≫= (λ dr, cells dr.2)
  ≡ₚ cells r ++ (map_to_list (delete d m) ≫= (λ dr, cells dr.2)).
Proof.
  intros H. rewrite <-(map_to_list_delete m d r H). by rewrite bind_cons.
Qed.

Lemma cells_of_insert (m : gmap Z dll_t) d r :
  map_to_list (<[d := r]> m) ≫= (λ dr, cells dr.2)
  ≡ₚ cells r ++ (map_to_list (delete d m) ≫= (λ dr, cells dr.2)).
Proof.
  rewrite <-insert_delete_eq.
  rewrite map_to_list_insert by apply lookup_delete_eq.
  by rewrite bind_cons.
Qed.

Lemma wf_sub h h' :
  all_cells h' ⊆+ all_cells h → brk h ≤ brk h' → wf h → wf h'.
Proof.
  intros Hsub Hbrk [Hnd Hrange]. split.
  - apply submseteq_Permutation in Hsub as [k Hk].
    rewrite Hk in Hnd. by apply NoDup_app in Hnd as [? _].
  - rewrite Forall_forall in *. intros c Hc.
    specialize (Hrange c (elem_of_submseteq _ _ _ Hc Hsub)). lia.
Qed.

Lemma wf_store h d r r' :
  wf h → dlls h !! d = Some r → cells r' ⊆+ cells r →
  wf (set_dlls (λ m, <[d := r']> m) h).
Proof.
  intros Hwf Hd Hsub. apply (wf_sub h); [|done..].
  unfold all_cells. simpl.
  rewrite cells_of_insert, (cells_of_lookup (dlls h) d r Hd).
  by apply submseteq_skips_r.
Qed.

Lemma wf_store2 h d rd rd' s rs rs' :
  wf h → d ≠ s → dlls h !! d = Some rd → dlls h !! s = Some rs →
  cells rd' ++ cells rs' ⊆+ cells rd ++ cells rs →
  wf (set_dlls (λ m, <[d := rd']> m) (set_dlls (λ m, <[s := rs']> m) h)).
Proof.
  intros Hwf Hne Hd Hs Hsub. apply (wf_sub h); [|done..].
  unfold all_cells. simpl.
  rewrite cells_of_insert, delete_insert_ne, cells_of_insert by done.
  rewrite (cells_of_lookup (dlls h) d rd Hd).
  rewrite (cells_of_lookup (delete d (dlls h)) s rs)
    by by rewrite lookup_delete_ne.
  rewrite !(assoc_L (++)). by apply submseteq_skips_r.
Qed.

Lemma wf_grow h d t b a x rest :
  wf h → dlls h !! d = Some (Dll t (b ++ a)) →
  wf (Heap (<[d := Dll t (b ++ (brk h, x) :: a)]> (dlls h))
           (slists h) (queues h) (brk h + 1) rest).
Proof.
  intros [Hnd Hrange] Hd. unfold wf, all_cells in *. simpl.
  rewrite cells_of_insert. rewrite (cells_of_lookup _ d _ Hd) in Hnd, Hrange.
  unfold cells in *. simpl in *.
  assert (∀ l : list Z, (b ++ (brk h, x) :: a).*1 ++ [t] ++ l
                        ≡ₚ brk h :: ((b ++ a).*1 ++ [t]) ++ l) as Hp.
  { intros l. rewrite !fmap_app, fmap_cons. simpl. solve_Permutation. }
  rewrite <-!(assoc_L (++)), !Hp. split.
  - apply NoDup_cons. split; [|done].
    intros Hin. rewrite Forall_forall in Hrange.
    specialize (Hrange _ Hin). lia.
  - apply Forall_cons. split.
    + rewrite Forall_forall in Hrange.
      assert (0 < t < brk h) by (apply Hrange; set_solver). lia.
    + eapply Forall_impl; [done|]. simpl. lia.
Qed.

Lemma wf_non_null h d r c : wf h → dlls h !! d = Some r → c ∈ cells r → c ≠ NULL.
Proof.
  intros [_ Hrange] Hd Hc. rewrite Forall_forall in Hrange.
  assert (0 < c < brk h); [|unfold NULL; lia].
  apply Hrange. unfold all_cells. apply list_elem_of_bind.
  exists (d, r). split; [done|]. by apply elem_of_map_to_list.
Qed.

Lemma wf_nodup h d r : wf h → dlls h !! d = Some r → NoDup (cells r).
Proof.
  intros [Hnd _] Hd. unfold all_cells in Hnd.
  rewrite (cells_of_lookup _ d r Hd) in Hnd. by apply NoDup_app in Hnd as [? _].
Qed.

Lemma at_pos_non_null h d t b a it : wf h → at_pos h d t b a it → it ≠ NULL.
Proof.
  intros Hwf [Hd ->]. apply (wf_non_null h d _ _ Hwf Hd).
  unfold cells. simpl. rewrite fmap_app, <-(assoc_L (++)).
  apply elem_of_app. right. apply first_cell_elem.
Qed.

Lemma heap_size_ge h d r :
  dlls h !! d = Some r → (length (dll_nodes r) ≤ heap_size h)%nat.
Proof.
  intros Hd. unfold heap_size.
  apply (sum_list_with_in (d, r) (λ dr, length (dll_nodes dr.2))).
  by apply elem_of_map_to_list.
Qed.

(** *** What the primitives do at a known position *)

Lemma load_dll_ok h d r : dlls h !! d = Some r → load_dll d h = Ok r h.
Proof. unfold load_dll. by intros ->. Qed.

Lemma DLLBegin_ok h d t ns :
  dlls h !! d = Some (Dll t ns) → DLLBegin d h = Ok (first_cell ns t) h.
Proof. intros Hd. unfold DLLBegin. by rewrite (bind_ok _ _ _ _ _ (load_dll_ok _ _ _ Hd)). Qed.

Lemma DLLEnd_ok h d t ns :
  dlls h !! d = Some (Dll t ns) → DLLEnd d h = Ok t h.
Proof. intros Hd. unfold DLLEnd. by rewrite (bind_ok _ _ _ _ _ (load_dll_ok _ _ _ Hd)). Qed.

Lemma DLLNext_ok h d t b n a it :
  wf h → at_pos h d t b (n :: a) it → DLLNext it h = Ok (first_cell a t) h.
Proof. intros Hwf Hat. unfold DLLNext. by rewrite (locate_at _ _ _ _ _ _ Hwf Hat). Qed.

Lemma DLLGetData_ok h d t b n a it :
  wf h → at_pos h d t b (n :: a) it → DLLGetData it h = Ok n.2 h.
Proof. intros Hwf Hat. unfold DLLGetData. by rewrite (locate_at _ _ _ _ _ _ Hwf Hat). Qed.

Lemma DLLGetData_end h d t b it :
  wf h → at_pos h d t b [] it → DLLGetData it h = Fault Undefined.
Proof. intros Hwf Hat. unfold DLLGetData. by rewrite (locate_at _ _ _ _ _ _ Hwf Hat). Qed.

Lemma wf_brk_non_null h d r : wf h → dlls h !! d = Some r → brk h ≠ NULL.
Proof.
  intros [_ Hrange] Hd. rewrite Forall_forall in Hrange.
  assert (0 < dll_tail r < brk h); [|unfold NULL; lia].
  apply Hrange. unfold all_cells. apply list_elem_of_bind.
  exists (d, r). split; [|by apply elem_of_map_to_list].
  unfold cells. set_solver.
Qed.

Lemma malloc_served h size :
  served h = true →
  malloc size h
  = Ok (brk h) (Heap (dlls h) (slists h) (queues h) (brk h + size) (tail (supply h))).
Proof. unfold served, malloc. by destruct (supply h) as [|[] ?]. Qed.

Lemma malloc_denied h size :
  served h = false →
  malloc size h
  = Ok NULL (Heap (dlls h) (slists h) (queues h) (brk h) (tail (supply h))).
Proof. unfold served, malloc. by destruct (supply h) as [|[] ?]. Qed.

Lemma DLLInsertBefore_ok h d t b a it data :
  wf h → at_pos h d t b a it → served h = true →
  DLLInsertBefore it data h
  = Ok (brk h) (Heap (<[d := Dll t (b ++ (brk h, data) :: a)]> (dlls h))
                     (slists h) (queues h) (brk h + 1) (tail (supply h))).
Proof.
  intros Hwf Hat Hs. unfold DLLInsertBefore.
  rewrite (locate_at _ _ _ _ _ _ Hwf Hat).
  rewrite (bind_ok _ _ _ _ _ (malloc_served _ _ Hs)).
  destruct Hat as [Hd _].
  rewrite decide_False by by eapply wf_brk_non_null. done.
Qed.

Lemma DLLInsertBefore_denied h d t b a it data :
  wf h → at_pos h d t b a it → served h = false →
  DLLInsertBefore it data h
  = Ok t (Heap (dlls h) (slists h) (queues h) (brk h) (tail (supply h))).
Proof.
  intros Hwf Hat Hs. unfold DLLInsertBefore.
  rewrite (locate_at _ _ _ _ _ _ Hwf Hat).
  by rewrite (bind_ok _ _ _ _ _ (malloc_denied _ _ Hs)).
Qed.

Lemma DLLRemove_ok h d t b n a it :
  wf h → at_pos h d t b (n :: a) it →
  DLLRemove it h
  = Ok (first_cell a t) (set_dlls (λ m, <[d := Dll t (b ++ a)]> m) h).
Proof. intros Hwf Hat. unfold DLLRemove. by rewrite (locate_at _ _ _ _ _ _ Hwf Hat). Qed.

Lemma DLLSplice_ok h d td bw aw where_ s ts b1 mid a2 from to :
  wf h → at_pos h d td bw aw where_ →
  at_pos h s ts b1 (mid ++ a2) from → to = first_cell a2 ts → d ≠ s →
  DLLSplice where_ from to h
  = Ok tt (set_dlls (λ m, <[d := Dll td (bw ++ mid ++ aw)]> m)
            (set_dlls (λ m, <[s := Dll ts (b1 ++ a2)]> m) h)).
Proof.
  intros Hwf Hw Hf -> Hne. unfold DLLSplice.
  rewrite (locate_at _ _ _ _ _ _ Hwf Hf), (locate_at _ _ _ _ _ _ Hwf Hw).
  simpl. rewrite split_at_app; [|done|].
  - by rewrite decide_False.
  - destruct Hf as [Hs _]. apply (wf_nodup _ _ _ Hwf) in Hs.
    unfold cells in Hs. simpl in Hs.
    rewrite fmap_app, <-(assoc_L (++)) in Hs.
    apply NoDup_app in Hs as (_ & _ & Hs). by apply first_cell_fresh.
Qed.

(** *** Walking a range *)

Section walk.
Context {S : Type} (pos : S → Z) (upd : S → Z → S).
Context (cond : S → M bool) (body : S → M S).
Context (h : heap) (d t : Z) (post : list node) (test : Z → bool).
Hypothesis upd_pos : ∀ s, upd s (pos s) = s.
Hypothesis upd_upd : ∀ s n m, upd (upd s n) m = upd s m.
Hypothesis pos_upd : ∀ s n, pos (upd s n) = n.
Hypothesis cond_at : ∀ s b mid,
  at_pos h d t b (mid ++ post) (pos s) →
  cond s h = Ok (match mid with [] => false | n :: _ => test n.2 end) h.
Hypothesis body_at : ∀ s b n a,
  at_pos h d t b (n :: a) (pos s) →
  body s h = Ok (upd s (first_cell a t)) h.

Lemma while_fuel_walk mid : ∀ b s fuel,
  at_pos h d t b (mid ++ post) (pos s) → (length mid < fuel)%nat →
  ∃ m1 m2, scan_stop test mid m1 m2 ∧
    while_fuel fuel cond body s h
    = Ok (upd s (first_cell (m2 ++ post) t)) h.
Proof.
  induction mid as [|n mid IH]; intros b s [|fuel] Hat Hfuel;
    simpl in Hfuel; try lia.
  - exists [], []. split; [done|]. cbn [while_fuel].
    rewrite (bind_ok _ _ _ _ _ (cond_at _ _ _ Hat)).
    destruct Hat as [_ Hpos]. simpl in *. by rewrite <-Hpos, upd_pos.
  - cbn [while_fuel]. rewrite (bind_ok _ _ _ _ _ (cond_at _ _ _ Hat)).
    destruct (test n.2) eqn:Htest.
    + rewrite (bind_ok _ _ _ _ _ (body_at s b n (mid ++ post) Hat)).
      destruct (IH (b ++ [n]) (upd s (first_cell (mid ++ post) t)) fuel)
        as (m1 & m2 & (-> & Hm1 & Hm2) & Hrun); [|lia|].
      { destruct Hat as [Hd _]. split; [|by rewrite pos_upd].
        by rewrite <-(assoc_L (++)). }
      exists (n :: m1), m2. split.
      * split_and!; [done| |done]. by constructor.
      * by rewrite Hrun, upd_upd.
    + exists [], (n :: mid). split; [done|].
      destruct Hat as [_ Hpos]. simpl in *. by rewrite <-Hpos, upd_pos.
Qed.
End walk.

(** ** SortedListInsert *)

Lemma move_pos s : move s (iterator s) = s.
Proof. by destruct s. Qed.

Lemma load_slist_ok h p sl : slists h !! p = Some sl → load_slist p h = Ok sl h.
Proof. unfold load_slist. by intros ->. Qed.

Ltac mstep H := rewrite (bind_ok _ _ _ _ _ H).
Ltac massert := rewrite non_null_true by done; rewrite bind_assert_true.

Lemma at_pos_range h d t b n mid post it :
  wf h → at_pos h d t b (n :: mid ++ post) it → it ≠ first_cell post t.
Proof.
  intros Hwf [Hd ->]. apply (wf_nodup _ _ _ Hwf) in Hd.
  assert (cells (Dll t (b ++ n :: mid ++ post))
          = b.*1 ++ n.1 :: mid.*1 ++ (post.*1 ++ [t])) as Hcells.
  { unfold cells. cbn [dll_nodes dll_tail].
    rewrite fmap_app, fmap_cons, fmap_app, <-(assoc_L (++)).
    by rewrite <-app_comm_cons, <-(assoc_L (++)). }
  rewrite Hcells in Hd. apply NoDup_app in Hd as (_ & _ & Hd).
  apply NoDup_cons in Hd as [Hd _]. cbn [first_cell]. intros Heq. apply Hd.
  rewrite Heq. apply elem_of_app. right. apply first_cell_elem.
Qed.

Lemma SortedListBegin_ok h sl d c t ns :
  is_slist h sl d c t ns →
  SortedListBegin sl h = Ok (Iter (first_cell ns t) sl) h.
Proof.
  intros (Hsl & Hs & Hd). unfold SortedListBegin. massert.
  mstep (load_slist_ok _ _ _ Hs). by mstep (DLLBegin_ok _ _ _ _ Hd).
Qed.

Lemma SortedListEnd_ok h sl d c t ns :
  is_slist h sl d c t ns → SortedListEnd sl h = Ok (Iter t sl) h.
Proof.
  intros (Hsl & Hs & Hd). unfold SortedListEnd. massert.
  mstep (load_slist_ok _ _ _ Hs). by mstep (DLLEnd_ok _ _ _ _ Hd).
Qed.

Lemma SortedListNext_ok h d t b n a it :
  wf h → at_pos h d t b (n :: a) (iterator it) →
  SortedListNext it h = Ok (move it (first_cell a t)) h.
Proof.
  intros Hwf Hat. unfold SortedListNext.
  rewrite non_null_true by by eapply at_pos_non_null.
  rewrite bind_assert_true. by mstep (DLLNext_ok _ _ _ _ _ _ _ Hwf Hat).
Qed.

Lemma SortedListGetData_ok h d t b n a it :
  wf h → at_pos h d t b (n :: a) (iterator it) →
  SortedListGetData it h = Ok n.2 h.
Proof.
  intros Hwf Hat. unfold SortedListGetData.
  rewrite non_null_true by by eapply at_pos_non_null.
  rewrite bind_assert_true. by apply (DLLGetData_ok _ _ _ _ _ _ _ Hwf Hat).
Qed.

Lemma insert_guard_at h sl d c t ns data e s b mid :
  wf h → is_slist h sl d c t ns → iterator e = t →
  at_pos h d t b (mid ++ []) (iterator s) →
  insert_guard sl e data s h
  = Ok (match mid with
        | [] => false
        | n :: _ => bool_decide (0 > c n.2 data)
        end) h.
Proof.
  intros Hwf (Hsl & Hs & Hd) He Hat. unfold insert_guard. rewrite He.
  destruct mid as [|n mid].
  - destruct Hat as [_ ->]. by rewrite decide_False by (intros H; by apply H).
  - rewrite decide_True by apply (at_pos_range _ _ _ _ _ _ _ _ Hwf Hat).
    mstep (load_slist_ok _ _ _ Hs).
    by mstep (SortedListGetData_ok h d t b n (mid ++ []) s Hwf Hat).
Qed.

(** The scan of [SortedListInsert] and the link of the new node, when the
    allocation is served. *)
Lemma SortedListInsert_ok h sl d c t ns data :
  wf h → is_slist h sl d c t ns → served h = true →
  ∃ m1 m2, scan_stop (λ x, bool_decide (0 > c x data)) ns m1 m2 ∧
    SortedListInsert sl data h
    = Ok (Iter (brk h) sl)
         (Heap (<[d := Dll t (m1 ++ (brk h, data) :: m2)]> (dlls h))
               (slists h) (queues h) (brk h + 1) (tail (supply h))).
Proof.
  intros Hwf Hlist Hserved. pose proof Hlist as (Hsl & Hs & Hd).
  destruct (while_fuel_walk iterator move
              (insert_guard sl (Iter t sl) data) SortedListNext h d t []
              (λ x, bool_decide (0 > c x data)) move_pos
              (λ _ _ _, eq_refl) (λ _ _, eq_refl)
              (λ s b mid, insert_guard_at h sl d c t ns data (Iter t sl) s b mid
                            Hwf Hlist eq_refl)
              (λ s b n a, SortedListNext_ok h d t b n a s Hwf)
              ns [] (Iter (first_cell ns t) sl) (S (heap_size h)))
    as (m1 & m2 & Hstop & Hrun).
  { split; [|by rewrite (right_id_L [] (++))]. by rewrite (right_id_L [] (++)). }
  { apply (heap_size_ge _ _ _) in Hd. simpl in Hd. lia. }
  exists m1, m2. split; [done|]. unfold SortedListInsert. massert.
  mstep (SortedListEnd_ok _ _ _ _ _ _ Hlist).
  mstep (SortedListBegin_ok _ _ _ _ _ _ Hlist).
  mstep (Hrun : while _ _ _ h = _). rewrite (right_id_L [] (++)).
  destruct Hstop as (-> & _ & _).
  assert (at_pos h d t m1 m2 (first_cell m2 t)) as Hat by done.
  by mstep (DLLInsertBefore_ok _ _ _ _ _ _ data Hwf Hat Hserved).
Qed.

(** The same when the allocation is denied: the list is as it was and the
    end position comes back. *)
Lemma SortedListInsert_denied h sl d c t ns data :
  wf h → is_slist h sl d c t ns → served h = false →
  SortedListInsert sl data h
  = Ok (Iter t sl)
       (Heap (dlls h) (slists h) (queues h) (brk h) (tail (supply h))).
Proof.
  intros Hwf Hlist Hserved. pose proof Hlist as (Hsl & Hs & Hd).
  destruct (while_fuel_walk iterator move
              (insert_guard sl (Iter t sl) data) SortedListNext h d t []
              (λ x, bool_decide (0 > c x data)) move_pos
              (λ _ _ _, eq_refl) (λ _ _, eq_refl)
              (λ s b mid, insert_guard_at h sl d c t ns data (Iter t sl) s b mid
                            Hwf Hlist eq_refl)
              (λ s b n a, SortedListNext_ok h d t b n a s Hwf)
              ns [] (Iter (first_cell ns t) sl) (S (heap_size h)))
    as (m1 & m2 & Hstop & Hrun).
  { split; [|by rewrite (right_id_L [] (++))]. by rewrite (right_id_L [] (++)). }
  { apply (heap_size_ge _ _ _) in Hd. simpl in Hd. lia. }
  unfold SortedListInsert. massert.
  mstep (SortedListEnd_ok _ _ _ _ _ _ Hlist).
  mstep (SortedListBegin_ok _ _ _ _ _ _ Hlist).
  mstep (Hrun : while _ _ _ h = _). rewrite (right_id_L [] (++)).
  destruct Hstop as (-> & _ & _).
  assert (at_pos h d t m1 m2 (first_cell m2 t)) as Hat by done.
  by mstep (DLLInsertBefore_denied _ _ _ _ _ _ data Hwf Hat Hserved).
Qed.

Lemma consistent_tie c p e1 e2 :
  consistent c → c p e1 < 0 → c e1 e2 = 0 → c p e2 < 0.
Proof.
  intros [Ha Ht] Hp He.
  assert (c p e2 <= 0) as Hle by (apply (Ht p e1 e2); lia).
  destruct (decide (c p e2 = 0)) as [Hz|]; [|lia].
  assert (c e2 p = 0) as Hz'.
  { pose proof (Ha p e2) as H. rewrite Hz in H. simpl in H. lia. }
  assert (c e1 p <= 0) as Hle' by (apply (Ht e1 e2 p); lia).
  pose proof (Ha p e1). lia.
Qed.

Lemma is_slist_grow h sl d c t ns ns' b s :
  is_slist h sl d c t ns →
  is_slist (Heap (<[d := Dll t ns']> (dlls h)) (slists h) (queues h) b s)
           sl d c t ns'.
Proof.
  intros (? & ? & ?). split_and!; [done..|]. simpl. apply lookup_insert_eq.
Qed.

Lemma ascending_consistent : consistent ascending.
Proof. split; unfold ascending; intros; lia. Qed.

Lemma scan_stop_prefix (P : node → Prop) p1 : ∀ p2 m1 x m2,
  p1 ++ p2 = m1 ++ x :: m2 → Forall P p1 → ¬ P x →
  ∃ B, m1 = p1 ++ B ∧ p2 = B ++ x :: m2.
Proof.
  induction p1 as [|y p1 IH]; intros p2 m1 x m2 Heq Hp1 Hx.
  - exists m1. by simpl in *.
  - apply Forall_cons in Hp1 as [Hy Hp1]. destruct m1 as [|z m1].
    + simpl in Heq. injection Heq as -> _. done.
    + simpl in Heq. injection Heq as -> Heq.
      destruct (IH _ _ _ _ Heq Hp1 Hx) as (B & -> & ->). by exists B.
Qed.

Lemma provides_served n h : provides (S n) h → served h = true.
Proof.
  unfold provides, served. destruct (supply h) as [|[] ?]; [done..|].
  simpl. by intros [[=] _]%Forall_cons.
Qed.

Lemma provides_tail n h d s q b :
  provides (S n) h → provides n (Heap d s q b (tail (supply h))).
Proof.
  unfold provides. simpl. destruct (supply h) as [|? ?]; simpl.
  - by rewrite take_nil.
  - by intros [_ ?]%Forall_cons.
Qed.

Lemma provides_S n h : provides (S n) h → provides n h.
Proof.
  unfold provides. intros H.
  replace n with (n `min` S n)%nat by lia.
  rewrite <-take_take. by apply Forall_take.
Qed.

Lemma SortedListInsert_scan h sl d c t ns data :
  wf h → is_slist h sl d c t ns → provides 1 h →
  ∃ it h' before after,
    SortedListInsert sl data h = Ok it h' ∧
    ns = before ++ after ∧
    Forall (λ n, c n.2 data < 0) before ∧
    match after with [] => True | n :: _ => c n.2 data >= 0 end ∧
    it = Iter (brk h) sl ∧
    h' = Heap (<[d := Dll t (before ++ (brk h, data) :: after)]> (dlls h))
              (slists h) (queues h) (brk h + 1) (tail (supply h)) ∧
    is_slist h' sl d c t (before ++ (iterator it, data) :: after) ∧ wf h'.
Proof.
  intros Hwf Hlist Hs%provides_served.
  destruct (SortedListInsert_ok _ _ _ _ _ _ data Hwf Hlist Hs)
    as (m1 & m2 & (-> & Hm1 & Hm2) & Hrun).
  eexists _, _, m1, m2. split; [exact Hrun|]. split_and!; try done.
  - eapply Forall_impl; [exact Hm1|]. simpl. intros n Hn.
    apply bool_decide_eq_true in Hn. lia.
  - destruct m2 as [|n ?]; [done|]. apply bool_decide_eq_false in Hm2. lia.
  - by eapply is_slist_grow.
  - destruct Hlist as (_ & _ & Hd). by apply wf_grow.
Qed.

Lemma SortedListInsert_tie h sl d c t ns e1 e2 :
  wf h → is_slist h sl d c t ns → provides 2 h → c e1 e2 = 0 →
  ∃ i1 h1 i2 h2 A B C,
    SortedListInsert sl e1 h = Ok i1 h1 ∧
    SortedListInsert sl e2 h1 = Ok i2 h2 ∧
    ns = A ++ B ++ C ∧
    is_slist h2 sl d c t
      (A ++ (iterator i2, e2) :: B ++ (iterator i1, e1) :: C) ∧
    wf h2 ∧ (consistent c → B = []).
Proof.
  intros Hwf Hlist Hs He.
  destruct (SortedListInsert_scan _ _ _ _ _ _ e1 Hwf Hlist (provides_S _ _ Hs))
    as (i1 & h1 & m1 & m2 & Hrun1 & -> & Hm1 & _ & Hi1 & Hh1 & Hlist1 & Hwf1).
  assert (provides 1 h1) as Hs1 by (rewrite Hh1; by apply provides_tail).
  destruct (SortedListInsert_scan _ _ _ _ _ _ e2 Hwf1 Hlist1 Hs1)
    as (i2 & h2 & p1 & p2 & Hrun2 & Heq & Hp1 & Hp2 & _ & _ & Hlist2 & Hwf2).
  destruct (scan_stop_prefix (λ n, c n.2 e2 < 0) p1 p2 m1 _ m2
              (eq_sym Heq) Hp1) as (B & -> & ->); [simpl; lia|].
  exists i1, h1, i2, h2, p1, B, m2. split_and!; [done..| | |done|].
  - by rewrite <-(assoc_L (++)).
  - done.
  - intros Hc. destruct B as [|n B]; [done|]. exfalso.
    apply Forall_app in Hm1 as [_ [Hn _]%Forall_cons].
    pose proof (consistent_tie c n.2 e1 e2 Hc Hn He). simpl in Hp2. lia.
Qed.

(** C2.  [SortedListInsert] scans from the beginning while
    [cmp(current, data) < 0] and links the new node immediately before the
    first node with [cmp(current, data) >= 0], or before the end; and
    inserting [e1] and then [e2] with [cmp(e1, e2) = 0] leaves [e2] before
    [e1], immediately before it when the comparator orders (and so [e2],
    [e1] in an empty list). *)
Theorem insert_ties_are_lifo h sl d c t ns :
  wf h → is_slist h sl d c t ns → provides 2 h →
  (∀ data, ∃ it h' before after,
      SortedListInsert sl data h = Ok it h' ∧
      ns = before ++ after ∧
      Forall (λ n, c n.2 data < 0) before ∧
      match after with [] => True | n :: _ => c n.2 data >= 0 end ∧
      is_slist h' sl d c t (before ++ (iterator it, data) :: after)) ∧
  (∀ e1 e2, c e1 e2 = 0 →
    ∃ i1 h1 i2 h2 A B C,
      SortedListInsert sl e1 h = Ok i1 h1 ∧
      SortedListInsert sl e2 h1 = Ok i2 h2 ∧
      ns = A ++ B ++ C ∧
      is_slist h2 sl d c t
        (A ++ (iterator i2, e2) :: B ++ (iterator i1, e1) :: C) ∧
      (consistent c → B = [])).
Proof.
  intros Hwf Hlist Hs. split.
  - intros data.
    destruct (SortedListInsert_scan _ _ _ _ _ _ data Hwf Hlist
                (provides_S _ _ Hs))
      as (it & h' & before & after & ? & ? & ? & ? & _ & _ & ? & _).
    by exists it, h', before, after.
  - intros e1 e2 He.
    destruct (SortedListInsert_tie _ _ _ _ _ _ _ _ Hwf Hlist Hs He)
      as (i1 & h1 & i2 & h2 & A & B & C & ? & ? & ? & ? & _ & ?).
    by exists i1, h1, i2, h2, A, B, C.
Qed.

Lemma insert_ties_are_lifo_witness :
  wf one_list ∧ is_slist one_list 100 101 ascending 102 [] ∧
  provides 2 one_list ∧
  (∀ data, ∃ it h' before after,
      SortedListInsert 100 data one_list = Ok it h' ∧
      [] = before ++ after ∧
      Forall (λ n, ascending n.2 data < 0) before ∧
      match after with [] => True | n :: _ => ascending n.2 data >= 0 end ∧
      is_slist h' 100 101 ascending 102
        (before ++ (iterator it, data) :: after)) ∧
  (∀ e1 e2, ascending e1 e2 = 0 →
    ∃ i1 h1 i2 h2 A B C,
      SortedListInsert 100 e1 one_list = Ok i1 h1 ∧
      SortedListInsert 100 e2 h1 = Ok i2 h2 ∧
      [] = A ++ B ++ C ∧
      is_slist h2 100 101 ascending 102
        (A ++ (iterator i2, e2) :: B ++ (iterator i1, e1) :: C) ∧
      (consistent ascending → B = [])).
Proof.
  assert (wf one_list) as Hwf by compute_done.
  assert (is_slist one_list 100 101 ascending 102 []) as Hlist
    by (split_and!; [done|reflexivity..]).
  assert (provides 2 one_list) as Hs by constructor.
  exact (conj Hwf (conj Hlist (conj Hs
           (insert_ties_are_lifo _ _ _ _ _ _ Hwf Hlist Hs)))).
Defined.

(** ** PriorityQueueEnqueue *)

Lemma load_queue_ok h p q : queues h !! p = Some q → load_queue p h = Ok q h.
Proof. unfold load_queue. by intros ->. Qed.

Lemma wf_tail_range h d r : wf h → dlls h !! d = Some r → 0 < dll_tail r < brk h.
Proof.
  intros [_ Hrange] Hd. rewrite Forall_forall in Hrange.
  apply Hrange. unfold all_cells. apply list_elem_of_bind.
  exists (d, r). split; [|by apply elem_of_map_to_list].
  unfold cells. set_solver.
Qed.

Lemma is_slist_supply h sl d c t ns s :
  is_slist h sl d c t ns →
  is_slist (Heap (dlls h) (slists h) (queues h) (brk h) s) sl d c t ns.
Proof. done. Qed.

(** C5.  [SortedListInsert] returns the position of the new node when the
    allocation is served and the end position of the container when it is
    denied, and [PriorityQueueEnqueue] returns 0 exactly when that position
    differs from the end, and a non-zero value exactly when it is the
    end. *)
Theorem enqueue_reports_insert_failure h q sl d c t ns data :
  wf h → is_queue h q sl d c t ns →
  ∃ it r h',
    SortedListInsert sl data h = Ok it h' ∧
    SortedListEnd sl h' = Ok (Iter t sl) h' ∧
    PriorityQueueEnqueue q data h = Ok r h' ∧
    (r = 0 ↔ iterator it ≠ t) ∧ (r ≠ 0 ↔ iterator it = t) ∧
    (served h = true →
       iterator it ≠ t ∧
       ∃ before after, ns = before ++ after ∧
         dlls h' !! d = Some (Dll t (before ++ (iterator it, data) :: after))) ∧
    (served h = false → iterator it = t ∧ dlls h' = dlls h).
Proof.
  intros Hwf (Hq & Hqs & Hlist). pose proof Hlist as (Hsl & Hs & Hd).
  pose proof (wf_tail_range _ _ _ Hwf Hd) as Ht. simpl in Ht.
  destruct (served h) eqn:Hserved.
  - destruct (SortedListInsert_ok _ _ _ _ _ _ data Hwf Hlist Hserved)
      as (m1 & m2 & (-> & _ & _) & Hrun).
    eexists _, 0, _. split; [exact Hrun|].
    assert (is_slist
              (Heap (<[d := Dll t (m1 ++ (brk h, data) :: m2)]> (dlls h))
                    (slists h) (queues h) (brk h + 1) (tail (supply h)))
              sl d c t (m1 ++ (brk h, data) :: m2)) as Hlist'
      by by eapply is_slist_grow.
    split; [exact (SortedListEnd_ok _ _ _ _ _ _ Hlist')|]. simpl.
    split_and!; try (intros; lia || done).
    + unfold PriorityQueueEnqueue. massert. mstep (load_queue_ok _ _ _ Hqs).
      mstep Hrun. mstep (SortedListEnd_ok _ _ _ _ _ _ Hlist').
      unfold SortedListIsEqual. simpl.
      rewrite !non_null_true, !bind_assert_true by (unfold NULL; lia).
      by rewrite decide_False by lia.
    + intros _. split; [lia|]. exists m1, m2. split; [done|].
      apply lookup_insert_eq.
  - pose proof (SortedListInsert_denied _ _ _ _ _ _ data Hwf Hlist Hserved)
      as Hrun.
    pose proof (is_slist_supply _ _ _ _ _ _ (tail (supply h)) Hlist) as Hlist'.
    eexists _, 1, _. split; [exact Hrun|].
    split; [exact (SortedListEnd_ok _ _ _ _ _ _ Hlist')|]. simpl.
    split_and!; try (intros; lia || done).
    unfold PriorityQueueEnqueue. massert. mstep (load_queue_ok _ _ _ Hqs).
    mstep Hrun. mstep (SortedListEnd_ok _ _ _ _ _ _ Hlist').
    unfold SortedListIsEqual. simpl.
    rewrite !non_null_true, !bind_assert_true by (unfold NULL; lia).
    by rewrite decide_True.
Qed.

(** ** SortedListFindIf and PriorityQueueErase *)

Lemma range_fuel h d t b mid post :
  dlls h !! d = Some (Dll t (b ++ mid ++ post)) →
  (length mid < S (heap_size h))%nat.
Proof.
  intros Hd%heap_size_ge. simpl in Hd. rewrite !length_app in Hd. lia.
Qed.

Lemma findif_guard_at h d t post ismatch parameter s b mid :
  wf h → at_pos h d t b (mid ++ post) (iterator s) →
  findif_guard (first_cell post t) ismatch parameter s h
  = Ok (match mid with
        | [] => false
        | n :: _ => bool_decide (ismatch n.2 parameter = 0)
        end) h.
Proof.
  intros Hwf Hat. unfold findif_guard. destruct mid as [|n mid].
  - destruct Hat as [_ ->]. by rewrite decide_False by (intros H; by apply H).
  - rewrite decide_True by apply (at_pos_range _ _ _ _ _ _ _ _ Hwf Hat).
    by mstep (SortedListGetData_ok h d t b n (mid ++ post) s Hwf Hat).
Qed.

Lemma SortedListFindIf_ok h d t b mid post from to ismatch parameter :
  wf h → at_pos h d t b (mid ++ post) (iterator from) →
  iterator to = first_cell post t → list_ from = list_ to →
  ∃ m1 m2,
    scan_stop (λ x, bool_decide (ismatch x parameter = 0)) mid m1 m2 ∧
    SortedListFindIf from to ismatch parameter h
    = Ok (match m2 with
          | [] => to
          | n :: _ => move from n.1
          end) h.
Proof.
  intros Hwf Hat Hto Hsame.
  destruct (while_fuel_walk iterator move
              (findif_guard (iterator to) ismatch parameter) SortedListNext
              h d t post (λ x, bool_decide (ismatch x parameter = 0))
              move_pos (λ _ _ _, eq_refl) (λ _ _, eq_refl)
              (λ s b mid,
                 eq_ind_r (λ z, _ → findif_guard z _ _ _ _ = _)
                   (findif_guard_at h d t post ismatch parameter s b mid Hwf)
                   Hto)
              (λ s b n a, SortedListNext_ok h d t b n a s Hwf)
              mid b from (S (heap_size h)) Hat)
    as (m1 & m2 & Hstop & Hrun).
  { destruct Hat as [Hd _]. by eapply range_fuel. }
  exists m1, m2. split; [done|]. unfold SortedListFindIf.
  assert (iterator to ≠ NULL) as Hto'.
  { destruct Hat as [Hd _]. rewrite Hto.
    apply (at_pos_non_null h d t (b ++ mid) post _ Hwf).
    split; [|done]. by rewrite <-(assoc_L (++)). }
  rewrite (non_null_true (iterator from))
    by by eapply at_pos_non_null.
  rewrite bind_assert_true, (non_null_true _ Hto'), bind_assert_true.
  rewrite bool_decide_eq_true_2, bind_assert_true by done.
  mstep (Hrun : while _ _ _ h = _).
  destruct Hstop as (-> & _ & _). destruct m2 as [|n m2]; simpl; rewrite Hto.
  - by rewrite decide_False by (intros H; by apply H).
  - rewrite decide_True; [done|].
    apply (at_pos_range h d t (b ++ m1) n m2 post _ Hwf).
    destruct Hat as [Hd _]. split; [|done].
    rewrite <-!(assoc_L (++)) in Hd. rewrite <-(assoc_L (++)). exact Hd.
Qed.

Lemma find_guard_at h sl d c t ns post parameter s b mid :
  wf h → is_slist h sl d c t ns → at_pos h d t b (mid ++ post) (iterator s) →
  find_guard sl (first_cell post t) parameter s h
  = Ok (match mid with
        | [] => false
        | n :: _ => bool_decide (0 < c n.2 parameter)
        end) h.
Proof.
  intros Hwf (Hsl & Hs & Hd) Hat. unfold find_guard. destruct mid as [|n mid].
  - destruct Hat as [_ ->]. by rewrite decide_False by (intros H; by apply H).
  - rewrite decide_True by apply (at_pos_range _ _ _ _ _ _ _ _ Hwf Hat).
    mstep (load_slist_ok _ _ _ Hs).
    by mstep (SortedListGetData_ok h d t b n (mid ++ post) s Hwf Hat).
Qed.

Lemma scan_stop_unique test mid a1 : ∀ a2 b1 b2,
  scan_stop test mid a1 a2 → scan_stop test mid b1 b2 → a1 = b1 ∧ a2 = b2.
Proof.
  revert mid. induction a1 as [|x a1 IH];
    intros mid a2 b1 b2 (-> & Ha1 & Ha2) (Heq & Hb1 & Hb2).
  - destruct b1 as [|y b1]; [done|]. simpl in Heq. subst a2.
    apply Forall_cons in Hb1 as [Hy _]. congruence.
  - apply Forall_cons in Ha1 as [Hx Ha1]. destruct b1 as [|y b1].
    + simpl in Heq. subst b2. congruence.
    + simpl in Heq. injection Heq as <- Heq.
      apply Forall_cons in Hb1 as [_ Hb1].
      destruct (IH (a1 ++ a2) a2 b1 b2) as [-> ->]; done.
Qed.

Lemma SortedListIsEqual_ok h i1 i2 :
  iterator i1 ≠ NULL → iterator i2 ≠ NULL →
  SortedListIsEqual i1 i2 h
  = Ok (if decide (iterator i1 = iterator i2) then 1 else 0) h.
Proof.
  intros H1 H2. unfold SortedListIsEqual.
  by rewrite !non_null_true, !bind_assert_true.
Qed.

Lemma SortedListRemove_ok h d t b n a it :
  wf h → at_pos h d t b (n :: a) (iterator it) →
  SortedListRemove it h
  = Ok (move it (first_cell a t))
       (set_dlls (λ m, <[d := Dll t (b ++ a)]> m) h).
Proof.
  intros Hwf Hat. unfold SortedListRemove.
  rewrite non_null_true by by eapply at_pos_non_null.
  rewrite bind_assert_true. by mstep (DLLRemove_ok _ _ _ _ _ _ _ Hwf Hat).
Qed.

Lemma SortedListFindIf_first h sl d c t m1 n m2 ismatch parameter :
  wf h → is_slist h sl d c t (m1 ++ n :: m2) →
  Forall (λ k, ismatch k.2 parameter = 0) m1 → ismatch n.2 parameter ≠ 0 →
  SortedListFindIf (Iter (first_cell (m1 ++ n :: m2) t) sl) (Iter t sl)
    ismatch parameter h
  = Ok (Iter n.1 sl) h.
Proof.
  intros Hwf (Hsl & Hs & Hd) Hm1 Hn.
  assert (at_pos h d t [] ((m1 ++ n :: m2) ++ [])
            (iterator (Iter (first_cell (m1 ++ n :: m2) t) sl))) as Hat.
  { split; simpl; by rewrite (right_id_L [] (++)). }
  destruct (SortedListFindIf_ok h d t [] _ [] _ (Iter t sl) ismatch parameter
              Hwf Hat eq_refl eq_refl) as (a1 & a2 & Hstop & Hfind).
  destruct (scan_stop_unique _ _ _ _ m1 (n :: m2) Hstop) as [-> ->]; [|done].
  split_and!; [done| |by apply bool_decide_eq_false].
  eapply Forall_impl; [exact Hm1|]. intros k Hk. by apply bool_decide_eq_true.
Qed.

Lemma SortedListFindIf_none h sl d c t ns ismatch parameter :
  wf h → is_slist h sl d c t ns →
  Forall (λ k, ismatch k.2 parameter = 0) ns →
  SortedListFindIf (Iter (first_cell ns t) sl) (Iter t sl) ismatch parameter h
  = Ok (Iter t sl) h.
Proof.
  intros Hwf (Hsl & Hs & Hd) Hns.
  assert (at_pos h d t [] (ns ++ [])
            (iterator (Iter (first_cell ns t) sl))) as Hat.
  { split; simpl; by rewrite (right_id_L [] (++)). }
  destruct (SortedListFindIf_ok h d t [] _ [] _ (Iter t sl) ismatch parameter
              Hwf Hat eq_refl eq_refl) as (a1 & a2 & Hstop & Hfind).
  destruct (scan_stop_unique _ _ _ _ ns [] Hstop) as [-> ->]; [|done].
  split_and!; [by rewrite (right_id_L [] (++))| |done].
  eapply Forall_impl; [exact Hns|]. intros k Hk. by apply bool_decide_eq_true.
Qed.

(** The two ways out of [PriorityQueueErase]. *)
Lemma PriorityQueueErase_found h q sl d c t m1 n m2 ismatch parameter :
  wf h → is_queue h q sl d c t (m1 ++ n :: m2) →
  Forall (λ k, ismatch k.2 parameter = 0) m1 → ismatch n.2 parameter ≠ 0 →
  PriorityQueueErase q ismatch parameter h
  = Ok n.2 (set_dlls (λ m, <[d := Dll t (m1 ++ m2)]> m) h).
Proof.
  intros Hwf (Hq & Hqs & Hlist) Hm1 Hn. pose proof Hlist as (Hsl & Hs & Hd).
  assert (at_pos h d t m1 (n :: m2) n.1) as Hn' by done.
  unfold PriorityQueueErase. massert. mstep (load_queue_ok _ _ _ Hqs).
  mstep (SortedListBegin_ok _ _ _ _ _ _ Hlist).
  mstep (SortedListEnd_ok _ _ _ _ _ _ Hlist).
  mstep (SortedListFindIf_first _ _ _ _ _ _ _ _ _ _ Hwf Hlist Hm1 Hn).
  mstep (SortedListEnd_ok _ _ _ _ _ _ Hlist).
  pose proof (wf_tail_range _ _ _ Hwf Hd) as Ht. simpl in Ht.
  rewrite (bind_ok _ _ _ _ _ (SortedListIsEqual_ok h (Iter n.1 sl) (Iter t sl)
             (at_pos_non_null _ _ _ _ _ _ Hwf Hn')
             ltac:(unfold NULL; simpl; lia))).
  simpl. rewrite (decide_False (P := n.1 = t)).
  2:{ apply (at_pos_range h d t m1 n m2 [] _ Hwf). split; [|done].
      by rewrite (right_id_L [] (++)). }
  rewrite decide_False by (intros H; by apply H).
  mstep (SortedListGetData_ok h d t m1 n m2 (Iter n.1 sl) Hwf Hn').
  by mstep (SortedListRemove_ok h d t m1 n m2 (Iter n.1 sl) Hwf Hn').
Qed.

Lemma PriorityQueueErase_missing h q sl d c t ns ismatch parameter :
  wf h → is_queue h q sl d c t ns →
  Forall (λ k, ismatch k.2 parameter = 0) ns →
  PriorityQueueErase q ismatch parameter h = Ok q h.
Proof.
  intros Hwf (Hq & Hqs & Hlist) Hns. pose proof Hlist as (Hsl & Hs & Hd).
  pose proof (wf_tail_range _ _ _ Hwf Hd) as Ht. simpl in Ht.
  unfold PriorityQueueErase. massert. mstep (load_queue_ok _ _ _ Hqs).
  mstep (SortedListBegin_ok _ _ _ _ _ _ Hlist).
  mstep (SortedListEnd_ok _ _ _ _ _ _ Hlist).
  mstep (SortedListFindIf_none _ _ _ _ _ _ _ _ Hwf Hlist Hns).
  mstep (SortedListEnd_ok _ _ _ _ _ _ Hlist).
  rewrite (bind_ok _ _ _ _ _ (SortedListIsEqual_ok h (Iter t sl) (Iter t sl)
             ltac:(unfold NULL; simpl; lia) ltac:(unfold NULL; simpl; lia))).
  rewrite (decide_True (P := iterator (Iter t sl) = iterator (Iter t sl)))
    by done.
  by rewrite decide_True.
Qed.

Lemma is_queue_store h q sl d c t ns ns' :
  is_queue h q sl d c t ns →
  is_queue (set_dlls (λ m, <[d := Dll t ns']> m) h) q sl d c t ns'.
Proof.
  intros (? & ? & ? & ? & ?). repeat split; [done..|]. simpl.
  apply lookup_insert_eq.
Qed.

(** C6.  [PriorityQueueErase] removes the first element that [FindIf] finds
    over the whole queue and returns its payload; when nothing matches it
    returns the queue handle and the memory is as it was.  On the queue
    1, 2, 3 with "equals 2" it returns 2, a second call returns the handle
    with both elements still there, and 1 and then 3 are dequeued. *)
Theorem erase_contract h q sl d c t ns ismatch parameter :
  wf h → is_queue h q sl d c t ns →
  (∀ m1 n m2, ns = m1 ++ n :: m2 →
     Forall (λ k, ismatch k.2 parameter = 0) m1 → ismatch n.2 parameter ≠ 0 →
     ∃ h',
       SortedListFindIf (Iter (first_cell ns t) sl) (Iter t sl)
         ismatch parameter h = Ok (Iter n.1 sl) h ∧
       PriorityQueueErase q ismatch parameter h = Ok n.2 h' ∧
       is_queue h' q sl d c t (m1 ++ m2)) ∧
  (Forall (λ k, ismatch k.2 parameter = 0) ns →
     SortedListFindIf (Iter (first_cell ns t) sl) (Iter t sl)
       ismatch parameter h = Ok (Iter t sl) h ∧
     PriorityQueueErase q ismatch parameter h = Ok q h) ∧
  run erase_scenario empty_heap = Some [100; 2; 100; 2; 1; 3].
Proof.
  intros Hwf Hq. split_and!.
  - intros m1 n m2 -> Hm1 Hn. eexists. split_and!.
    + destruct Hq as (_ & _ & Hlist).
      exact (SortedListFindIf_first _ _ _ _ _ _ _ _ _ _ Hwf Hlist Hm1 Hn).
    + exact (PriorityQueueErase_found _ _ _ _ _ _ _ _ _ _ _ Hwf Hq Hm1 Hn).
    + by eapply is_queue_store.
  - intros Hns. split.
    + destruct Hq as (_ & _ & Hlist).
      exact (SortedListFindIf_none _ _ _ _ _ _ _ _ Hwf Hlist Hns).
    + exact (PriorityQueueErase_missing _ _ _ _ _ _ _ _ _ Hwf Hq Hns).
  - by vm_compute.
Qed.

Lemma erase_contract_witness :
  wf queue_123 ∧
  is_queue queue_123 100 101 102 ascending 103 [(104, 1); (105, 2); (106, 3)] ∧
  ∃ h', PriorityQueueErase 100 equals 2 queue_123 = Ok 2 h' ∧
        is_queue h' 100 101 102 ascending 103 [(104, 1); (106, 3)].
Proof.
  assert (wf queue_123) as Hwf by compute_done.
  assert (is_queue queue_123 100 101 102 ascending 103
            [(104, 1); (105, 2); (106, 3)]) as Hq
    by (repeat split; (done || reflexivity)).
  split; [exact Hwf|]. split; [exact Hq|].
  destruct (erase_contract _ _ _ _ _ _ _ equals 2 Hwf Hq) as (Hfound & _ & _).
  destruct (Hfound [(104, 1)] (105, 2) [(106, 3)] eq_refl)
    as (h' & _ & Herase & Hq').
  - by repeat constructor.
  - done.
  - exists h'. exact (conj Herase Hq').
Defined.

Lemma enqueue_reports_insert_failure_witness :
  wf starved_queue ∧ is_queue starved_queue 100 101 102 ascending 103 [] ∧
  ∃ it r h',
    SortedListInsert 101 7 starved_queue = Ok it h' ∧
    PriorityQueueEnqueue 100 7 starved_queue = Ok r h' ∧
    r ≠ 0 ∧ iterator it = 103 ∧ dlls h' = dlls starved_queue.
Proof.
  assert (wf starved_queue) as Hwf by compute_done.
  assert (is_queue starved_queue 100 101 102 ascending 103 []) as Hq
    by (repeat split; (done || reflexivity)).
  split; [exact Hwf|]. split; [exact Hq|].
  destruct (enqueue_reports_insert_failure _ _ _ _ _ _ _ 7 Hwf Hq)
    as (it & r & h' & Hins & _ & Henq & _ & Hr & _ & Hdenied).
  destruct (Hdenied eq_refl) as [Hit Hsame].
  exists it, r, h'. split_and!; [done..| |done|done]. by apply Hr.
Defined.

(** C10.  When more than one element matches, [PriorityQueueErase] takes
    out the first match in traversal order and nothing else: the elements
    before it and after it stay, in the order they had, the later matches
    among them, and no other container changes. *)
Theorem erase_removes_first_match_only h q sl d c t m1 n m2 ismatch parameter :
  wf h → is_queue h q sl d c t (m1 ++ n :: m2) →
  Forall (λ k, ismatch k.2 parameter = 0) m1 → ismatch n.2 parameter ≠ 0 →
  Exists (λ k, ismatch k.2 parameter ≠ 0) m2 →
  ∃ h',
    PriorityQueueErase q ismatch parameter h = Ok n.2 h' ∧
    is_queue h' q sl d c t (m1 ++ m2) ∧
    S (length (m1 ++ m2)) = length (m1 ++ n :: m2) ∧
    Exists (λ k, ismatch k.2 parameter ≠ 0) (m1 ++ m2) ∧
    (∀ d', d' ≠ d → dlls h' !! d' = dlls h !! d') ∧
    slists h' = slists h ∧ queues h' = queues h ∧ wf h'.
Proof.
  intros Hwf Hq Hm1 Hn Hm2. eexists. split_and!.
  - exact (PriorityQueueErase_found _ _ _ _ _ _ _ _ _ _ _ Hwf Hq Hm1 Hn).
  - by eapply is_queue_store.
  - rewrite !length_app. simpl. lia.
  - apply Exists_app. by right.
  - intros d' Hd'. simpl. by rewrite lookup_insert_ne.
  - done.
  - done.
  - destruct Hq as (_ & _ & _ & _ & Hd). eapply wf_store; [done..|].
    unfold cells. simpl. rewrite !fmap_app, fmap_cons. solve_submseteq.
Qed.

Lemma erase_removes_first_match_only_witness :
  wf queue_122 ∧
  is_queue queue_122 100 101 102 ascending 103
    ([(105, 1)] ++ (106, 2) :: [(104, 2)]) ∧
  ∃ h', PriorityQueueErase 100 equals 2 queue_122 = Ok 2 h' ∧
        is_queue h' 100 101 102 ascending 103 [(105, 1); (104, 2)].
Proof.
  assert (wf queue_122) as Hwf by compute_done.
  assert (is_queue queue_122 100 101 102 ascending 103
            ([(105, 1)] ++ (106, 2) :: [(104, 2)])) as Hq
    by (repeat split; (done || reflexivity)).
  split; [exact Hwf|]. split; [exact Hq|].
  destruct (erase_removes_first_match_only _ _ _ _ _ _ _ _ _ equals 2 Hwf Hq)
    as (h' & Herase & Hq' & _).
  - by repeat constructor.
  - done.
  - by repeat constructor.
  - exists h'. exact (conj Herase Hq').
Defined.

(** ** The queue, run *)

(** C4.  With the comparator [ascending], after 5, 1 and 3 are enqueued
    into a new queue, Peek returns 1, the dequeues return 1, 3 and 5, and
    IsEmpty is 0 before and between them and non-zero after the third. *)
Theorem priority_scenario_runs :
  run priority_scenario empty_heap = Some [1; 0; 1; 0; 3; 0; 5; 1].
Proof. by vm_compute. Qed.

(** ** The empty queue *)

(** C7.  On an empty queue [PriorityQueueDequeue], which is
    [SortedListPopFront] on the list of the queue, returns [NULL] and
    leaves the memory as it is. *)
Theorem dequeue_empty_returns_null h q sl d c t :
  is_queue h q sl d c t [] →
  PriorityQueueIsEmpty q h = Ok 1 h ∧
  SortedListPopFront sl h = Ok NULL h ∧
  PriorityQueueDequeue q h = Ok NULL h.
Proof.
  intros (Hq & Hqs & Hsl & Hs & Hd).
  assert (SortedListPopFront sl h = Ok NULL h) as Hpop.
  { unfold SortedListPopFront. massert. mstep (load_slist_ok _ _ _ Hs).
    unfold DLLPopFront. by mstep (load_dll_ok _ _ _ Hd). }
  split_and!; [|done|].
  - unfold PriorityQueueIsEmpty. massert. mstep (load_queue_ok _ _ _ Hqs).
    unfold SortedListIsEmpty. massert. mstep (load_slist_ok _ _ _ Hs).
    unfold DLLIsEmpty. by mstep (load_dll_ok _ _ _ Hd).
  - unfold PriorityQueueDequeue. massert. by mstep (load_queue_ok _ _ _ Hqs).
Qed.

Lemma dequeue_empty_returns_null_witness :
  is_queue one_queue 100 101 102 ascending 103 [] ∧
  PriorityQueueIsEmpty 100 one_queue = Ok 1 one_queue ∧
  SortedListPopFront 101 one_queue = Ok NULL one_queue ∧
  PriorityQueueDequeue 100 one_queue = Ok NULL one_queue.
Proof.
  assert (is_queue one_queue 100 101 102 ascending 103 []) as Hq
    by (repeat split; (done || reflexivity)).
  exact (conj Hq (dequeue_empty_returns_null _ _ _ _ _ _ Hq)).
Defined.

(** [PriorityQueuePeek] has no such way out: on an empty queue it reads the
    payload of the end sentinel. *)
Lemma peek_empty_is_undefined h q sl d c t :
  wf h → is_queue h q sl d c t [] → PriorityQueuePeek q h = Fault Undefined.
Proof.
  intros Hwf (Hq & Hqs & Hlist). pose proof Hlist as (Hsl & Hs & Hd).
  unfold PriorityQueuePeek. massert. mstep (load_queue_ok _ _ _ Hqs).
  mstep (SortedListBegin_ok _ _ _ _ _ _ Hlist). simpl.
  unfold SortedListGetData. simpl.
  pose proof (wf_tail_range _ _ _ Hwf Hd) as Ht. simpl in Ht.
  rewrite non_null_true, bind_assert_true by (unfold NULL; lia).
  by apply (DLLGetData_end h d t []).
Qed.

(** ** SortedListFind *)

Lemma SortedListFind_ok h sl d c t ns b mid post from to key :
  wf h → is_slist h sl d c t ns →
  at_pos h d t b (mid ++ post) (iterator from) →
  iterator to = first_cell post t → list_ from = list_ to →
  ∃ m1 m2,
    scan_stop (λ x, bool_decide (0 < c x key)) mid m1 m2 ∧
    SortedListFind sl from to key h
    = Ok (move from (first_cell (m2 ++ post) t)) h.
Proof.
  intros Hwf Hlist Hat Hto Hsame.
  destruct (while_fuel_walk iterator move
              (find_guard sl (iterator to) key) SortedListNext
              h d t post (λ x, bool_decide (0 < c x key))
              move_pos (λ _ _ _, eq_refl) (λ _ _, eq_refl)
              (λ s b mid,
                 eq_ind_r (λ z, _ → find_guard _ z _ _ _ = _)
                   (find_guard_at h sl d c t ns post key s b mid Hwf Hlist)
                   Hto)
              (λ s b n a, SortedListNext_ok h d t b n a s Hwf)
              mid b from (S (heap_size h)) Hat)
    as (m1 & m2 & Hstop & Hrun).
  { destruct Hat as [Hd _]. by eapply range_fuel. }
  exists m1, m2. split; [done|]. unfold SortedListFind.
  assert (iterator to ≠ NULL) as Hto'.
  { destruct Hat as [Hd _]. rewrite Hto.
    apply (at_pos_non_null h d t (b ++ mid) post _ Hwf).
    split; [|done]. by rewrite <-(assoc_L (++)). }
  rewrite (non_null_true (iterator from))
    by by eapply at_pos_non_null.
  rewrite bind_assert_true, (non_null_true _ Hto'), bind_assert_true.
  destruct Hlist as (Hsl & _). rewrite (non_null_true _ Hsl), bind_assert_true.
  rewrite bool_decide_eq_true_2, bind_assert_true by done.
  exact Hrun.
Qed.

(** C8.  Over a range [[from, to)] of a list, [SortedListFind] walks
    forward while [cmp(current, key) > 0] and returns the first position of
    the range with [cmp(current, key) <= 0], or [to] when there is none. *)
Theorem find_stops_at_first_not_better h sl d c t ns b mid post from to key :
  wf h → is_slist h sl d c t ns →
  at_pos h d t b (mid ++ post) (iterator from) →
  iterator to = first_cell post t → list_ from = list_ to →
  ∃ m1 m2,
    mid = m1 ++ m2 ∧
    Forall (λ n, c n.2 key > 0) m1 ∧
    match m2 with
    | [] =>
        SortedListFind sl from to key h = Ok to h
    | n :: _ =>
        c n.2 key <= 0 ∧
        SortedListFind sl from to key h = Ok (Iter n.1 (list_ from)) h
    end.
Proof.
  intros Hwf Hlist Hat Hto Hsame.
  destruct (SortedListFind_ok _ _ _ _ _ _ _ _ _ _ _ key Hwf Hlist Hat Hto Hsame)
    as (m1 & m2 & (-> & Hm1 & Hm2) & Hrun).
  exists m1, m2. split_and!; [done| |].
  - eapply Forall_impl; [exact Hm1|]. simpl. intros n Hn.
    apply bool_decide_eq_true in Hn. lia.
  - destruct m2 as [|n m2].
    + rewrite Hrun. simpl. unfold move. rewrite <-Hto, Hsame. by destruct to.
    + split; [|done]. apply bool_decide_eq_false in Hm2. lia.
Qed.

Lemma find_stops_at_first_not_better_witness :
  wf queue_123 ∧
  is_slist queue_123 101 102 ascending 103 [(104, 1); (105, 2); (106, 3)] ∧
  at_pos queue_123 102 103 [(104, 1)] ([(105, 2); (106, 3)] ++ [])
    (iterator (Iter 105 101)) ∧
  SortedListFind 101 (Iter 105 101) (Iter 103 101) 2 queue_123
  = Ok (Iter 105 101) queue_123 ∧
  SortedListFind 101 (Iter 105 101) (Iter 103 101) 0 queue_123
  = Ok (Iter 103 101) queue_123.
Proof.
  assert (wf queue_123) as Hwf by compute_done.
  assert (is_slist queue_123 101 102 ascending 103
            [(104, 1); (105, 2); (106, 3)]) as Hlist
    by (repeat split; (done || reflexivity)).
  assert (at_pos queue_123 102 103 [(104, 1)] ([(105, 2); (106, 3)] ++ [])
            (iterator (Iter 105 101))) as Hat
    by (split; reflexivity).
  split; [exact Hwf|]. split; [exact Hlist|]. split; [exact Hat|]. split.
  - destruct (find_stops_at_first_not_better _ _ _ _ _ _ _ _ _
                (Iter 105 101) (Iter 103 101) 2 Hwf Hlist Hat eq_refl eq_refl)
      as (m1 & m2 & Heq & Hm1 & Hm2).
    destruct m1 as [|k m1].
    + simpl in Heq. subst m2. by destruct Hm2 as [_ ->].
    + exfalso. injection Heq as <- _.
      apply Forall_cons in Hm1 as [Hk _]. unfold ascending in Hk.
      simpl in Hk. lia.
  - destruct (find_stops_at_first_not_better _ _ _ _ _ _ _ _ _
                (Iter 105 101) (Iter 103 101) 0 Hwf Hlist Hat eq_refl eq_refl)
      as (m1 & m2 & Heq & Hm1 & Hm2).
    destruct m2 as [|k m2]; [done|]. exfalso. destruct Hm2 as [Hk _].
    assert (k ∈ [(105, 2); (106, 3)]) as Hin
      by (rewrite Heq; apply elem_of_app; right; left).
    unfold ascending in Hk.
    apply elem_of_cons in Hin as [->|Hin]; [simpl in Hk; lia|].
    apply elem_of_cons in Hin as [->|Hin]; [simpl in Hk; lia|].
    by apply elem_of_nil in Hin.
Defined.

(** ** Ranges across lists *)

(** C9, as the code has it.  In the build with assertions, a range whose
    two positions were taken from different lists makes [SortedListFind]
    and [SortedListFindIf] fail an assertion; [SortedListForEach] does not
    assert on it: given two non-null positions it returns -1 and calls no
    action. *)
Theorem cross_container_range_checks h list from to key ismatch action
    parameter :
  list_ from ≠ list_ to →
  SortedListFind list from to key h = Fault AssertionFailed ∧
  SortedListFindIf from to ismatch parameter h = Fault AssertionFailed ∧
  (iterator from ≠ NULL → iterator to ≠ NULL →
   SortedListForEach from to action parameter h = Ok (-1) h).
Proof.
  intros Hne. split_and!.
  - unfold SortedListFind.
    destruct (non_null (iterator from)); [rewrite bind_assert_true|done].
    destruct (non_null (iterator to)); [rewrite bind_assert_true|done].
    destruct (non_null list); [rewrite bind_assert_true|done].
    by rewrite bool_decide_eq_false_2.
  - unfold SortedListFindIf.
    destruct (non_null (iterator from)); [rewrite bind_assert_true|done].
    destruct (non_null (iterator to)); [rewrite bind_assert_true|done].
    by rewrite bool_decide_eq_false_2.
  - intros Hf Ht. unfold SortedListForEach.
    rewrite !non_null_true, !bind_assert_true by done.
    by rewrite decide_True.
Qed.

Lemma cross_container_range_checks_witness :
  list_ (Iter 102 100) ≠ list_ (Iter 105 103) ∧
  SortedListFind 100 (Iter 102 100) (Iter 105 103) 0 two_lists
  = Fault AssertionFailed ∧
  SortedListFindIf (Iter 102 100) (Iter 105 103) equals 0 two_lists
  = Fault AssertionFailed ∧
  (iterator (Iter 102 100) ≠ NULL → iterator (Iter 105 103) ≠ NULL →
   SortedListForEach (Iter 102 100) (Iter 105 103) equals 0 two_lists
   = Ok (-1) two_lists).
Proof.
  assert (list_ (Iter 102 100) ≠ list_ (Iter 105 103)) as Hne by done.
  exact (conj Hne (cross_container_range_checks two_lists 100 _ _ 0 equals
                     equals 0 Hne)).
Defined.

(** The beginning of the list 100 and the end of the list 103 are positions
    of different containers, and [SortedListForEach] on them comes back
    with -1; no assertion fails. *)
Lemma foreach_cross_container_returns :
  SortedListBegin 100 two_lists = Ok (Iter 102 100) two_lists ∧
  SortedListEnd 103 two_lists = Ok (Iter 105 103) two_lists ∧
  SortedListForEach (Iter 102 100) (Iter 105 103) equals 0 two_lists
  = Ok (-1) two_lists ∧
  SortedListForEach (Iter 102 100) (Iter 105 103) equals 0 two_lists
  ≠ Fault AssertionFailed.
Proof. split_and!; [reflexivity..|done]. Qed.

(** ** Order *)

Section sorted_app.
Context {A : Type} (R : A → A → Prop).

Lemma Sorted_app_inv_l (l1 l2 : list A) : Sorted R (l1 ++ l2) → Sorted R l1.
Proof.
  induction l1 as [|a l1 IH]; [constructor|].
  simpl. intros [Hs Hh]%Sorted_inv. constructor; [by apply IH|].
  destruct l1; [constructor|]. inversion Hh; subst. by constructor.
Qed.

Lemma Sorted_app_inv_r (l1 l2 : list A) : Sorted R (l1 ++ l2) → Sorted R l2.
Proof.
  induction l1 as [|a l1 IH]; [done|].
  simpl. intros [Hs _]%Sorted_inv. by apply IH.
Qed.

Lemma Sorted_app_inv_mid (l1 l2 : list A) x y :
  Sorted R (l1 ++ l2) → last l1 = Some x → head l2 = Some y → R x y.
Proof.
  induction l1 as [|a l1 IH]; [done|].
  simpl. intros [Hs Hh]%Sorted_inv Hx Hy. destruct l1 as [|b l1].
  - simpl in *. injection Hx as ->. destruct l2 as [|z l2]; [done|].
    injection Hy as ->. by inversion Hh.
  - apply IH; [done| |done]. by rewrite last_cons_cons in Hx.
Qed.

Lemma Sorted_app_intro (l1 l2 : list A) :
  Sorted R l1 → Sorted R l2 →
  (∀ x y, last l1 = Some x → head l2 = Some y → R x y) →
  Sorted R (l1 ++ l2).
Proof.
  induction l1 as [|a l1 IH]; [done|].
  intros [Hs Hh]%Sorted_inv H2 Hmid. simpl. constructor.
  - apply IH; [done..|]. intros x y Hx Hy. apply Hmid; [|done].
    destruct l1; [done|]. by rewrite last_cons_cons.
  - destruct l1 as [|b l1].
    + simpl. destruct l2 as [|z l2]; constructor. by apply Hmid.
    + simpl. inversion Hh; subst. by constructor.
Qed.

End sorted_app.

Lemma last_elem_of {A} (l : list A) x : last l = Some x → x ∈ l.
Proof. intros Hl. apply last_Some in Hl as [l' ->]. set_solver. Qed.

Lemma merge_rel_perm c D S R : merge_rel c D S R → R ≡ₚ D ++ S.
Proof.
  induction 1 as [D|D1 D2 s0 S1 S2 R _ _ _ IH].
  - by rewrite (right_id_L [] (++)).
  - rewrite IH. simpl. solve_Permutation.
Qed.

Ltac list_eq := by (simpl; rewrite <-?(assoc_L (++)); simpl;
                    rewrite <-?(assoc_L (++))).

Lemma merge_rel_sorted c D S R :
  merge_rel c D S R → ∀ P,
  sorted c (P ++ D) → sorted c (P ++ S) → sorted c (P ++ R).
Proof.
  unfold sorted.
  induction 1 as [D|D1 D2 s0 S1 S2 R HD1 HD2 _ IH]; intros P HD HS; [done|].
  assert (Sorted (before_ok c) ((P ++ D1 ++ s0 :: S1) ++ S2)) as Hps.
  { replace ((P ++ D1 ++ s0 :: S1) ++ S2)
      with ((P ++ D1) ++ s0 :: S1 ++ S2) by list_eq.
    apply Sorted_app_intro.
    - rewrite (assoc_L (++)) in HD. by apply Sorted_app_inv_l in HD.
    - by apply Sorted_app_inv_r in HS.
    - intros x y Hx [= <-]. destruct D1 as [|d D1 _] using rev_ind.
      + rewrite (right_id_L [] (++)) in Hx.
        by apply (Sorted_app_inv_mid _ _ _ _ _ HS Hx).
      + rewrite (assoc_L (++)), last_snoc in Hx. injection Hx as <-.
        by apply Forall_app in HD1 as [_ [Hd _]%Forall_cons]. }
  replace (P ++ D1 ++ (s0 :: S1) ++ R)
    with ((P ++ D1 ++ s0 :: S1) ++ R) by list_eq.
  apply IH; [|done]. apply Sorted_app_intro.
  - by apply Sorted_app_inv_l in Hps.
  - rewrite (assoc_L (++)) in HD. by apply Sorted_app_inv_r in HD.
  - intros x y Hx Hy. destruct D2 as [|r D2]; [done|].
    injection Hy as <-. destruct HD2 as (_ & HS1 & _).
    rewrite (assoc_L (++)), last_app_cons in Hx. apply last_elem_of in Hx.
    rewrite Forall_forall in HS1. specialize (HS1 _ Hx).
    unfold before_ok. lia.
Qed.

(** ** SortedListMerge *)

Lemma runner_guard_at h sd dd c td ds ts s0 S' from runner b mid :
  wf h → slists h !! sd = Some (SortedList dd c) →
  at_pos h ds ts [] (s0 :: S') from →
  at_pos h dd td b (mid ++ []) runner →
  runner_guard sd from runner h
  = Ok (match mid with
        | [] => false
        | n :: _ => bool_decide (0 >= c n.2 s0.2)
        end) h.
Proof.
  intros Hwf Hs Hfrom Hat. unfold runner_guard.
  mstep (load_slist_ok _ _ _ Hs). destruct Hat as [Hd Hpos]. simpl.
  mstep (DLLEnd_ok _ _ _ _ Hd). destruct mid as [|n mid].
  - rewrite Hpos. by rewrite decide_False by (intros H; by apply H).
  - rewrite decide_True
      by apply (at_pos_range h dd td b n mid [] _ Hwf (conj Hd Hpos)).
    mstep (DLLGetData_ok h dd td b n (mid ++ []) runner Hwf (conj Hd Hpos)).
    by mstep (DLLGetData_ok _ _ _ _ _ _ _ Hwf Hfrom).
Qed.

Lemma to_guard_at h sd ss dd ds c c' td ts bD r D2 runner to b mid :
  wf h → slists h !! sd = Some (SortedList dd c) →
  slists h !! ss = Some (SortedList ds c') →
  at_pos h dd td bD (r :: D2) runner →
  at_pos h ds ts b (mid ++ []) to →
  to_guard sd ss runner to h
  = Ok (match mid with
        | [] => false
        | n :: _ => bool_decide (0 > c n.2 r.2)
        end) h.
Proof.
  intros Hwf Hs Hs' Hrunner Hat. unfold to_guard.
  mstep (load_slist_ok _ _ _ Hs'). destruct Hat as [Hd Hpos]. simpl.
  mstep (DLLEnd_ok _ _ _ _ Hd). destruct mid as [|n mid].
  - rewrite Hpos. by rewrite decide_False by (intros H; by apply H).
  - rewrite decide_True
      by apply (at_pos_range h ds ts b n mid [] _ Hwf (conj Hd Hpos)).
    mstep (load_slist_ok _ _ _ Hs).
    mstep (DLLGetData_ok h ds ts b n (mid ++ []) to Hwf (conj Hd Hpos)).
    by mstep (DLLGetData_ok _ _ _ _ _ _ _ Hwf Hrunner).
Qed.

Lemma merge_guard_at h ss ds c' ts S runner to :
  wf h → slists h !! ss = Some (SortedList ds c') →
  dlls h !! ds = Some (Dll ts S) →
  merge_guard ss (runner, first_cell S ts, to) h
  = Ok (match S with [] => false | _ => true end) h.
Proof.
  intros Hwf Hs Hd. unfold merge_guard.
  mstep (load_slist_ok _ _ _ Hs). simpl. mstep (DLLEnd_ok _ _ _ _ Hd).
  destruct S as [|s0 S]; simpl.
  - by rewrite bool_decide_eq_false_2 by (intros H; by apply H).
  - rewrite bool_decide_eq_true_2; [done|].
    apply (at_pos_range h ds ts [] s0 S [] _ Hwf). split; [|done].
    by rewrite (right_id_L [] (++)).
Qed.

(** One turn of the outer loop, for a comparator whose "strictly before"
    is asymmetric: at least the head of the source moves over. *)
Lemma merge_body_ok h sd ss dd ds c c' td ts Dpre Dpost s0 S' :
  merge_inv h sd ss dd ds c c' td ts Dpre Dpost (s0 :: S') →
  (∀ a b, c a b > 0 → c b a < 0) →
  ∃ D1 D2 S1 S2 h',
    Dpost = D1 ++ D2 ∧ S' = S1 ++ S2 ∧
    Forall (λ n, c n.2 s0.2 <= 0) D1 ∧
    match D2 with
    | [] => S2 = []
    | r :: _ =>
        c r.2 s0.2 > 0 ∧ Forall (λ s, c s.2 r.2 < 0) (s0 :: S1) ∧
        match S2 with [] => True | s' :: _ => c s'.2 r.2 >= 0 end
    end ∧
    merge_body sd ss (first_cell Dpost td, s0.1, s0.1) h
    = Ok (first_cell D2 td, first_cell S2 ts, first_cell S2 ts) h' ∧
    merge_inv h' sd ss dd ds c c' td ts (Dpre ++ D1 ++ s0 :: S1) D2 S2 ∧
    same_but h h' dd ds.
Proof.
  intros (Hwf & Hs & Hs' & Hne & Hd & Hds) Hanti.
  assert (at_pos h ds ts [] (s0 :: S') s0.1) as Hfrom by done.
  destruct (while_fuel_walk (λ z : Z, z) (λ _ n, n)
              (runner_guard sd s0.1) DLLNext h dd td []
              (λ x, bool_decide (0 >= c x s0.2))
              (λ _, eq_refl) (λ _ _ _, eq_refl) (λ _ _, eq_refl)
              (λ s b mid, runner_guard_at h sd dd c td ds ts s0 S' s0.1 s b
                            mid Hwf Hs Hfrom)
              (λ s b n a, DLLNext_ok h dd td b n a s Hwf)
              Dpost Dpre (first_cell Dpost td) (S (heap_size h)))
    as (D1 & D2 & (-> & HD1 & HD2) & Hrun1).
  { split; by rewrite (right_id_L [] (++)). }
  { apply (range_fuel h dd td Dpre _ []). by rewrite (right_id_L [] (++)). }
  rewrite (right_id_L [] (++)) in Hrun1.
  assert (at_pos h dd td (Dpre ++ D1) D2 (first_cell D2 td)) as Hrunner.
  { split; [|done]. by rewrite <-(assoc_L (++)). }
  assert (∃ S1 S2, S' = S1 ++ S2 ∧
            match D2 with
            | [] => S2 = []
            | r :: _ =>
                c r.2 s0.2 > 0 ∧ Forall (λ s, c s.2 r.2 < 0) (s0 :: S1) ∧
                match S2 with [] => True | s' :: _ => c s'.2 r.2 >= 0 end
            end ∧
            (if decide (first_cell D2 td = td)
             then s <~ load_slist ss;; DLLEnd (dll s)
             else while (to_guard sd ss (first_cell D2 td)) DLLNext s0.1) h
            = Ok (first_cell S2 ts) h) as (S1 & S2 & -> & Hcond & Hto).
  { destruct D2 as [|r D2].
    - exists S', []. split; [by rewrite (right_id_L [] (++))|]. split; [done|].
      simpl. rewrite decide_True by done. mstep (load_slist_ok _ _ _ Hs').
      by apply DLLEnd_ok in Hds.
    - assert (c r.2 s0.2 > 0) as Hr
        by (apply bool_decide_eq_false in HD2; lia).
      destruct (while_fuel_walk (λ z : Z, z) (λ _ n, n)
                  (to_guard sd ss r.1) DLLNext h ds ts []
                  (λ x, bool_decide (0 > c x r.2))
                  (λ _, eq_refl) (λ _ _ _, eq_refl) (λ _ _, eq_refl)
                  (λ s b mid, to_guard_at h sd ss dd ds c c' td ts _ r D2
                                r.1 s b mid Hwf Hs Hs' Hrunner)
                  (λ s b n a, DLLNext_ok h ds ts b n a s Hwf)
                  (s0 :: S') [] s0.1 (S (heap_size h)))
        as (T1 & T2 & (Heq & HT1 & HT2) & Hrun2).
      { split; [|done]. simpl. by rewrite (right_id_L [] (++)). }
      { apply (range_fuel h ds ts [] _ []). simpl.
        by rewrite (right_id_L [] (++)). }
      destruct T1 as [|s1 T1].
      { exfalso. simpl in Heq. subst T2.
        apply bool_decide_eq_false in HT2. specialize (Hanti _ _ Hr). lia. }
      simpl in Heq. injection Heq as <- ->.
      exists T1, T2. split; [done|]. split.
      + split; [done|]. split.
        * eapply Forall_impl; [exact HT1|]. simpl. intros n Hn.
          apply bool_decide_eq_true in Hn. lia.
        * destruct T2 as [|s' T2]; [done|].
          apply bool_decide_eq_false in HT2. lia.
      + simpl. rewrite decide_False.
        * rewrite (right_id_L [] (++)) in Hrun2. exact Hrun2.
        * apply (at_pos_range h dd td (Dpre ++ D1) r D2 [] _ Hwf).
          destruct Hrunner as [Hr' _]. split; [|done].
          by rewrite (right_id_L [] (++)). }
  assert (at_pos h ds ts [] ((s0 :: S1) ++ S2) s0.1) as Hfrom' by done.
  pose proof (DLLSplice_ok h dd td (Dpre ++ D1) D2 _ ds ts [] (s0 :: S1) S2
                s0.1 _ Hwf Hrunner Hfrom' eq_refl Hne) as Hsplice.
  set (h' := set_dlls
               (λ m, <[dd := Dll td ((Dpre ++ D1) ++ (s0 :: S1) ++ D2)]> m)
               (set_dlls (λ m, <[ds := Dll ts ([] ++ S2)]> m) h)) in *.
  assert (dlls h' !! ds = Some (Dll ts S2)) as Hds'.
  { simpl. rewrite lookup_insert_ne by done. apply lookup_insert_eq. }
  assert (dlls h' !! dd
          = Some (Dll td ((Dpre ++ D1 ++ s0 :: S1) ++ D2))) as Hd'.
  { simpl. rewrite lookup_insert_eq. do 2 f_equal. list_eq. }
  assert (wf h') as Hwf'.
  { apply (wf_store2 h dd _ _ ds _ _ Hwf Hne Hd Hds).
    unfold cells. simpl. rewrite !fmap_app, !fmap_cons, !fmap_app.
    solve_submseteq. }
  exists D1, D2, S1, S2, h'.
  split; [done|]. split; [done|]. split.
  { eapply Forall_impl; [exact HD1|]. simpl. intros n Hn.
    apply bool_decide_eq_true in Hn. lia. }
  split; [exact Hcond|]. split.
  { unfold merge_body. mstep (Hrun1 : while _ _ _ h = _).
    mstep (load_slist_ok _ _ _ Hs). simpl. mstep (DLLEnd_ok _ _ _ _ Hd).
    mstep Hto. mstep Hsplice.
    mstep (load_slist_ok h' _ _ Hs'). simpl.
    by mstep (DLLBegin_ok _ _ _ _ Hds'). }
  split; [done|]. split; [|done].
  intros d Hd1 Hd2. simpl. by rewrite !lookup_insert_ne.
Qed.

Lemma same_but_trans h1 h2 h3 dd ds :
  same_but h1 h2 dd ds → same_but h2 h3 dd ds → same_but h1 h3 dd ds.
Proof.
  intros (Ha & Hb & Hc & Hd & He) (Ha' & Hb' & Hc' & Hd' & He').
  split_and!; try congruence. intros d H1 H2. rewrite Ha' by done. by apply Ha.
Qed.

Lemma same_but_refl h dd ds : same_but h h dd ds.
Proof. by split_and!. Qed.

(** The outer loop comes to an end, with the source used up, before its
    fuel does. *)
Lemma merge_loop_ok sd ss dd ds c c' td ts (n : nat) :
  (∀ a b, c a b > 0 → c b a < 0) →
  ∀ S, (length S ≤ n)%nat → ∀ fuel h Dpre Dpost, (n < fuel)%nat →
  merge_inv h sd ss dd ds c c' td ts Dpre Dpost S →
  ∃ R st' h',
    merge_rel c Dpost S R ∧
    while_fuel fuel (merge_guard ss) (merge_body sd ss)
      (first_cell Dpost td, first_cell S ts, first_cell S ts) h
    = Ok st' h' ∧
    merge_inv h' sd ss dd ds c c' td ts Dpre R [] ∧
    same_but h h' dd ds.
Proof.
  intros Hanti. induction n as [|n IH]; intros S Hlen fuel h Dpre Dpost Hfuel Hinv.
  - destruct S; [|simpl in Hlen; lia]. destruct fuel as [|fuel]; [lia|].
    exists Dpost, (first_cell Dpost td, ts, ts), h.
    split; [constructor|]. split; [|split; [done|apply same_but_refl]].
    destruct Hinv as (Hwf & Hs & Hs' & Hne & Hd & Hds).
    cbn [while_fuel].
    by mstep (merge_guard_at h ss ds c' ts [] (first_cell Dpost td) ts
                Hwf Hs' Hds).
  - destruct fuel as [|fuel]; [lia|]. destruct S as [|s0 S'].
    + exists Dpost, (first_cell Dpost td, ts, ts), h.
      split; [constructor|]. split; [|split; [done|apply same_but_refl]].
      destruct Hinv as (Hwf & Hs & Hs' & Hne & Hd & Hds).
      cbn [while_fuel].
      by mstep (merge_guard_at h ss ds c' ts [] (first_cell Dpost td) ts
                  Hwf Hs' Hds).
    + destruct (merge_body_ok _ _ _ _ _ _ _ _ _ _ _ _ _ Hinv Hanti)
        as (D1 & D2 & S1 & S2 & h1 & -> & -> & HD1 & Hcond & Hbody & Hinv1 & Hsame1).
      destruct (IH S2) with (fuel := fuel) (h := h1)
        (Dpre := Dpre ++ D1 ++ s0 :: S1) (Dpost := D2)
        as (R & st' & h' & Hrel & Hrun & Hinv' & Hsame'); [|lia|done|].
      { simpl in Hlen. rewrite length_app in Hlen. lia. }
      exists (D1 ++ (s0 :: S1) ++ R), st', h'. split; [by constructor|].
      split; [|split].
      * destruct Hinv as (Hwf & Hs & Hs' & Hne & Hd & Hds).
        cbn [while_fuel].
        mstep (merge_guard_at h ss ds c' ts (s0 :: S1 ++ S2)
                 (first_cell (D1 ++ D2) td) s0.1 Hwf Hs' Hds).
        simpl. by mstep Hbody.
      * destruct Hinv' as (? & ? & ? & ? & Hd' & ?).
        split_and!; try done. rewrite Hd'. do 2 f_equal. list_eq.
      * by eapply same_but_trans.
Qed.

Lemma SortedListMerge_ok h sd ss dd ds c c' td ts D S :
  wf h → is_slist h sd dd c td D → is_slist h ss ds c' ts S → dd ≠ ds →
  (∀ a b, c a b > 0 → c b a < 0) →
  ∃ R h',
    merge_rel c D S R ∧
    SortedListMerge sd ss h = Ok tt h' ∧
    wf h' ∧ is_slist h' sd dd c td R ∧ is_slist h' ss ds c' ts [] ∧
    same_but h h' dd ds.
Proof.
  intros Hwf (Hsd & Hs & Hd) (Hss & Hs' & Hds) Hne Hanti.
  destruct (merge_loop_ok sd ss dd ds c c' td ts (length S) Hanti S
              (le_n _) (Datatypes.S (heap_size h)) h [] D)
    as (R & st' & h' & Hrel & Hrun & Hinv' & Hsame).
  { apply heap_size_ge in Hds. simpl in Hds. lia. }
  { by split_and!. }
  destruct Hinv' as (Hwf' & Hs1 & Hs1' & _ & Hd' & Hds').
  exists R, h'. split; [done|]. split; [|by split_and!].
  unfold SortedListMerge. do 2 massert.
  mstep (load_slist_ok _ _ _ Hs'). simpl. mstep (DLLBegin_ok _ _ _ _ Hds).
  mstep (load_slist_ok _ _ _ Hs). simpl. mstep (DLLBegin_ok _ _ _ _ Hd).
  mstep (load_slist_ok _ _ _ Hs'). simpl. mstep (DLLBegin_ok _ _ _ _ Hds).
  by mstep (Hrun : while _ _ _ h = _).
Qed.

Lemma SortedListCount_ok h sl d c t ns :
  is_slist h sl d c t ns → SortedListCount sl h = Ok (Z.of_nat (length ns)) h.
Proof.
  intros (Hsl & Hs & Hd). unfold SortedListCount. massert.
  mstep (load_slist_ok _ _ _ Hs). unfold DLLCount.
  by mstep (load_dll_ok _ _ _ Hd).
Qed.

Lemma SortedListIsEmpty_ok h sl d c t ns :
  is_slist h sl d c t ns →
  SortedListIsEmpty sl h = Ok (match ns with [] => 1 | _ => 0 end) h.
Proof.
  intros (Hsl & Hs & Hd). unfold SortedListIsEmpty. massert.
  mstep (load_slist_ok _ _ _ Hs). unfold DLLIsEmpty.
  by mstep (load_dll_ok _ _ _ Hd).
Qed.

(** C3.  [SortedListMerge(dest, source)] on two lists sorted by the
    comparator of [dest]: the source ends empty, the destination has the
    [n + m] nodes of both, neither more nor less, and is sorted. *)
Theorem merge_correct h sd ss dd ds c c' td ts D S :
  wf h → is_slist h sd dd c td D → is_slist h ss ds c' ts S → dd ≠ ds →
  (∀ a b, c a b > 0 → c b a < 0) → sorted c D → sorted c S →
  ∃ R h',
    SortedListMerge sd ss h = Ok tt h' ∧
    is_slist h' ss ds c' ts [] ∧ SortedListIsEmpty ss h' = Ok 1 h' ∧
    is_slist h' sd dd c td R ∧
    SortedListCount sd h' = Ok (Z.of_nat (length D + length S)) h' ∧
    sorted c R ∧ R ≡ₚ D ++ S ∧ payloads R ≡ₚ payloads D ++ payloads S.
Proof.
  intros Hwf Hd Hs Hne Hanti HD HS.
  destruct (SortedListMerge_ok _ _ _ _ _ _ _ _ _ _ _ Hwf Hd Hs Hne Hanti)
    as (R & h' & Hrel & Hrun & Hwf' & Hd' & Hs' & _).
  pose proof (merge_rel_perm _ _ _ _ Hrel) as Hperm.
  exists R, h'. split_and!; try done.
  - exact (SortedListIsEmpty_ok _ _ _ _ _ _ Hs').
  - rewrite (SortedListCount_ok _ _ _ _ _ _ Hd').
    by rewrite Hperm, length_app.
  - exact (merge_rel_sorted _ _ _ _ Hrel [] HD HS).
  - unfold payloads. by rewrite Hperm, fmap_app.
Qed.

Lemma ascending_asym a b : ascending a b > 0 → ascending b a < 0.
Proof. unfold ascending. lia. Qed.

Lemma merge_correct_witness :
  wf two_filled ∧
  is_slist two_filled 100 101 ascending 102 [(107, 1); (108, 3); (106, 5)] ∧
  is_slist two_filled 103 104 ascending 105 [(111, 2); (109, 3); (110, 4)] ∧
  sorted ascending [(107, 1); (108, 3); (106, 5)] ∧
  sorted ascending [(111, 2); (109, 3); (110, 4)] ∧
  ∃ R h',
    SortedListMerge 100 103 two_filled = Ok tt h' ∧
    is_slist h' 103 104 ascending 105 [] ∧
    is_slist h' 100 101 ascending 102 R ∧
    SortedListCount 100 h' = Ok 6 h' ∧ sorted ascending R.
Proof.
  assert (wf two_filled) as Hwf by compute_done.
  assert (is_slist two_filled 100 101 ascending 102
            [(107, 1); (108, 3); (106, 5)]) as Hd
    by (repeat split; (done || reflexivity)).
  assert (is_slist two_filled 103 104 ascending 105
            [(111, 2); (109, 3); (110, 4)]) as Hs
    by (repeat split; (done || reflexivity)).
  assert (sorted ascending [(107, 1); (108, 3); (106, 5)]) as HD
    by compute_done.
  assert (sorted ascending [(111, 2); (109, 3); (110, 4)]) as HS
    by compute_done.
  split; [exact Hwf|]. split; [exact Hd|]. split; [exact Hs|].
  split; [exact HD|]. split; [exact HS|].
  destruct (merge_correct _ _ _ _ _ _ _ _ _ _ _ Hwf Hd Hs
              ltac:(done) ascending_asym HD HS)
    as (R & h' & Hrun & Hs' & _ & Hd' & Hcount & HR & _).
  exists R, h'. exact (conj Hrun (conj Hs' (conj Hd' (conj Hcount HR)))).
Defined.

(** The same merge, run: the nodes come out as 1, 2, 3, 3, 4, 5, the 3 of
    the destination before the 3 of the source. *)
Example merge_runs :
  run (SortedListMerge 100 103;;;
       n <~ SortedListCount 100;; m <~ SortedListCount 103;;
       d <~ load_dll 101;; ret (n, m, dll_nodes d)) two_filled
  = Some (6, 0, [(107, 1); (111, 2); (108, 3); (109, 3); (110, 4); (106, 5)]).
Proof. by vm_compute. Qed.

(** [SortedListMerge] leans on the comparator: under [always_first] the
    scan point never moves, no node of the source is taken, and the outer
    loop goes round for ever. *)
Example merge_needs_an_order :
  SortedListMerge 100 103 two_unordered = Fault Diverged.
Proof. by vm_compute. Qed.

(** ** The sort invariant *)

Lemma consistent_flip c a b : consistent c → c a b >= 0 → c b a <= 0.
Proof. intros [Ha _] H. pose proof (Ha a b). lia. Qed.

Lemma sorted_delete c b n a :
  consistent c → sorted c (b ++ n :: a) → sorted c (b ++ a).
Proof.
  intros Hc Hs. unfold sorted in *. apply Sorted_app_intro.
  - by apply Sorted_app_inv_l in Hs.
  - apply Sorted_app_inv_r in Hs. by apply Sorted_inv in Hs as [? _].
  - intros x y Hx Hy.
    pose proof (Sorted_app_inv_mid _ _ _ x n Hs Hx eq_refl) as Hxn.
    apply Sorted_app_inv_r in Hs. apply Sorted_inv in Hs as [_ Hn].
    destruct a as [|z a]; [done|]. injection Hy as ->.
    inversion Hn; subst. unfold before_ok in *.
    by apply (cmp_trans c Hc _ n.2).
Qed.

Lemma sorted_insert c m1 m2 new x :
  consistent c → sorted c (m1 ++ m2) →
  Forall (λ k, c k.2 x < 0) m1 →
  match m2 with [] => True | y :: _ => c y.2 x >= 0 end →
  sorted c (m1 ++ (new, x) :: m2).
Proof.
  intros Hc Hs Hm1 Hm2. unfold sorted in *. apply Sorted_app_intro.
  - by apply Sorted_app_inv_l in Hs.
  - constructor; [by apply Sorted_app_inv_r in Hs|].
    destruct m2 as [|y m2]; constructor.
    unfold before_ok. simpl. by apply consistent_flip.
  - intros k y Hk [= <-]. apply last_elem_of in Hk.
    rewrite Forall_forall in Hm1. specialize (Hm1 _ Hk).
    unfold before_ok. simpl. lia.
Qed.

Lemma sorted_ext c c' ns :
  (∀ a b, c a b = c' a b) → sorted c ns → sorted c' ns.
Proof.
  intros Hext. unfold sorted.
  induction ns as [|n ns IH]; [constructor|].
  intros [Hs Hh]%Sorted_inv. constructor; [by apply IH|].
  destruct ns as [|y ns]; constructor. inversion Hh; subst.
  unfold before_ok in *. by rewrite <-Hext.
Qed.

(** *** Reading a run backwards *)

Lemma bind_inv {X Y} (m : M X) (k : X → M Y) h y h2 :
  bind m k h = Ok y h2 → ∃ x h1, m h = Ok x h1 ∧ k x h1 = Ok y h2.
Proof. unfold bind. destruct (m h) as [x h1|]; [|done]. by exists x, h1. Qed.

Lemma assert_inv b h u h' : assert b h = Ok u h' → b = true ∧ h' = h.
Proof. destruct b; [|done]. by intros [= _ ->]. Qed.

Lemma ret_inv {X} (x y : X) h h' : ret x h = Ok y h' → y = x ∧ h' = h.
Proof. by intros [= -> ->]. Qed.

Lemma load_slist_inv p h s h' :
  load_slist p h = Ok s h' → slists h !! p = Some s ∧ h' = h.
Proof. unfold load_slist. destruct (slists h !! p); [|done]. by intros [= -> ->]. Qed.

Lemma load_queue_inv p h q h' :
  load_queue p h = Ok q h' → queues h !! p = Some q ∧ h' = h.
Proof. unfold load_queue. destruct (queues h !! p); [|done]. by intros [= -> ->]. Qed.

Lemma load_dll_inv d h r h' :
  load_dll d h = Ok r h' → dlls h !! d = Some r ∧ h' = h.
Proof. unfold load_dll. destruct (dlls h !! d); [|done]. by intros [= -> ->]. Qed.

Lemma non_null_inv p : non_null p = true → p ≠ NULL.
Proof. unfold non_null. by intros ?%bool_decide_eq_true. Qed.

Lemma locate_in_inv it l d r ba :
  locate_in it l = Some (d, r, ba) →
  (d, r) ∈ l ∧ split_at it (dll_tail r) (dll_nodes r) = Some ba.
Proof.
  induction l as [|[d' r'] l IH]; [done|]. simpl.
  destruct (split_at it (dll_tail r') (dll_nodes r')) eqn:E.
  - intros [= <- <- <-]. split; [left|done].
  - intros [? ?]%IH. split; [by right|done].
Qed.

Lemma locate_inv it h d r b a :
  locate it h = Some (d, r, (b, a)) →
  dlls h !! d = Some r ∧ dll_nodes r = b ++ a.
Proof.
  intros [Hin Hsplit]%locate_in_inv. split.
  - by apply elem_of_map_to_list in Hin.
  - by apply split_at_inv in Hsplit as [? _].
Qed.

Create HintDb pure.

Lemma pure_ret {X} (x : X) : pure (ret x).
Proof. by intros h y h' [= _ ->]. Qed.

Lemma pure_fail {X} f : pure (@fail X f).
Proof. by intros h y h'. Qed.

Lemma pure_bind {X Y} (m : M X) (k : X → M Y) :
  pure m → (∀ x, pure (k x)) → pure (bind m k).
Proof.
  intros Hm Hk h y h' (x & h1 & H1 & H2)%bind_inv.
  apply Hm in H1 as ->. by apply Hk in H2.
Qed.

Lemma pure_assert b : pure (assert b).
Proof. intros h u h' H. by apply assert_inv in H as [_ ->]. Qed.

Lemma pure_decide {X} P `{Decision P} (m1 m2 : M X) :
  pure m1 → pure m2 → pure (if decide P then m1 else m2).
Proof. by destruct (decide P). Qed.

Lemma pure_load_slist p : pure (load_slist p).
Proof. intros h s h' H. by apply load_slist_inv in H as [_ ->]. Qed.

Lemma pure_load_queue p : pure (load_queue p).
Proof. intros h s h' H. by apply load_queue_inv in H as [_ ->]. Qed.

Lemma pure_load_dll d : pure (load_dll d).
Proof. intros h s h' H. by apply load_dll_inv in H as [_ ->]. Qed.

Lemma pure_DLLNext it : pure (DLLNext it).
Proof.
  intros h x h'. unfold DLLNext.
  destruct (locate it h) as [[[? ?] [? [|? ?]]]|]; try done. by intros [= _ ->].
Qed.

Lemma pure_DLLGetData it : pure (DLLGetData it).
Proof.
  intros h x h'. unfold DLLGetData.
  destruct (locate it h) as [[[? ?] [? [|? ?]]]|]; try done. by intros [= _ ->].
Qed.

Lemma pure_while_fuel {S} fuel (cond : S → M bool) (body : S → M S) :
  (∀ s, pure (cond s)) → (∀ s, pure (body s)) →
  ∀ s, pure (while_fuel fuel cond body s).
Proof.
  intros Hc Hb. induction fuel as [|fuel IH]; intros s; [apply pure_fail|].
  cbn [while_fuel]. apply pure_bind; [done|]. intros [|].
  - by apply pure_bind.
  - apply pure_ret.
Qed.

Lemma pure_while {S} (cond : S → M bool) (body : S → M S) s :
  (∀ s, pure (cond s)) → (∀ s, pure (body s)) → pure (while cond body s).
Proof. intros Hc Hb h x h'. unfold while. by apply pure_while_fuel. Qed.

#[local] Hint Resolve pure_ret pure_fail pure_assert pure_load_slist
  pure_load_queue pure_load_dll pure_DLLNext pure_DLLGetData : pure.
#[local] Hint Extern 1 (pure (bind _ _)) => apply pure_bind; [|intros] : pure.
#[local] Hint Extern 1 (pure (if decide _ then _ else _)) =>
  apply pure_decide : pure.
#[local] Hint Extern 1 (pure (while _ _ _)) =>
  apply pure_while; intros : pure.

Lemma pure_DLLBegin d : pure (DLLBegin d).
Proof. unfold DLLBegin. auto with pure. Qed.

Lemma pure_DLLEnd d : pure (DLLEnd d).
Proof. unfold DLLEnd. auto with pure. Qed.

#[local] Hint Resolve pure_DLLBegin pure_DLLEnd : pure.

Lemma pure_SortedListBegin sl : pure (SortedListBegin sl).
Proof. unfold SortedListBegin. auto 10 with pure. Qed.

Lemma pure_SortedListEnd sl : pure (SortedListEnd sl).
Proof. unfold SortedListEnd. auto 10 with pure. Qed.

Lemma pure_SortedListNext it : pure (SortedListNext it).
Proof. unfold SortedListNext. auto 10 with pure. Qed.

Lemma pure_SortedListGetData it : pure (SortedListGetData it).
Proof. unfold SortedListGetData. auto 10 with pure. Qed.

Lemma pure_SortedListIsEqual i1 i2 : pure (SortedListIsEqual i1 i2).
Proof. unfold SortedListIsEqual. auto 10 with pure. Qed.

#[local] Hint Resolve pure_SortedListBegin pure_SortedListEnd
  pure_SortedListNext pure_SortedListGetData pure_SortedListIsEqual : pure.

Lemma pure_SortedListFindIf from to ismatch parameter :
  pure (SortedListFindIf from to ismatch parameter).
Proof. unfold SortedListFindIf, findif_guard. auto 20 with pure. Qed.

(** *** Each operation keeps the invariant *)

Lemma SortedListRemove_deleted it h x h1 :
  SortedListRemove it h = Ok x h1 → deleted h h1.
Proof.
  unfold SortedListRemove. intros (_ & h0 & [_ ->]%assert_inv & H)%bind_inv.
  apply bind_inv in H as (n & h2 & H & [_ ->]%ret_inv).
  unfold DLLRemove in H.
  destruct (locate (iterator it) h) as [[[d [t ns]] [b [|k a]]]|] eqn:E;
    try done.
  apply locate_inv in E as [Hd Hns]. simpl in Hns. subst ns.
  injection H as _ <-. right. by exists d, t, b, k, a.
Qed.

Lemma DLLPopFront_deleted d h x h1 : DLLPopFront d h = Ok x h1 → deleted h h1.
Proof.
  unfold DLLPopFront. intros ([t ns] & h0 & [Hd ->]%load_dll_inv & H)%bind_inv.
  simpl in H. destruct ns as [|n ns].
  - apply ret_inv in H as [_ ->]. by left.
  - injection H as _ <-. right. by exists d, t, [], n, ns.
Qed.

Lemma DLLPopBack_deleted d h x h1 : DLLPopBack d h = Ok x h1 → deleted h h1.
Proof.
  unfold DLLPopBack. intros ([t ns] & h0 & [Hd ->]%load_dll_inv & H)%bind_inv.
  simpl in H. destruct (last ns) as [n|] eqn:E.
  - apply last_Some in E as [l ->]. rewrite removelast_last in H.
    injection H as _ <-. right. exists d, t, l, n, [].
    by rewrite (right_id_L [] (++)).
  - apply ret_inv in H as [_ ->]. by left.
Qed.

Lemma SortedListPopFront_deleted sl h x h1 :
  SortedListPopFront sl h = Ok x h1 → deleted h h1.
Proof.
  unfold SortedListPopFront. intros (_ & h0 & [_ ->]%assert_inv & H)%bind_inv.
  apply bind_inv in H as (s & h2 & [_ ->]%load_slist_inv & H).
  by apply DLLPopFront_deleted in H.
Qed.

Lemma SortedListPopBack_deleted sl h x h1 :
  SortedListPopBack sl h = Ok x h1 → deleted h h1.
Proof.
  unfold SortedListPopBack. intros (_ & h0 & [_ ->]%assert_inv & H)%bind_inv.
  apply bind_inv in H as (s & h2 & [_ ->]%load_slist_inv & H).
  by apply DLLPopBack_deleted in H.
Qed.

Lemma PriorityQueueDequeue_deleted q h x h1 :
  PriorityQueueDequeue q h = Ok x h1 → deleted h h1.
Proof.
  unfold PriorityQueueDequeue. intros (_ & h0 & [_ ->]%assert_inv & H)%bind_inv.
  apply bind_inv in H as (s & h2 & [_ ->]%load_queue_inv & H).
  by apply SortedListPopFront_deleted in H.
Qed.

Lemma PriorityQueueErase_deleted q ismatch parameter h x h1 :
  PriorityQueueErase q ismatch parameter h = Ok x h1 → deleted h h1.
Proof.
  unfold PriorityQueueErase. intros (_ & h0 & [_ ->]%assert_inv & H)%bind_inv.
  apply bind_inv in H as (pq & h2 & [_ ->]%load_queue_inv & H).
  apply bind_inv in H as (b & h2 & ->%pure_SortedListBegin & H).
  apply bind_inv in H as (e & h2 & ->%pure_SortedListEnd & H).
  apply bind_inv in H as (r & h2 & ->%pure_SortedListFindIf & H).
  apply bind_inv in H as (e' & h2 & ->%pure_SortedListEnd & H).
  apply bind_inv in H as (eq & h2 & ->%pure_SortedListIsEqual & H).
  destruct (decide (eq ≠ 0)) as [Heq|Heq].
  - apply ret_inv in H as [_ ->]. by left.
  - apply bind_inv in H as (data & h2 & ->%pure_SortedListGetData & H).
    apply bind_inv in H as (nxt & h2 & H & [_ ->]%ret_inv).
    by apply SortedListRemove_deleted in H.
Qed.

Lemma inv_deleted h h1 : inv h → deleted h h1 → inv h1.
Proof.
  intros (Hwf & Hna & Hls) [->|(d & t & b & n & a & Hd & ->)]; [done|].
  split_and!; try done.
  - eapply wf_store; [done..|]. unfold cells. simpl.
    rewrite !fmap_app, fmap_cons. solve_submseteq.
  - intros sl s Hs. destruct (Hls sl s Hs) as (Hc & t' & ns & Hd' & Hsorted).
    split; [done|]. simpl. destruct (decide (dll s = d)) as [He|Hne].
    + rewrite He in *. rewrite lookup_insert_eq.
      rewrite Hd in Hd'. injection Hd' as <- <-.
      eexists _, _. split; [done|]. by eapply sorted_delete.
    + rewrite lookup_insert_ne by done. by exists t', ns.
Qed.

Lemma consistent_asym c a b : consistent c → c a b > 0 → c b a < 0.
Proof. intros [Ha _] H. pose proof (Ha a b). lia. Qed.

Lemma SortedListInsert_live sl data h it h1 :
  SortedListInsert sl data h = Ok it h1 →
  sl ≠ NULL ∧ is_Some (slists h !! sl).
Proof.
  unfold SortedListInsert.
  intros (_ & h0 & [Hsl%non_null_inv ->]%assert_inv & H)%bind_inv.
  split; [done|]. apply bind_inv in H as (e & h2 & H & _).
  unfold SortedListEnd in H.
  apply bind_inv in H as (_ & h3 & [_ ->]%assert_inv & H).
  apply bind_inv in H as (s & h4 & [Hs _]%load_slist_inv & _). by exists s.
Qed.

Lemma SortedListInsert_keeps sl data h it h1 :
  inv h → SortedListInsert sl data h = Ok it h1 → inv h1.
Proof.
  intros (Hwf & Hna & Hls) Hrun.
  destruct (SortedListInsert_live _ _ _ _ _ Hrun) as [Hsl [[d c] Hs]].
  destruct (Hls _ _ Hs) as (Hc & t & ns & Hd & Hsorted). simpl in *.
  assert (is_slist h sl d c t ns) as Hlist by done.
  destruct (served h) eqn:Hserved.
  - destruct (SortedListInsert_ok _ _ _ _ _ _ data Hwf Hlist Hserved)
      as (m1 & m2 & (-> & Hm1 & Hm2) & Hrun').
    rewrite Hrun in Hrun'. injection Hrun' as -> ->.
    split_and!; try done.
    + by apply wf_grow.
    + intros sl2 s2 Hs2. destruct (Hls _ _ Hs2) as (Hc2 & t2 & ns2 & Hd2 & H2).
      split; [done|]. simpl in *. destruct (decide (dll s2 = d)) as [He|Hne].
      * assert (sl2 = sl) as -> by by eapply Hna.
        rewrite Hs in Hs2. injection Hs2 as <-. simpl in *.
        rewrite lookup_insert_eq. eexists _, _. split; [done|].
        apply sorted_insert; [done..| |].
        -- eapply Forall_impl; [exact Hm1|]. simpl. intros k Hk.
           apply bool_decide_eq_true in Hk. lia.
        -- destruct m2 as [|y m2]; [done|].
           apply bool_decide_eq_false in Hm2. lia.
      * rewrite lookup_insert_ne by done. by exists t2, ns2.
  - pose proof (SortedListInsert_denied _ _ _ _ _ _ data Hwf Hlist Hserved)
      as Hrun'.
    rewrite Hrun in Hrun'. injection Hrun' as -> ->. by split_and!.
Qed.

Lemma PriorityQueueEnqueue_keeps q data h r h1 :
  inv h → PriorityQueueEnqueue q data h = Ok r h1 → inv h1.
Proof.
  intros Hinv. unfold PriorityQueueEnqueue.
  intros (_ & h0 & [_ ->]%assert_inv & H)%bind_inv.
  apply bind_inv in H as (pq & h2 & [_ ->]%load_queue_inv & H).
  apply bind_inv in H as (insert & h2 & Hins & H).
  apply bind_inv in H as (e & h3 & ->%pure_SortedListEnd & H).
  apply pure_SortedListIsEqual in H as ->.
  by eapply SortedListInsert_keeps.
Qed.

Lemma SortedListMerge_keeps dest source h h1 :
  inv h → admissible h (Merge dest source) →
  SortedListMerge dest source h = Ok tt h1 → inv h1.
Proof.
  intros (Hwf & Hna & Hls) [Hne Hcmp] Hrun. pose proof Hrun as Hrun'.
  unfold SortedListMerge in Hrun'.
  apply bind_inv in Hrun' as (_ & h0 & [Hd%non_null_inv ->]%assert_inv & H).
  apply bind_inv in H as (_ & h0 & [Hs%non_null_inv ->]%assert_inv & H).
  apply bind_inv in H as ([ds c2] & h0 & [Hss ->]%load_slist_inv & H).
  apply bind_inv in H as (to & h0 & ->%pure_DLLBegin & H).
  apply bind_inv in H as ([dd c1] & h0 & [Hsd ->]%load_slist_inv & _).
  destruct (Hls _ _ Hsd) as (Hc1 & td & D & Hdd & HD).
  destruct (Hls _ _ Hss) as (Hc2 & ts & S & Hds & HS). simpl in *.
  assert (dd ≠ ds) as Hdne.
  { intros ->. apply Hne. by eapply (Hna dest source). }
  destruct (SortedListMerge_ok h dest source dd ds c1 c2 td ts D S Hwf)
    as (R & h' & Hrel & Hrun2 & Hwf' & (_ & _ & Hdd') & (_ & _ & Hds')
        & Hframe & Hsl & Hqs & _); [done..| |].
  { intros a b. by apply consistent_asym. }
  rewrite Hrun in Hrun2. injection Hrun2 as ->.
  assert (sorted c1 R) as HR.
  { apply (merge_rel_sorted _ _ _ _ Hrel []); [done|].
    apply (sorted_ext c2); [|done]. intros a b. symmetry.
    by apply (Hcmp _ _ Hsd Hss). }
  split_and!; [done| |].
  - unfold no_alias. by rewrite Hsl.
  - intros sl s Hsl'. rewrite Hsl in Hsl'.
    destruct (Hls _ _ Hsl') as (Hc & t & ns & Hd' & Hsorted).
    split; [done|]. destruct (decide (dll s = dd)) as [He|Hne1].
    + assert (sl = dest) as -> by by eapply Hna.
      rewrite Hsd in Hsl'. injection Hsl' as <-. by exists td, R.
    + destruct (decide (dll s = ds)) as [He|Hne2].
      * assert (sl = source) as -> by by eapply Hna.
        rewrite Hss in Hsl'. injection Hsl' as <-. exists ts, [].
        split; [done|constructor].
      * rewrite Hframe by done. by exists t, ns.
Qed.

Lemma exec_keeps h o h1 : inv h → admissible h o → exec o h = Ok tt h1 → inv h1.
Proof.
  intros Hinv Hadm Hrun. destruct o; simpl in Hrun.
  - apply bind_inv in Hrun as (it & h2 & H & [_ ->]%ret_inv).
    by eapply SortedListInsert_keeps.
  - apply bind_inv in Hrun as (x & h2 & H & [_ ->]%ret_inv).
    eapply inv_deleted; [done|]. by eapply SortedListRemove_deleted.
  - apply bind_inv in Hrun as (x & h2 & H & [_ ->]%ret_inv).
    eapply inv_deleted; [done|]. by eapply SortedListPopFront_deleted.
  - apply bind_inv in Hrun as (x & h2 & H & [_ ->]%ret_inv).
    eapply inv_deleted; [done|]. by eapply SortedListPopBack_deleted.
  - by eapply SortedListMerge_keeps.
  - apply bind_inv in Hrun as (x & h2 & H & [_ ->]%ret_inv).
    by eapply PriorityQueueEnqueue_keeps.
  - apply bind_inv in Hrun as (x & h2 & H & [_ ->]%ret_inv).
    eapply inv_deleted; [done|]. by eapply PriorityQueueDequeue_deleted.
  - apply bind_inv in Hrun as (x & h2 & H & [_ ->]%ret_inv).
    eapply inv_deleted; [done|]. by eapply PriorityQueueErase_deleted.
Qed.

Lemma steps_keep h os h' : inv h → steps h os h' → inv h'.
Proof.
  intros Hinv Hsteps. induction Hsteps as [|h o h1 os h2 Hadm Hrun _ IH];
    [done|].
  apply IH. by eapply exec_keeps.
Qed.

Lemma sorted_adjacent c ns pre A B post :
  sorted c ns → ns = pre ++ A :: B :: post → c A.2 B.2 <= 0.
Proof.
  intros Hs ->. apply Sorted_app_inv_r in Hs.
  apply Sorted_inv in Hs as [_ Hh]. by inversion Hh.
Qed.

(** C1, as the code has it.  Starting from sorted lists whose comparators
    order, after any run of Insert, Remove, PopFront, PopBack and Merge
    (and of Enqueue, Dequeue and Erase on the queues), every list, the list
    of a queue included, has [cmp(A, B) <= 0] for every node [A] and its
    successor [B]; with the arguments the other way round,
    [cmp(B, A) >= 0]. *)
Theorem sort_invariant h os h' :
  inv h → steps h os h' →
  (∀ sl d c t ns pre A B post,
     is_slist h' sl d c t ns → ns = pre ++ A :: B :: post →
     c A.2 B.2 <= 0 ∧ c B.2 A.2 >= 0) ∧
  (∀ q sl d c t ns pre A B post,
     is_queue h' q sl d c t ns → ns = pre ++ A :: B :: post →
     c A.2 B.2 <= 0 ∧ c B.2 A.2 >= 0).
Proof.
  intros Hinv Hsteps.
  destruct (steps_keep _ _ _ Hinv Hsteps) as (_ & _ & Hls).
  assert (∀ sl d c t ns pre A B post,
            is_slist h' sl d c t ns → ns = pre ++ A :: B :: post →
            c A.2 B.2 <= 0 ∧ c B.2 A.2 >= 0) as Hlists.
  { intros sl d c t ns pre A B post (_ & Hs & Hd) Hns.
    destruct (Hls _ _ Hs) as ([Hanti _] & t' & ns' & Hd' & Hsorted).
    simpl in *. rewrite Hd in Hd'. injection Hd' as <- <-.
    pose proof (sorted_adjacent _ _ _ _ _ _ Hsorted Hns).
    pose proof (Hanti A.2 B.2). lia. }
  split; [done|]. intros q sl d c t ns pre A B post (_ & _ & Hlist).
  by eapply Hlists.
Qed.

Lemma two_lists_slists :
  slists two_lists
  = <[100 := SortedList 101 ascending]>
      (<[103 := SortedList 104 ascending]> ∅).
Proof. reflexivity. Qed.

Lemma two_lists_inv : inv two_lists.
Proof.
  split_and!.
  - compute_done.
  - intros sl1 sl2 s1 s2. rewrite two_lists_slists.
    intros [[<- <-]|[_ [[<- <-]|[_ ?]]%lookup_insert_Some]]%lookup_insert_Some
           [[<- <-]|[_ [[<- <-]|[_ ?]]%lookup_insert_Some]]%lookup_insert_Some;
      done.
  - intros sl s. rewrite two_lists_slists.
    intros [[<- <-]|[_ [[<- <-]|[_ ?]]%lookup_insert_Some]]%lookup_insert_Some;
      [| |done].
    + split; [apply ascending_consistent|]. exists 102, [].
      split; [reflexivity|constructor].
    + split; [apply ascending_consistent|]. exists 105, [].
      split; [reflexivity|constructor].
Qed.

Lemma busy_run_steps :
  steps two_lists busy_run (heap_after (run_ops busy_run) two_lists).
Proof.
  unfold busy_run.
  do 5 (eapply steps_cons; [done|by vm_compute|]).
  eapply steps_cons; [|by vm_compute|].
  { split; [done|]. intros s1 s2 [= <-] [= <-]. done. }
  do 3 (eapply steps_cons; [done|by vm_compute|]).
  apply steps_nil.
Qed.

Lemma sort_invariant_witness :
  inv two_lists ∧
  steps two_lists busy_run (heap_after (run_ops busy_run) two_lists) ∧
  is_slist (heap_after (run_ops busy_run) two_lists) 100 101 ascending 102
    ([] ++ (109, 1) :: (108, 3) :: []) ∧
  ascending 1 3 <= 0 ∧ ascending 3 1 >= 0.
Proof.
  assert (is_slist (heap_after (run_ops busy_run) two_lists) 100 101
            ascending 102 ([] ++ (109, 1) :: (108, 3) :: [])) as Hlist
    by (repeat split; (done || reflexivity)).
  split; [exact two_lists_inv|]. split; [exact busy_run_steps|].
  split; [exact Hlist|].
  exact (proj1 (sort_invariant _ _ _ two_lists_inv busy_run_steps)
           100 101 ascending 102 _ [] (109, 1) (108, 3) [] Hlist eq_refl).
Defined.

(** With the sign the other way round C1 does not hold: after 1 and then 3
    are inserted into an empty list, 1 stands immediately before 3 and
    [cmp(1, 3) = -2], which is negative; so "[cmp(A, B)] is non-negative
    for every adjacent pair after every run" fails. *)
Lemma sort_invariant_sign_counterexample :
  run (SortedListInsert 100 1;;; SortedListInsert 100 3;;;
       a <~ SortedListBegin 100;; b <~ SortedListNext a;;
       x <~ SortedListGetData a;; y <~ SortedListGetData b;;
       ret (x, y, ascending x y)) two_lists
  = Some (1, 3, -2) ∧
  ¬ (∀ h os h' sl d c t ns pre A B post,
       inv h → steps h os h' → is_slist h' sl d c t ns →
       ns = pre ++ A :: B :: post → c A.2 B.2 >= 0).
Proof.
  split; [by vm_compute|]. intros H.
  assert (steps two_lists [Insert 100 1; Insert 100 3]
            (heap_after (run_ops [Insert 100 1; Insert 100 3]) two_lists))
    as Hsteps.
  { do 2 (eapply steps_cons; [done|by vm_compute|]). apply steps_nil. }
  assert (is_slist (heap_after (run_ops [Insert 100 1; Insert 100 3])
                      two_lists)
            100 101 ascending 102 ([] ++ (106, 1) :: (107, 3) :: [])) as Hlist
    by (repeat split; (done || reflexivity)).
  specialize (H _ _ _ _ _ _ _ _ [] (106, 1) (107, 3) [] two_lists_inv Hsteps
                Hlist eq_refl).
  unfold ascending in H. simpl in H. lia.
Qed.

(** * Further properties *)

(** ** The queue as a whole *)

Lemma PriorityQueueEnqueue_ok h q sl d c t ns data :
  wf h → is_queue h q sl d c t ns → served h = true →
  ∃ m1 m2, scan_stop (λ x, bool_decide (0 > c x data)) ns m1 m2 ∧
    PriorityQueueEnqueue q data h
    = Ok 0 (Heap (<[d := Dll t (m1 ++ (brk h, data) :: m2)]> (dlls h))
                 (slists h) (queues h) (brk h + 1) (tail (supply h))).
Proof.
  intros Hwf (Hq & Hqs & Hlist) Hserved. pose proof Hlist as (Hsl & Hs & Hd).
  pose proof (wf_tail_range _ _ _ Hwf Hd) as Ht. simpl in Ht.
  destruct (SortedListInsert_ok _ _ _ _ _ _ data Hwf Hlist Hserved)
    as (m1 & m2 & Hstop & Hrun).
  exists m1, m2. split; [done|].
  unfold PriorityQueueEnqueue. massert. mstep (load_queue_ok _ _ _ Hqs).
  mstep Hrun.
  rewrite (bind_ok _ _ _ _ _
             (SortedListEnd_ok _ _ _ _ _ _
                (is_slist_grow h sl d c t ns _ (brk h + 1) (tail (supply h))
                   Hlist))).
  unfold SortedListIsEqual. simpl.
  rewrite !non_null_true, !bind_assert_true by (unfold NULL; lia).
  by rewrite decide_False by lia.
Qed.

Lemma PriorityQueueEnqueue_denied h q sl d c t ns data :
  wf h → is_queue h q sl d c t ns → served h = false →
  PriorityQueueEnqueue q data h
  = Ok 1 (Heap (dlls h) (slists h) (queues h) (brk h) (tail (supply h))).
Proof.
  intros Hwf (Hq & Hqs & Hlist) Hserved. pose proof Hlist as (Hsl & Hs & Hd).
  pose proof (wf_tail_range _ _ _ Hwf Hd) as Ht. simpl in Ht.
  unfold PriorityQueueEnqueue. massert. mstep (load_queue_ok _ _ _ Hqs).
  mstep (SortedListInsert_denied _ _ _ _ _ _ data Hwf Hlist Hserved).
  rewrite (bind_ok _ _ _ _ _
             (SortedListEnd_ok _ _ _ _ _ _
                (is_slist_supply _ _ _ _ _ _ (tail (supply h)) Hlist))).
  unfold SortedListIsEqual. simpl.
  rewrite !non_null_true, !bind_assert_true by (unfold NULL; lia).
  by rewrite decide_True.
Qed.

Lemma PriorityQueueDequeue_ok h q sl d c t n ns :
  is_queue h q sl d c t (n :: ns) →
  PriorityQueueDequeue q h
  = Ok n.2 (set_dlls (λ m, <[d := Dll t ns]> m) h).
Proof.
  intros (Hq & Hqs & Hsl & Hs & Hd).
  unfold PriorityQueueDequeue. massert. mstep (load_queue_ok _ _ _ Hqs).
  unfold SortedListPopFront. massert. mstep (load_slist_ok _ _ _ Hs).
  unfold DLLPopFront. by mstep (load_dll_ok _ _ _ Hd).
Qed.


Lemma PriorityQueueSize_ok h q sl d c t ns :
  is_queue h q sl d c t ns →
  PriorityQueueSize q h = Ok (Z.of_nat (length ns)) h.
Proof.
  intros (Hq & Hqs & Hlist).
  unfold PriorityQueueSize. massert. mstep (load_queue_ok _ _ _ Hqs).
  by apply (SortedListCount_ok _ _ _ _ _ _ Hlist).
Qed.

Lemma PriorityQueueIsEmpty_ok h q sl d c t ns :
  is_queue h q sl d c t ns →
  PriorityQueueIsEmpty q h = Ok (match ns with [] => 1 | _ => 0 end) h.
Proof.
  intros (Hq & Hqs & Hlist).
  unfold PriorityQueueIsEmpty. massert. mstep (load_queue_ok _ _ _ Hqs).
  by apply (SortedListIsEmpty_ok _ _ _ _ _ _ Hlist).
Qed.

Lemma payloads_insert m1 m2 (new x : Z) :
  payloads (m1 ++ (new, x) :: m2) ≡ₚ x :: payloads (m1 ++ m2).
Proof.
  unfold payloads. rewrite !fmap_app, fmap_cons. simpl.
  by rewrite Permutation_middle.
Qed.

Lemma scan_stop_sorted c ns m1 m2 new x :
  consistent c → sorted c ns →
  scan_stop (λ y, bool_decide (0 > c y x)) ns m1 m2 →
  sorted c (m1 ++ (new, x) :: m2).
Proof.
  intros Hc Hs (-> & Hm1 & Hm2). apply sorted_insert; [done..| |].
  - eapply Forall_impl; [exact Hm1|]. simpl. intros k Hk.
    apply bool_decide_eq_true in Hk. lia.
  - destruct m2 as [|y m2]; [done|]. apply bool_decide_eq_false in Hm2. lia.
Qed.

Lemma enqueue_all_ok q sl d c t xs : ∀ h ns,
  wf h → is_queue h q sl d c t ns → consistent c → sorted c ns →
  provides (length xs) h →
  ∃ ns' h',
    for_all (PriorityQueueEnqueue q) xs h = Ok (replicate (length xs) 0) h' ∧
    wf h' ∧ is_queue h' q sl d c t ns' ∧ sorted c ns' ∧
    payloads ns' ≡ₚ xs ++ payloads ns.
Proof.
  induction xs as [|x xs IH]; intros h ns Hwf Hq Hc Hsorted Hs.
  - by exists ns, h.
  - destruct (PriorityQueueEnqueue_ok _ _ _ _ _ _ _ x Hwf Hq
                (provides_served _ _ Hs)) as (m1 & m2 & Hstop & Hrun).
    pose proof Hstop as (Hns & _ & _).
    destruct Hq as (Hq0 & Hqs & Hlist). pose proof Hlist as (_ & _ & Hd).
    destruct (IH (Heap (<[d := Dll t (m1 ++ (brk h, x) :: m2)]> (dlls h))
                       (slists h) (queues h) (brk h + 1) (tail (supply h)))
                 (m1 ++ (brk h, x) :: m2))
      as (ns' & h' & Hrun' & Hwf' & Hq' & Hsorted' & Hperm).
    + rewrite Hns in Hd. by apply wf_grow.
    + split_and!; [done..|]. by eapply is_slist_grow.
    + done.
    + by eapply scan_stop_sorted.
    + by apply provides_tail.
    + exists ns', h'. split_and!; [|done..|].
      * cbn [for_all length replicate]. mstep Hrun. by mstep Hrun'.
      * rewrite Hperm, payloads_insert, Hns. simpl. by rewrite Permutation_middle.
Qed.

Lemma dequeue_all_ok q sl d c t ns : ∀ h,
  is_queue h q sl d c t ns →
  ∃ h',
    for_all (λ _ : unit, PriorityQueueDequeue q) (replicate (length ns) tt) h
    = Ok (payloads ns) h' ∧
    is_queue h' q sl d c t [].
Proof.
  induction ns as [|n ns IH]; intros h Hq.
  - by exists h.
  - destruct (IH (set_dlls (λ m, <[d := Dll t ns]> m) h)) as (h' & Hrun & Hq').
    { by eapply is_queue_store. }
    exists h'. split; [|done]. cbn [for_all length replicate].
    mstep (PriorityQueueDequeue_ok _ _ _ _ _ _ _ _ Hq). by mstep Hrun.
Qed.

Lemma consistent_transitive c :
  consistent c → Transitive (λ a b : Z, c a b <= 0).
Proof. intros Hc a b x. apply (cmp_trans c Hc). Qed.

(** X1.  Whatever is enqueued comes out again, each payload once, in the order
    of the comparator: no payload that is dequeued is after one that is
    dequeued later. *)
Theorem queue_sorts h q sl d c t xs :
  wf h → is_queue h q sl d c t [] → consistent c →
  provides (length xs) h →
  ∃ out h',
    sort_through q xs h = Ok out h' ∧
    out ≡ₚ xs ∧ StronglySorted (λ a b, c a b <= 0) out ∧
    is_queue h' q sl d c t [].
Proof.
  intros Hwf Hq Hc Hs.
  destruct (enqueue_all_ok q sl d c t xs h [] Hwf Hq Hc) as
    (ns & h1 & Hrun1 & Hwf1 & Hq1 & Hsorted & Hperm); [constructor|done|].
  destruct (dequeue_all_ok q sl d c t ns h1 Hq1) as (h2 & Hrun2 & Hq2).
  change (payloads []) with (@nil Z) in Hperm.
  rewrite (right_id_L [] (++)) in Hperm.
  assert (length ns = length xs) as Hlen.
  { apply Permutation_length in Hperm. unfold payloads in Hperm.
    by rewrite length_fmap in Hperm. }
  exists (payloads ns), h2. split_and!; [|done| |done].
  - unfold sort_through. mstep Hrun1. by rewrite <-Hlen.
  - apply (@Sorted_StronglySorted _ _ (consistent_transitive c Hc)).
    unfold payloads. by apply (Sorted_fmap _ (before_ok c)).
Qed.

Lemma queue_sorts_witness :
  wf one_queue ∧ is_queue one_queue 100 101 102 ascending 103 [] ∧
  consistent ascending ∧ provides (length [5; 1; 3; 1]) one_queue ∧
  ∃ out h',
    sort_through 100 [5; 1; 3; 1] one_queue = Ok out h' ∧
    out ≡ₚ [5; 1; 3; 1] ∧ StronglySorted (λ a b, ascending a b <= 0) out ∧
    is_queue h' 100 101 102 ascending 103 [].
Proof.
  assert (wf one_queue) as Hwf by compute_done.
  assert (is_queue one_queue 100 101 102 ascending 103 []) as Hq
    by (repeat split; (done || reflexivity)).
  assert (provides (length [5; 1; 3; 1]) one_queue) as Hs by constructor.
  exact (conj Hwf (conj Hq (conj ascending_consistent (conj Hs
           (queue_sorts _ _ _ _ _ _ _ Hwf Hq ascending_consistent Hs))))).
Defined.

Lemma before_ok_transitive c : consistent c → Transitive (before_ok c).
Proof. intros Hc a b x. unfold before_ok. apply (cmp_trans c Hc). Qed.

Lemma sorted_head_first c n ns k :
  consistent c → sorted c (n :: ns) → k ∈ ns → c n.2 k.2 <= 0.
Proof.
  intros Hc Hs Hk.
  apply (@Sorted_StronglySorted _ _ (before_ok_transitive c Hc)) in Hs.
  apply StronglySorted_inv in Hs as [_ Hall].
  rewrite Forall_forall in Hall. by apply Hall.
Qed.







Lemma SortedListPopFront_ok h sl d c t n ns :
  is_slist h sl d c t (n :: ns) →
  SortedListPopFront sl h = Ok n.2 (set_dlls (λ m, <[d := Dll t ns]> m) h).
Proof.
  intros (Hsl & Hs & Hd). unfold SortedListPopFront. massert.
  mstep (load_slist_ok _ _ _ Hs). unfold DLLPopFront.
  by mstep (load_dll_ok _ _ _ Hd).
Qed.

Lemma is_slist_store h sl d c t ns ns' :
  is_slist h sl d c t ns →
  is_slist (set_dlls (λ m, <[d := Dll t ns']> m) h) sl d c t ns'.
Proof.
  intros (? & ? & ?). split_and!; [done..|]. simpl. apply lookup_insert_eq.
Qed.

Lemma same_but_store h d r : same_but h (set_dlls (λ m, <[d := r]> m) h) d d.
Proof.
  split_and!; try done. intros d' Hne _. simpl. by rewrite lookup_insert_ne.
Qed.

Lemma clear_guard h sl d c t ns :
  is_slist h sl d c t ns →
  (e <~ SortedListIsEmpty sl;; ret (bool_decide (e = 0))) h
  = Ok (bool_decide (ns ≠ [])) h.
Proof.
  intros Hlist. mstep (SortedListIsEmpty_ok _ _ _ _ _ _ Hlist).
  by destruct ns.
Qed.

Lemma clear_loop sl d c t ns : ∀ fuel h,
  (length ns < fuel)%nat → is_slist h sl d c t ns →
  ∃ h',
    while_fuel fuel
      (λ _ : unit, e <~ SortedListIsEmpty sl;; ret (bool_decide (e = 0)))
      (λ _, SortedListPopFront sl;;; ret tt) tt h
    = Ok tt h' ∧
    is_slist h' sl d c t [] ∧ same_but h h' d d ∧ (wf h → wf h').
Proof.
  induction ns as [|n ns IH]; intros [|fuel] h Hfuel Hlist;
    simpl in Hfuel; try lia.
  - exists h. split_and!; [|done|apply same_but_refl|done].
    cbn [while_fuel]. by mstep (clear_guard _ _ _ _ _ _ Hlist).
  - destruct (IH fuel (set_dlls (λ m, <[d := Dll t ns]> m) h))
      as (h' & Hrun & Hlist' & Hsame & Hwf); [lia|by eapply is_slist_store|].
    exists h'. split_and!; [|done| |].
    + cbn [while_fuel]. mstep (clear_guard _ _ _ _ _ _ Hlist). simpl.
      assert ((SortedListPopFront sl;;; ret tt) h
              = Ok tt (set_dlls (λ m, <[d := Dll t ns]> m) h)) as Hbody
        by by mstep (SortedListPopFront_ok _ _ _ _ _ _ _ Hlist).
      by mstep Hbody.
    + eapply same_but_trans; [apply same_but_store|done].
    + intros Hwf0. apply Hwf. destruct Hlist as (_ & _ & Hd).
      eapply wf_store; [done..|]. unfold cells. simpl. solve_submseteq.
Qed.

(** X4.  [PriorityQueueClear] always comes to an end and leaves the queue empty;
    the queue itself stays, and no other container is touched. *)
Theorem clear_empties_the_queue h q sl d c t ns :
  wf h → is_queue h q sl d c t ns →
  ∃ h',
    PriorityQueueClear q h = Ok tt h' ∧
    is_queue h' q sl d c t [] ∧
    PriorityQueueIsEmpty q h' = Ok 1 h' ∧
    PriorityQueueSize q h' = Ok 0 h' ∧
    wf h' ∧ same_but h h' d d.
Proof.
  intros Hwf (Hq & Hqs & Hlist).
  destruct (clear_loop sl d c t ns (S (heap_size h)) h)
    as (h' & Hrun & Hlist' & Hsame & Hwf'); [|done|].
  { destruct Hlist as (_ & _ & Hd%heap_size_ge). simpl in Hd. lia. }
  assert (is_queue h' q sl d c t []) as Hq'.
  { destruct Hsame as (_ & _ & Hqs' & _). split_and!; [done| |done].
    by rewrite Hqs'. }
  exists h'. split_and!; [|done| | |by apply Hwf'|done].
  - unfold PriorityQueueClear. massert. mstep (load_queue_ok _ _ _ Hqs).
    exact Hrun.
  - exact (PriorityQueueIsEmpty_ok _ _ _ _ _ _ _ Hq').
  - exact (PriorityQueueSize_ok _ _ _ _ _ _ _ Hq').
Qed.

Lemma clear_empties_the_queue_witness :
  wf queue_123 ∧
  is_queue queue_123 100 101 102 ascending 103 [(104, 1); (105, 2); (106, 3)] ∧
  ∃ h',
    PriorityQueueClear 100 queue_123 = Ok tt h' ∧
    is_queue h' 100 101 102 ascending 103 [] ∧
    PriorityQueueSize 100 h' = Ok 0 h'.
Proof.
  assert (wf queue_123) as Hwf by compute_done.
  assert (is_queue queue_123 100 101 102 ascending 103
            [(104, 1); (105, 2); (106, 3)]) as Hq
    by (repeat split; (done || reflexivity)).
  split; [exact Hwf|]. split; [exact Hq|].
  destruct (clear_empties_the_queue _ _ _ _ _ _ _ Hwf Hq)
    as (h' & Hrun & Hq' & _ & Hsize & _).
  exists h'. exact (conj Hrun (conj Hq' Hsize)).
Defined.

(** X5.  [PriorityQueueSize] keeps count: an [Enqueue] that returns 0 adds one,
    an [Enqueue] that fails adds nothing, a [Dequeue] takes one away unless
    the queue is empty, and [IsEmpty] is non-zero exactly when the size
    is 0. *)
Theorem size_keeps_count h q sl d c t ns data :
  wf h → is_queue h q sl d c t ns →
  PriorityQueueSize q h = Ok (Z.of_nat (length ns)) h ∧
  (∃ e, PriorityQueueIsEmpty q h = Ok e h ∧ (e ≠ 0 ↔ length ns = 0%nat)) ∧
  (∃ r h1,
     PriorityQueueEnqueue q data h = Ok r h1 ∧
     PriorityQueueSize q h1
     = Ok (Z.of_nat (if decide (r = 0) then S (length ns) else length ns)) h1) ∧
  (∃ x h1,
     PriorityQueueDequeue q h = Ok x h1 ∧
     PriorityQueueSize q h1 = Ok (Z.of_nat (pred (length ns))) h1).
Proof.
  intros Hwf Hq. split_and!.
  - by eapply PriorityQueueSize_ok.
  - eexists. split; [by eapply PriorityQueueIsEmpty_ok|]. by destruct ns.
  - destruct (served h) eqn:Hserved.
    + destruct (PriorityQueueEnqueue_ok _ _ _ _ _ _ _ data Hwf Hq Hserved)
        as (m1 & m2 & (-> & _ & _) & Hrun).
      eexists 0, _. split; [exact Hrun|].
      destruct Hq as (Hq0 & Hqs & Hlist).
      rewrite (PriorityQueueSize_ok _ q sl d c t (m1 ++ (brk h, data) :: m2)).
      * rewrite decide_True by done. do 2 f_equal.
        rewrite !length_app. simpl. lia.
      * split_and!; [done..|]. by eapply is_slist_grow.
    + eexists 1, _.
      split; [exact (PriorityQueueEnqueue_denied _ _ _ _ _ _ _ data Hwf Hq
                       Hserved)|].
      rewrite (PriorityQueueSize_ok _ q sl d c t ns); [|done].
      by rewrite decide_False.
  - destruct ns as [|n ns].
    + exists NULL, h. split; [|by eapply PriorityQueueSize_ok].
      destruct Hq as (Hq0 & Hqs & Hsl & Hs & Hd).
      unfold PriorityQueueDequeue. massert. mstep (load_queue_ok _ _ _ Hqs).
      unfold SortedListPopFront. massert. mstep (load_slist_ok _ _ _ Hs).
      unfold DLLPopFront. by mstep (load_dll_ok _ _ _ Hd).
    + eexists _, _. split; [by eapply PriorityQueueDequeue_ok|].
      apply (PriorityQueueSize_ok _ q sl d c t ns). by eapply is_queue_store.
Qed.

Lemma size_keeps_count_witness :
  wf queue_123 ∧
  is_queue queue_123 100 101 102 ascending 103 [(104, 1); (105, 2); (106, 3)] ∧
  PriorityQueueSize 100 queue_123 = Ok 3 queue_123 ∧
  ∃ r h1,
    PriorityQueueEnqueue 100 7 queue_123 = Ok r h1 ∧
    PriorityQueueSize 100 h1
    = Ok (Z.of_nat (if decide (r = 0) then 4 else 3)) h1.
Proof.
  assert (wf queue_123) as Hwf by compute_done.
  assert (is_queue queue_123 100 101 102 ascending 103
            [(104, 1); (105, 2); (106, 3)]) as Hq
    by (repeat split; (done || reflexivity)).
  split; [exact Hwf|]. split; [exact Hq|].
  destruct (size_keeps_count _ _ _ _ _ _ _ 7 Hwf Hq)
    as (Hsize & _ & (r & h1 & Henq & Hsize1) & _).
  split; [exact Hsize|]. exists r, h1. exact (conj Henq Hsize1).
Defined.

Lemma cells_of_fresh (m : gmap Z dll_t) d r :
  m !! d = None →
  map_to_list (<[d := r]> m) ≫= (λ dr, cells dr.2)
  ≡ₚ cells r ++ (map_to_list m ≫= (λ dr, cells dr.2)).
Proof. intros Hd. by rewrite map_to_list_insert. Qed.

Lemma create_memory h c rest :
  wf h → allocated h →
  let h' := Heap (<[brk h + 2 := Dll (brk h + 3) []]> (dlls h))
                 (<[brk h + 1 := SortedList (brk h + 2) c]> (slists h))
                 (<[brk h := PriorityQueue (brk h + 1)]> (queues h))
                 (brk h + 4) rest in
  is_queue h' (brk h) (brk h + 1) (brk h + 2) c (brk h + 3) [] ∧
  wf h' ∧ allocated h' ∧ extends h h'.
Proof.
  intros [Hnd Hrange] (Hbrk & Hd & Hs & Hq) h'.
  assert (∀ (X : Type) (m : gmap Z X) k,
            (∀ j, is_Some (m !! j) → j < brk h) → brk h ≤ k → m !! k = None)
    as Hfresh.
  { intros X m k Hm Hk. destruct (m !! k) eqn:He; [|done].
    specialize (Hm k (mk_is_Some _ _ He)). lia. }
  split_and!.
  - unfold is_queue, is_slist, NULL.
    split_and!; simpl; [lia|apply lookup_insert_eq|lia|
      apply lookup_insert_eq|apply lookup_insert_eq].
  - unfold wf, all_cells. simpl.
    rewrite cells_of_fresh by (apply Hfresh; [done|lia]).
    unfold cells at 1 3. simpl. split.
    + apply NoDup_cons. split; [|done]. intros Hin.
      rewrite Forall_forall in Hrange. specialize (Hrange _ Hin). lia.
    + apply Forall_cons. split; [lia|].
      eapply Forall_impl; [exact Hrange|]. simpl. lia.
  - split_and!; simpl; [lia|..]; intros k [x Hk];
      (destruct (decide (k = brk h)) as [->|];
       [lia|destruct (decide (k = brk h + 1)) as [->|];
            [lia|destruct (decide (k = brk h + 2)) as [->|]; [lia|]]]);
      rewrite lookup_insert_ne in Hk by done;
      [specialize (Hd k (mk_is_Some _ _ Hk))
      |specialize (Hs k (mk_is_Some _ _ Hk))
      |specialize (Hq k (mk_is_Some _ _ Hk))]; lia.
  - split_and!; simpl; intros k x Hk; rewrite lookup_insert_ne; try done;
      intros <-;
      [specialize (Hd _ (mk_is_Some _ _ Hk))
      |specialize (Hs _ (mk_is_Some _ _ Hk))
      |specialize (Hq _ (mk_is_Some _ _ Hk))]; lia.
Qed.

Lemma PriorityQueueCreate_served h c :
  0 < brk h → provides 3 h →
  PriorityQueueCreate c h
  = Ok (brk h)
       (Heap (<[brk h + 2 := Dll (brk h + 3) []]> (dlls h))
             (<[brk h + 1 := SortedList (brk h + 2) c]> (slists h))
             (<[brk h := PriorityQueue (brk h + 1)]> (queues h))
             (brk h + 4) (tail (tail (tail (supply h))))).
Proof.
  intros Hbrk Hsupply.
  assert (served h = true) as H1 by by eapply provides_served.
  unfold PriorityQueueCreate. mstep (malloc_served h 1 H1).
  rewrite decide_False by (unfold NULL; lia).
  set (h1 := Heap _ _ _ _ _).
  assert (provides 2 h1) as Hsupply1 by by apply provides_tail.
  assert (served h1 = true) as H2 by by eapply provides_served.
  assert (SortedListCreate c h1
          = Ok (brk h + 1)
               (Heap (<[brk h + 2 := Dll (brk h + 3) []]> (dlls h))
                     (<[brk h + 1 := SortedList (brk h + 2) c]> (slists h))
                     (queues h) (brk h + 4)
                     (tail (tail (tail (supply h)))))) as Hlist.
  { unfold SortedListCreate. mstep (malloc_served h1 1 H2).
    rewrite decide_False by (unfold NULL; simpl; lia).
    set (h2 := Heap _ _ _ _ _).
    assert (served h2 = true) as H3
      by (eapply (provides_served 0), provides_tail, Hsupply1).
    assert (DLLCreate h2
            = Ok (brk h + 2)
                 (Heap (<[brk h + 2 := Dll (brk h + 3) []]> (dlls h))
                       (slists h) (queues h) (brk h + 4)
                       (tail (tail (tail (supply h)))))) as Hdll.
    { unfold DLLCreate. mstep (malloc_served h2 2 H3).
      rewrite decide_False by (unfold NULL; simpl; lia).
      unfold store_nodes, modify, bind, ret, set_dlls. simpl.
      by rewrite <-!Z.add_assoc. }
    mstep Hdll. rewrite decide_False by (unfold NULL; lia).
    unfold modify, bind, ret, set_slists. simpl. reflexivity. }
  mstep Hlist. rewrite decide_False by (unfold NULL; lia).
  unfold modify, bind, ret, set_queues. simpl. reflexivity.
Qed.

Lemma PriorityQueueCreate_denied h c :
  0 < brk h → ¬ provides 3 h →
  ∃ h', PriorityQueueCreate c h = Ok NULL h' ∧
    dlls h' = dlls h ∧ slists h' = slists h ∧ queues h' = queues h ∧
    brk h ≤ brk h'.
Proof.
  intros Hbrk Hsupply. unfold provides in Hsupply.
  unfold PriorityQueueCreate, SortedListCreate, DLLCreate, malloc, free, bind,
    ret.
  destruct (supply h) as [|[] [|[] [|[] rest]]] eqn:Hs; simpl in *;
    try (exfalso; apply Hsupply; by repeat constructor);
    repeat (case_decide; unfold NULL in *; simpl in *; try lia);
    eexists; (split; [reflexivity|]); simpl; split_and!; (done || lia).
Qed.

(** X6.  [PriorityQueueCreate] is all or nothing.  When the environment serves
    the three allocations it takes, the result is a fresh non-null handle
    to an empty queue; when one of them is refused, the result is [NULL]
    and no queue, list or container is left behind.  The structures that
    were in memory stay as they were in both cases. *)
Theorem create_is_all_or_nothing h c :
  wf h → allocated h →
  ∃ r h',
    PriorityQueueCreate c h = Ok r h' ∧ wf h' ∧ extends h h' ∧
    if decide (provides 3 h) then
      r ≠ NULL ∧ queues h !! r = None ∧ allocated h' ∧
      ∃ sl d t, is_queue h' r sl d c t [] ∧
        slists h !! sl = None ∧ dlls h !! d = None ∧
        PriorityQueueSize r h' = Ok 0 h'
    else
      r = NULL ∧ dlls h' = dlls h ∧ slists h' = slists h ∧
      queues h' = queues h.
Proof.
  intros Hwf Halloc. pose proof Halloc as (Hbrk & Hd & Hs & Hq).
  assert (∀ (X : Type) (m : gmap Z X) k,
            (∀ j, is_Some (m !! j) → j < brk h) → brk h ≤ k → m !! k = None)
    as Hfresh.
  { intros X m k Hm Hk. destruct (m !! k) eqn:He; [|done].
    specialize (Hm k (mk_is_Some _ _ He)). lia. }
  destruct (decide (provides 3 h)) as [Hsupply|Hsupply].
  - destruct (create_memory h c (tail (tail (tail (supply h)))) Hwf Halloc)
      as (Hqueue & Hwf' & Halloc' & Hext).
    eexists _, _. split; [by apply PriorityQueueCreate_served|].
    split_and!; [done|done|unfold NULL; lia|by apply Hfresh|done|].
    eexists _, _, _. split_and!; [exact Hqueue|apply Hfresh; [done|lia]..|].
    exact (PriorityQueueSize_ok _ _ _ _ _ _ _ Hqueue).
  - destruct (PriorityQueueCreate_denied h c Hbrk Hsupply)
      as (h' & Hrun & Hd' & Hs' & Hq' & Hbrk').
    exists NULL, h'. split; [done|]. split_and!; try done.
    + apply (wf_sub h); [|done..]. unfold all_cells. by rewrite Hd'.
    + unfold extends. by rewrite Hd', Hs', Hq'.
Qed.

Lemma create_is_all_or_nothing_witness :
  wf queue_123 ∧ allocated queue_123 ∧
  ∃ r h',
    PriorityQueueCreate ascending queue_123 = Ok r h' ∧ wf h' ∧
    extends queue_123 h' ∧
    if decide (provides 3 queue_123) then
      r ≠ NULL ∧ queues queue_123 !! r = None ∧ allocated h' ∧
      ∃ sl d t, is_queue h' r sl d ascending t [] ∧
        slists queue_123 !! sl = None ∧ dlls queue_123 !! d = None ∧
        PriorityQueueSize r h' = Ok 0 h'
    else
      r = NULL ∧ dlls h' = dlls queue_123 ∧ slists h' = slists queue_123 ∧
      queues h' = queues queue_123.
Proof.
  assert (wf queue_123) as Hwf by compute_done.
  assert (allocated queue_123) as Halloc.
  { split; [reflexivity|].
    split_and!; intros k [x Hk]; apply elem_of_map_to_list in Hk;
      vm_compute in Hk; repeat (apply elem_of_cons in Hk as [[= -> _]|Hk];
        [reflexivity|]); by apply elem_of_nil in Hk. }
  exact (conj Hwf (conj Halloc (create_is_all_or_nothing _ ascending Hwf Halloc))).
Defined.

(** X7.  [SortedListRemove] undoes [SortedListInsert]: the position that
    [Insert] returns reads the new payload, the list is one longer, and
    removing that position returns the position after it and leaves every
    container, list and queue as it was before the insertion. *)
Theorem remove_undoes_insert h sl d c t ns data :
  wf h → is_slist h sl d c t ns → served h = true →
  ∃ it h1 nxt h2,
    SortedListInsert sl data h = Ok it h1 ∧
    SortedListGetData it h1 = Ok data h1 ∧
    SortedListCount sl h1 = Ok (Z.of_nat (S (length ns))) h1 ∧
    SortedListNext it h1 = Ok nxt h1 ∧
    SortedListRemove it h1 = Ok nxt h2 ∧
    is_slist h2 sl d c t ns ∧ wf h2 ∧
    dlls h2 = dlls h ∧ slists h2 = slists h ∧ queues h2 = queues h.
Proof.
  intros Hwf Hlist Hserved.
  destruct (SortedListInsert_ok _ _ _ _ _ _ data Hwf Hlist Hserved)
    as (m1 & m2 & (-> & _ & _) & Hrun).
  pose proof Hlist as (Hsl & Hs & Hd).
  set (h1 := Heap _ _ _ _ _) in Hrun.
  assert (wf h1) as Hwf1 by by apply wf_grow.
  assert (at_pos h1 d t m1 ((brk h, data) :: m2) (brk h)) as Hat.
  { split; [apply lookup_insert_eq|done]. }
  assert (is_slist h1 sl d c t (m1 ++ (brk h, data) :: m2)) as Hlist1.
  { split_and!; [done..|apply lookup_insert_eq]. }
  eexists _, h1, _, _. split; [exact Hrun|]. split_and!.
  - exact (SortedListGetData_ok _ _ _ _ _ _ (Iter (brk h) sl) Hwf1 Hat).
  - rewrite (SortedListCount_ok _ _ _ _ _ _ Hlist1). do 2 f_equal.
    rewrite !length_app. simpl. lia.
  - exact (SortedListNext_ok _ _ _ _ _ _ (Iter (brk h) sl) Hwf1 Hat).
  - exact (SortedListRemove_ok _ _ _ _ _ _ (Iter (brk h) sl) Hwf1 Hat).
  - split_and!; [done..|]. simpl. apply lookup_insert_eq.
  - eapply wf_store; [done|apply lookup_insert_eq|].
    unfold cells. simpl. rewrite !fmap_app. simpl. solve_submseteq.
  - simpl. rewrite insert_insert_eq. by apply insert_id.
  - done.
  - done.
Qed.

Lemma remove_undoes_insert_witness :
  wf two_filled ∧
  is_slist two_filled 100 101 ascending 102 [(107, 1); (108, 3); (106, 5)] ∧
  served two_filled = true ∧
  ∃ it h1 nxt h2,
    SortedListInsert 100 4 two_filled = Ok it h1 ∧
    SortedListGetData it h1 = Ok 4 h1 ∧
    SortedListRemove it h1 = Ok nxt h2 ∧
    dlls h2 = dlls two_filled.
Proof.
  assert (wf two_filled) as Hwf by compute_done.
  assert (is_slist two_filled 100 101 ascending 102
            [(107, 1); (108, 3); (106, 5)]) as Hlist
    by (repeat split; (done || reflexivity)).
  assert (served two_filled = true) as Hserved by reflexivity.
  split; [exact Hwf|]. split; [exact Hlist|]. split; [exact Hserved|].
  destruct (remove_undoes_insert _ _ _ _ _ _ 4 Hwf Hlist Hserved)
    as (it & h1 & nxt & h2 & Hins & Hget & _ & _ & Hrem & _ & _ & Hd & _).
  exists it, h1, nxt, h2. exact (conj Hins (conj Hget (conj Hrem Hd))).
Defined.

Lemma move_self s : move s (iterator s) = s.
Proof. by destruct s. Qed.

Lemma move_to s e : list_ s = list_ e → move s (iterator e) = e.
Proof. destruct s, e. simpl. by intros ->. Qed.

(** X8.  On a list that is in the order [SortedListInsert] keeps,
    [SortedListFind] tells two cases apart and no more: it returns [from]
    when the first payload of the range is not after the key, and [to] when
    it is.  A key that sits further inside the range is not found. *)
Theorem find_returns_an_end_of_the_range h sl d c t b mid post from to key :
  wf h → is_slist h sl d c t (b ++ mid ++ post) →
  consistent c → sorted c (b ++ mid ++ post) →
  iterator from = first_cell (mid ++ post) t →
  iterator to = first_cell post t → list_ from = list_ to →
  SortedListFind sl from to key h
  = Ok (match mid with
        | [] => to
        | n :: _ => if decide (0 < c n.2 key) then to else from
        end) h.
Proof.
  intros Hwf Hlist Hc Hsorted Hfrom Hto Htag.
  assert (at_pos h d t b (mid ++ post) (iterator from)) as Hat.
  { by destruct Hlist as (_ & _ & ?). }
  destruct (SortedListFind_ok _ _ _ _ _ _ _ _ _ _ _ key Hwf Hlist Hat Hto Htag)
    as (m1 & m2 & (-> & Hm1 & Hm2) & ->).
  f_equal.
  destruct m1 as [|n m1]; simpl.
  - destruct m2 as [|x m2]; simpl.
    + rewrite <-Hto. by apply move_to.
    + apply bool_decide_eq_false in Hm2. rewrite decide_False by done.
      simpl in Hfrom. by rewrite <-Hfrom, move_self.
  - apply Forall_cons in Hm1 as [Hn%bool_decide_eq_true _].
    rewrite decide_True by done.
    destruct m2 as [|x m2]; simpl.
    + rewrite <-Hto. by apply move_to.
    + exfalso. apply bool_decide_eq_false in Hm2.
      apply Sorted_app_inv_r in Hsorted.
      assert (c n.2 x.2 <= 0) as Hnx.
      { apply (sorted_head_first c n ((m1 ++ x :: m2) ++ post)); [done..|].
        set_solver. }
      pose proof (cmp_trans c Hc _ _ key Hnx). lia.
Qed.

Lemma find_returns_an_end_of_the_range_witness :
  wf two_filled ∧
  is_slist two_filled 100 101 ascending 102
    ([] ++ [(107, 1); (108, 3); (106, 5)] ++ []) ∧
  consistent ascending ∧
  sorted ascending ([] ++ [(107, 1); (108, 3); (106, 5)] ++ []) ∧
  SortedListFind 100 (Iter 107 100) (Iter 102 100) 3 two_filled
  = Ok (Iter 107 100) two_filled.
Proof.
  assert (wf two_filled) as Hwf by compute_done.
  assert (is_slist two_filled 100 101 ascending 102
            ([] ++ [(107, 1); (108, 3); (106, 5)] ++ [])) as Hlist
    by (repeat split; (done || reflexivity)).
  assert (sorted ascending ([] ++ [(107, 1); (108, 3); (106, 5)] ++ []))
    as Hsorted by compute_done.
  exact (conj Hwf (conj Hlist (conj ascending_consistent (conj Hsorted
    (find_returns_an_end_of_the_range _ _ _ _ _ _ _ _
       (Iter 107 100) (Iter 102 100) 3
       Hwf Hlist ascending_consistent Hsorted eq_refl eq_refl eq_refl))))).
Defined.

(** X9.  [SortedListFindIf] looks at the positions of the range and at no
    other: its result is the first position of [from, to) whose payload
    matches, and [to] when none of them does, whatever the payloads before
    [from] and from [to] on are; the memory is as it was. *)
Theorem find_if_stays_in_the_range h d t b mid post from to ismatch
    parameter :
  wf h → at_pos h d t b (mid ++ post) (iterator from) →
  iterator to = first_cell post t → list_ from = list_ to →
  ∃ r,
    SortedListFindIf from to ismatch parameter h = Ok r h ∧
    ((r = to ∧ Forall (λ n, ismatch n.2 parameter = 0) mid) ∨
     (∃ m1 n m2,
        mid = m1 ++ n :: m2 ∧ r = move from n.1 ∧
        ismatch n.2 parameter ≠ 0 ∧
        Forall (λ k, ismatch k.2 parameter = 0) m1 ∧
        SortedListGetData r h = Ok n.2 h)).
Proof.
  intros Hwf Hat Hto Htag.
  destruct (SortedListFindIf_ok _ _ _ _ _ _ _ _ ismatch parameter Hwf Hat Hto
              Htag) as (m1 & m2 & (-> & Hm1 & Hm2) & Hrun).
  eexists. split; [exact Hrun|].
  assert (Forall (λ k : node, ismatch k.2 parameter = 0) m1) as Hno.
  { eapply Forall_impl; [exact Hm1|]. intros k Hk. simpl in Hk.
    by apply bool_decide_eq_true in Hk. }
  destruct m2 as [|n m2].
  - left. by rewrite app_nil_r.
  - right. exists m1, n, m2. apply bool_decide_eq_false in Hm2.
    split_and!; [done..|].
    destruct Hat as [Hd _].
    apply (SortedListGetData_ok h d t (b ++ m1) n (m2 ++ post)); [done|].
    split; [|done]. rewrite Hd. f_equal. f_equal. list_eq.
Qed.

Lemma find_if_stays_in_the_range_witness :
  wf two_filled ∧
  at_pos two_filled 101 102 [(107, 1)] ([(108, 3)] ++ [(106, 5)]) 108 ∧
  SortedListFindIf (Iter 108 100) (Iter 106 100) equals 5 two_filled
  = Ok (Iter 106 100) two_filled.
Proof.
  assert (wf two_filled) as Hwf by compute_done.
  assert (at_pos two_filled 101 102 [(107, 1)] ([(108, 3)] ++ [(106, 5)]) 108)
    as Hat by (split; reflexivity).
  split; [exact Hwf|]. split; [exact Hat|].
  destruct (find_if_stays_in_the_range _ _ _ _ _ _ (Iter 108 100)
              (Iter 106 100) equals 5 Hwf Hat eq_refl eq_refl)
    as (r & Hrun & Hr).
  rewrite Hrun. f_equal.
  destruct Hr as [[-> _]|(m1 & n & m2 & Hmid & _ & Hn & _)]; [done|].
  destruct m1 as [|? [|? ?]]; [|done..].
  injection Hmid as <- <-. exfalso. apply Hn. reflexivity.
Defined.

Lemma merge_rel_sublist c D S R :
  merge_rel c D S R → sublist D R ∧ sublist S R.
Proof.
  induction 1 as [D|D1 D2 s0 S1 S2 R _ _ _ [IHD IHS]].
  - split; [done|apply sublist_nil_l].
  - split.
    + apply sublist_app; [done|]. by apply sublist_inserts_l.
    + apply sublist_inserts_l.
      by apply (sublist_app (s0 :: S1) (s0 :: S1) S2 R).
Qed.

Lemma consistent_refl c a : consistent c → c a a = 0.
Proof. intros Hc. pose proof (cmp_antisym c Hc a a). lia. Qed.

Lemma merge_rel_ties c D S R :
  consistent c → merge_rel c D S R → sorted c D →
  ∀ x y, x ∈ D → y ∈ S → c x.2 y.2 = 0 →
  ∃ R1 R2, R = R1 ++ R2 ∧ x ∈ R1 ∧ y ∈ R2.
Proof.
  intros Hc. induction 1 as [D|D1 D2 s0 S1 S2 R HD1 HD2 Hrel IH];
    intros Hsorted x y Hx Hy Htie.
  - by apply elem_of_nil in Hy.
  - assert (y ∈ s0 :: S1 ∨ y ∈ S2) as [Hy1|Hy2]
      by (change (s0 :: S1 ++ S2) with ((s0 :: S1) ++ S2) in Hy;
          by apply elem_of_app in Hy).
    + apply elem_of_app in Hx as [Hx1|Hx2].
      * exists D1, ((s0 :: S1) ++ R). split; [done|]. split; [done|].
        apply elem_of_app. by left.
      * exfalso. destruct D2 as [|r D2]; [by apply elem_of_nil in Hx2|].
        destruct HD2 as (_ & Hless & _).
        rewrite Forall_forall in Hless. specialize (Hless y Hy1).
        assert (c r.2 x.2 <= 0) as Hrx.
        { apply elem_of_cons in Hx2 as [->|Hx2].
          - by rewrite consistent_refl.
          - apply Sorted_app_inv_r in Hsorted.
            by apply (sorted_head_first c r D2). }
        assert (c r.2 y.2 <= 0) as Hry
          by (apply (cmp_trans c Hc _ x.2); [done|lia]).
        pose proof (cmp_antisym c Hc r.2 y.2). lia.
    + apply elem_of_app in Hx as [Hx1|Hx2].
      * exists D1, ((s0 :: S1) ++ R). split; [done|]. split; [done|].
        apply elem_of_app. right.
        apply merge_rel_sublist in Hrel as [_ Hsub].
        by eapply sublist_submseteq, elem_of_submseteq in Hsub.
      * destruct (IH (Sorted_app_inv_r _ _ _ Hsorted) x y Hx2 Hy2 Htie)
          as (R1 & R2 & -> & HR1 & HR2).
        exists (D1 ++ (s0 :: S1) ++ R1), R2. split; [list_eq|].
        split; [|done]. rewrite !elem_of_app. by right; right.
Qed.

Lemma merge_rel_nil_r c D R : merge_rel c D [] R → R = D.
Proof. by inversion 1. Qed.

Lemma merge_rel_nil_l c S R : merge_rel c [] S R → R = S.
Proof.
  inversion 1 as [|D1 D2 s0 S1 S2 R' _ HD2 Hrel HD]; [done|].
  apply app_eq_nil in HD as [-> ->]. subst S2.
  apply merge_rel_nil_r in Hrel as ->. simpl. by rewrite !app_nil_r.
Qed.

(** X10.  [SortedListMerge] is stable.  The nodes of each list keep their order
    among themselves, and where a payload of the destination ties with one
    of the source, the destination's node goes first.  Merging an empty
    source changes nothing, and merging into an empty destination moves
    the source as it is. *)
Theorem merge_is_stable h sd ss dd ds c c' td ts D S :
  wf h → is_slist h sd dd c td D → is_slist h ss ds c' ts S → dd ≠ ds →
  consistent c → sorted c D →
  ∃ R h',
    SortedListMerge sd ss h = Ok tt h' ∧
    is_slist h' sd dd c td R ∧ is_slist h' ss ds c' ts [] ∧
    sublist D R ∧ sublist S R ∧
    (∀ x y, x ∈ D → y ∈ S → c x.2 y.2 = 0 →
       ∃ R1 R2, R = R1 ++ R2 ∧ x ∈ R1 ∧ y ∈ R2) ∧
    (S = [] → h' = h) ∧ (D = [] → R = S).
Proof.
  intros Hwf Hd Hs Hne Hc Hsorted.
  destruct (SortedListMerge_ok _ _ _ _ _ _ _ _ _ _ _ Hwf Hd Hs Hne
              (λ a b, consistent_asym c a b Hc))
    as (R & h' & Hrel & Hrun & _ & Hd' & Hs' & Hsame).
  exists R, h'. split_and!; [done..| | | | |].
  - by apply merge_rel_sublist in Hrel as [? _].
  - by apply merge_rel_sublist in Hrel as [_ ?].
  - by apply merge_rel_ties.
  - intros ->. apply merge_rel_nil_r in Hrel as ->.
    destruct Hsame as (Hother & Hsl & Hq & Hbrk & Hsupply).
    assert (dlls h' = dlls h) as Hdlls.
    { apply map_eq. intros k.
      destruct (decide (k = dd)) as [->|];
        [|destruct (decide (k = ds)) as [->|]; [|by apply Hother]].
      - destruct Hd as (_ & _ & ->). by destruct Hd' as (_ & _ & ->).
      - destruct Hs as (_ & _ & ->). by destruct Hs' as (_ & _ & ->). }
    destruct h, h'. simpl in *. by subst.
  - intros ->. by apply merge_rel_nil_l in Hrel.
Qed.

Lemma merge_is_stable_witness :
  wf two_filled ∧
  is_slist two_filled 100 101 ascending 102 [(107, 1); (108, 3); (106, 5)] ∧
  is_slist two_filled 103 104 ascending 105 [(111, 2); (109, 3); (110, 4)] ∧
  consistent ascending ∧
  sorted ascending [(107, 1); (108, 3); (106, 5)] ∧
  ∃ R h',
    SortedListMerge 100 103 two_filled = Ok tt h' ∧
    is_slist h' 100 101 ascending 102 R ∧
    ∃ R1 R2, R = R1 ++ R2 ∧ (108, 3) ∈ R1 ∧ (109, 3) ∈ R2.
Proof.
  assert (wf two_filled) as Hwf by compute_done.
  assert (is_slist two_filled 100 101 ascending 102
            [(107, 1); (108, 3); (106, 5)]) as Hd
    by (repeat split; (done || reflexivity)).
  assert (is_slist two_filled 103 104 ascending 105
            [(111, 2); (109, 3); (110, 4)]) as Hs
    by (repeat split; (done || reflexivity)).
  assert (sorted ascending [(107, 1); (108, 3); (106, 5)]) as Hsorted
    by compute_done.
  assert ((101 : Z) ≠ 104) as Hne by discriminate.
  split; [exact Hwf|]. split; [exact Hd|]. split; [exact Hs|].
  split; [exact ascending_consistent|]. split; [exact Hsorted|].
  destruct (merge_is_stable _ _ _ _ _ _ _ _ _ _ _ Hwf Hd Hs Hne
              ascending_consistent Hsorted)
    as (R & h' & Hrun & Hd' & _ & _ & _ & Htie & _).
  exists R, h'. split; [exact Hrun|]. split; [exact Hd'|].
  apply (Htie (108, 3) (109, 3)).
  - apply elem_of_cons. right. apply list_elem_of_here.
  - apply elem_of_cons. right. apply list_elem_of_here.
  - reflexivity.
Defined.

(** X11.  [SortedListPrev] undoes [SortedListNext]: from a position that holds a
    node, one step forward and one step back lead to the same position of
    the same list. *)
Theorem prev_undoes_next h d t b n a it :
  wf h → at_pos h d t b (n :: a) (iterator it) →
  ∃ nxt,
    SortedListNext it h = Ok nxt h ∧
    SortedListPrev nxt h = Ok it h ∧
    list_ nxt = list_ it ∧
    SortedListIsEqual it nxt h = Ok 0 h.
Proof.
  intros Hwf Hat. pose proof Hat as [Hd Hit].
  assert (at_pos h d t (b ++ [n]) a (first_cell a t)) as Hat'.
  { split; [|done]. rewrite Hd. do 2 f_equal. list_eq. }
  exists (move it (first_cell a t)). split_and!.
  - by eapply SortedListNext_ok.
  - unfold SortedListPrev. simpl.
    rewrite non_null_true by by eapply at_pos_non_null.
    rewrite bind_assert_true.
    assert (DLLPrev (first_cell a t) h = Ok n.1 h) as Hprev.
    { unfold DLLPrev. rewrite (locate_at _ _ _ _ _ _ Hwf Hat').
      by rewrite last_snoc. }
    mstep Hprev. unfold ret. f_equal. simpl in Hit. rewrite <-Hit.
    by destruct it.
  - done.
  - rewrite SortedListIsEqual_ok;
      [|by eapply at_pos_non_null|simpl; by eapply at_pos_non_null].
    simpl. rewrite decide_False; [done|]. intros Heq.
    pose proof (wf_nodup _ _ _ Hwf Hd) as Hcells.
    revert Hcells. unfold cells. simpl. rewrite fmap_app. simpl.
    rewrite <-(assoc_L (++)). intros [_ [_ Hcells]]%NoDup_app.
    simpl in Hcells. apply NoDup_cons in Hcells as [Hnotin _].
    apply Hnotin. simpl in Hit. rewrite <-Hit, Heq.
    destruct a as [|x a]; simpl; set_solver.
Qed.

Lemma prev_undoes_next_witness :
  wf two_filled ∧
  at_pos two_filled 101 102 [(107, 1)] [(108, 3); (106, 5)] 108 ∧
  ∃ nxt,
    SortedListNext (Iter 108 100) two_filled = Ok nxt two_filled ∧
    SortedListPrev nxt two_filled = Ok (Iter 108 100) two_filled.
Proof.
  assert (wf two_filled) as Hwf by compute_done.
  assert (at_pos two_filled 101 102 [(107, 1)] [(108, 3); (106, 5)] 108)
    as Hat by (split; reflexivity).
  split; [exact Hwf|]. split; [exact Hat|].
  destruct (prev_undoes_next _ _ _ _ _ _ (Iter 108 100) Hwf Hat)
    as (nxt & Hnext & Hprev & _).
  exists nxt. exact (conj Hnext Hprev).
Defined.

Lemma provides_le n m h : (n ≤ m)%nat → provides m h → provides n h.
Proof.
  unfold provides. intros Hle H.
  replace n with (n `min` m)%nat by lia.
  rewrite <-take_take. by apply Forall_take.
Qed.

Lemma enqueue_all_frame q sl d c t xs : ∀ h ns,
  wf h → is_queue h q sl d c t ns → provides (length xs) h →
  ∃ ns' h',
    for_all (PriorityQueueEnqueue q) xs h = Ok (replicate (length xs) 0) h' ∧
    wf h' ∧ is_queue h' q sl d c t ns' ∧ payloads ns' ≡ₚ xs ++ payloads ns ∧
    delete d (dlls h') = delete d (dlls h) ∧
    slists h' = slists h ∧ queues h' = queues h.
Proof.
  induction xs as [|x xs IH]; intros h ns Hwf Hq Hs.
  - by exists ns, h.
  - destruct (PriorityQueueEnqueue_ok _ _ _ _ _ _ _ x Hwf Hq
                (provides_served _ _ Hs)) as (m1 & m2 & Hstop & Hrun).
    pose proof Hstop as (Hns & _ & _).
    destruct Hq as (Hq0 & Hqs & Hlist). pose proof Hlist as (_ & _ & Hd).
    destruct (IH (Heap (<[d := Dll t (m1 ++ (brk h, x) :: m2)]> (dlls h))
                       (slists h) (queues h) (brk h + 1) (tail (supply h)))
                 (m1 ++ (brk h, x) :: m2))
      as (ns' & h' & Hrun' & Hwf' & Hq' & Hperm & Hdlls & Hsl & Hqu).
    + rewrite Hns in Hd. by apply wf_grow.
    + split_and!; [done..|]. by eapply is_slist_grow.
    + by apply provides_tail.
    + exists ns', h'. split_and!; [|done| | | |done..].
      * cbn [for_all length replicate]. mstep Hrun. by mstep Hrun'.
      * done.
      * rewrite Hperm, payloads_insert, Hns. simpl.
        by rewrite Permutation_middle.
      * rewrite Hdlls. simpl. apply delete_insert_eq.
Qed.

Lemma PriorityQueueDestroy_ok h q sl d c t ns :
  is_queue h q sl d c t ns →
  PriorityQueueDestroy q h
  = Ok tt (Heap (delete d (dlls h)) (delete q (delete sl (slists h)))
                (delete q (delete sl (queues h))) (brk h) (supply h)).
Proof.
  intros (Hq & Hqs & Hsl & Hs & Hd).
  assert (SortedListDestroy sl h
          = Ok tt (Heap (delete d (dlls h)) (delete sl (slists h))
                        (delete sl (queues h)) (brk h) (supply h))) as Hlist.
  { unfold SortedListDestroy. massert. mstep (load_slist_ok _ _ _ Hs).
    simpl.
    assert (DLLDestroy d h = Ok tt (set_dlls (λ m, delete d m) h)) as Hdll
      by (unfold DLLDestroy; by mstep (load_dll_ok _ _ _ Hd)).
    by mstep Hdll. }
  unfold PriorityQueueDestroy. massert. mstep (load_queue_ok _ _ _ Hqs).
  simpl. by mstep Hlist.
Qed.

(** X12.  [PriorityQueueDestroy] gives back all that [PriorityQueueCreate] and
    the [Enqueue]s that followed took: after it the memory holds the
    containers, lists and queues it held before the queue was created, and
    the handle is dead. *)
Theorem destroy_undoes_create h c xs :
  wf h → allocated h → provides (3 + length xs) h →
  ∃ q h1 h2 h3,
    PriorityQueueCreate c h = Ok q h1 ∧
    for_all (PriorityQueueEnqueue q) xs h1
    = Ok (replicate (length xs) 0) h2 ∧
    PriorityQueueSize q h2 = Ok (Z.of_nat (length xs)) h2 ∧
    PriorityQueueDestroy q h2 = Ok tt h3 ∧
    dlls h3 = dlls h ∧ slists h3 = slists h ∧ queues h3 = queues h ∧
    wf h3 ∧ PriorityQueueSize q h3 = Fault Undefined.
Proof.
  intros Hwf Halloc Hsupply. pose proof Halloc as (Hbrk & Hd & Hs & Hq).
  assert (∀ (X : Type) (m : gmap Z X) k,
            (∀ j, is_Some (m !! j) → j < brk h) → brk h ≤ k → m !! k = None)
    as Hfresh.
  { intros X m k Hm Hk. destruct (m !! k) eqn:He; [|done].
    specialize (Hm k (mk_is_Some _ _ He)). lia. }
  assert (provides 3 h) as Hthree
    by (apply (provides_le 3 (3 + length xs)); [lia|done]).
  pose proof (PriorityQueueCreate_served h c Hbrk Hthree) as Hcreate.
  destruct (create_memory h c (tail (tail (tail (supply h)))) Hwf Halloc)
    as (Hqueue & Hwf1 & _ & _).
  set (h1 := Heap _ _ _ _ _) in *.
  destruct (enqueue_all_frame _ _ _ _ _ xs h1 [] Hwf1 Hqueue)
    as (ns & h2 & Hrun & Hwf2 & Hqueue2 & Hperm & Hdlls & Hsl & Hqu).
  { clear -Hsupply. unfold provides in *. simpl.
    destruct (supply h) as [|b1 [|b2 [|b3 l]]]; simpl in *;
      rewrite ?take_nil; try done.
    by repeat apply Forall_cons in Hsupply as [_ Hsupply]. }
  eexists (brk h), h1, h2, _. split; [exact Hcreate|]. split; [exact Hrun|].
  split; [|split; [exact (PriorityQueueDestroy_ok _ _ _ _ _ _ _ Hqueue2)|]].
  { rewrite (PriorityQueueSize_ok _ _ _ _ _ _ _ Hqueue2). do 2 f_equal.
    apply Permutation_length in Hperm. unfold payloads in Hperm.
    rewrite length_fmap, length_app in Hperm. simpl in Hperm.
    rewrite Nat.add_0_r in Hperm. exact Hperm. }
  assert (delete (brk h + 2) (dlls h2) = dlls h) as Hd3.
  { rewrite Hdlls. simpl. apply delete_insert_id, Hfresh; [done|lia]. }
  assert (delete (brk h) (delete (brk h + 1) (slists h2)) = slists h) as Hs3.
  { rewrite Hsl. simpl. rewrite delete_insert_id by (apply Hfresh; [done|lia]).
    apply delete_id, Hfresh; [done|lia]. }
  assert (delete (brk h) (delete (brk h + 1) (queues h2)) = queues h) as Hq3.
  { rewrite Hqu. simpl. rewrite delete_insert_ne by lia.
    rewrite delete_insert_id.
    - apply delete_id, Hfresh; [done|lia].
    - rewrite lookup_delete_ne by lia. apply Hfresh; [done|lia]. }
  simpl. split_and!; [done..| |].
  - destruct Hwf2 as [Hnd2 Hrange2]. destruct Hqueue2 as (_ & _ & _ & _ & Hd2).
    assert (all_cells (Heap (delete (brk h + 2) (dlls h2))
                         (delete (brk h) (delete (brk h + 1) (slists h2)))
                         (delete (brk h) (delete (brk h + 1) (queues h2)))
                         (brk h2) (supply h2)) ⊆+ all_cells h2) as Hsub.
    { unfold all_cells. simpl. rewrite (cells_of_lookup _ _ _ Hd2).
      apply submseteq_inserts_l. done. }
    by apply (wf_sub h2).
  - unfold PriorityQueueSize.
    rewrite non_null_true by (unfold NULL; lia). rewrite bind_assert_true.
    unfold load_queue, bind. simpl. by rewrite lookup_delete_eq.
Qed.

Lemma destroy_undoes_create_witness :
  wf two_filled ∧ allocated two_filled ∧
  provides (3 + length [5; 1; 3]) two_filled ∧
  ∃ q h1 h2 h3,
    PriorityQueueCreate ascending two_filled = Ok q h1 ∧
    for_all (PriorityQueueEnqueue q) [5; 1; 3] h1 = Ok [0; 0; 0] h2 ∧
    PriorityQueueDestroy q h2 = Ok tt h3 ∧
    dlls h3 = dlls two_filled ∧ slists h3 = slists two_filled ∧
    queues h3 = queues two_filled.
Proof.
  assert (wf two_filled) as Hwf by compute_done.
  assert (allocated two_filled) as Halloc.
  { split; [reflexivity|].
    split_and!; intros k [x Hk]; apply elem_of_map_to_list in Hk;
      vm_compute in Hk; repeat (apply elem_of_cons in Hk as [[= -> _]|Hk];
        [reflexivity|]); by apply elem_of_nil in Hk. }
  assert (provides (3 + length [5; 1; 3]) two_filled) as Hsupply
    by (vm_compute; constructor).
  split; [exact Hwf|]. split; [exact Halloc|]. split; [exact Hsupply|].
  destruct (destroy_undoes_create _ ascending [5; 1; 3] Hwf Halloc Hsupply)
    as (q & h1 & h2 & h3 & Hcreate & Hrun & _ & Hdestroy & Hd & Hs & Hq & _).
  exists q, h1, h2, h3.
  exact (conj Hcreate (conj Hrun (conj Hdestroy (conj Hd (conj Hs Hq))))).
Defined.

Lemma not_at_ok h e it acc :
  iterator it ≠ NULL → iterator e ≠ NULL →
  not_at e (it, acc) h = Ok (bool_decide (iterator it ≠ iterator e)) h.
Proof.
  intros Hit He. unfold not_at. simpl.
  mstep (SortedListIsEqual_ok h it e Hit He). unfold ret. f_equal.
  destruct (decide (iterator it = iterator e)) as [Heq|Hne].
  - rewrite bool_decide_eq_false_2 by done.
    by rewrite bool_decide_eq_false_2 by (intros Hne; by apply Hne).
  - rewrite bool_decide_eq_true_2 by done.
    by rewrite bool_decide_eq_true_2 by done.
Qed.

Lemma read_forward_loop h sl d t : ∀ a b acc fuel,
  wf h → dlls h !! d = Some (Dll t (b ++ a)) → (length a < fuel)%nat →
  while_fuel fuel (not_at (Iter t sl))
    (λ st, x <~ SortedListGetData st.1;;
           nxt <~ SortedListNext st.1;;
           ret (nxt, st.2 ++ [x]))
    (Iter (first_cell a t) sl, acc) h
  = Ok (Iter t sl, acc ++ payloads a) h.
Proof.
  induction a as [|n a IH]; intros b acc [|fuel] Hwf Hd Hfuel;
    simpl in Hfuel; try lia.
  - cbn [while_fuel].
    assert (t ≠ NULL) as Ht by by apply (at_pos_non_null h d t b [] t).
    simpl first_cell.
    mstep (not_at_ok h (Iter t sl) (Iter t sl) acc Ht Ht).
    rewrite bool_decide_eq_false_2 by (intros ?; done).
    unfold ret. unfold payloads. simpl. by rewrite app_nil_r.
  - assert (at_pos h d t b (n :: a) (iterator (Iter n.1 sl))) as Hat by done.
    assert (t ≠ NULL) as Ht.
    { apply (at_pos_non_null h d t (b ++ n :: a) [] t); [done|].
      split; [by rewrite app_nil_r|done]. }
    cbn [while_fuel]. simpl first_cell.
    mstep (not_at_ok h (Iter t sl) (Iter n.1 sl) acc
             (at_pos_non_null h d t b (n :: a) _ Hwf Hat) Ht).
    rewrite bool_decide_eq_true_2
      by (apply (at_pos_range h d t b n a []); [done|by rewrite app_nil_r]).
    cbn [fst snd].
    assert ((x <~ SortedListGetData (Iter n.1 sl);;
             nxt <~ SortedListNext (Iter n.1 sl);;
             ret (nxt, acc ++ [x])) h
            = Ok (Iter (first_cell a t) sl, acc ++ [n.2]) h) as Hbody.
    { mstep (SortedListGetData_ok _ _ _ _ _ _ (Iter n.1 sl) Hwf Hat).
      by mstep (SortedListNext_ok _ _ _ _ _ _ (Iter n.1 sl) Hwf Hat). }
    mstep Hbody. rewrite (IH (b ++ [n])); [|done| |lia].
    + unfold payloads. simpl. by rewrite <-(assoc_L (++)).
    + by rewrite <-(assoc_L (++)).
Qed.

Lemma read_backward_loop h sl d t : ∀ b a acc fuel,
  wf h → dlls h !! d = Some (Dll t (b ++ a)) → (length b < fuel)%nat →
  while_fuel fuel (not_at (Iter (first_cell (b ++ a) t) sl))
    (λ st, prv <~ SortedListPrev st.1;;
           x <~ SortedListGetData prv;;
           ret (prv, st.2 ++ [x]))
    (Iter (first_cell a t) sl, acc) h
  = Ok (Iter (first_cell (b ++ a) t) sl, acc ++ reverse (payloads b)) h.
Proof.
  induction b as [|n b IH] using rev_ind; intros a acc [|fuel] Hwf Hd Hfuel;
    rewrite ?length_app in Hfuel; simpl in Hfuel; try lia.
  - assert (at_pos h d t [] a (first_cell a t)) as Hat by done.
    cbn [while_fuel]. simpl app.
    mstep (not_at_ok h (Iter (first_cell a t) sl) (Iter (first_cell a t) sl)
             acc (at_pos_non_null _ _ _ _ _ _ Hwf Hat)
             (at_pos_non_null _ _ _ _ _ _ Hwf Hat)).
    rewrite bool_decide_eq_false_2 by (intros ?; done).
    unfold ret. simpl. by rewrite app_nil_r.
  - assert (at_pos h d t (b ++ [n]) a (first_cell a t)) as Hat by done.
    assert (at_pos h d t b (n :: a) n.1) as Hat'.
    { split; [|done]. by rewrite <-(assoc_L (++)) in Hd. }
    assert (at_pos h d t [] ((b ++ [n]) ++ a) (first_cell ((b ++ [n]) ++ a) t))
      as Hfirst by done.
    cbn [while_fuel].
    mstep (not_at_ok h (Iter (first_cell ((b ++ [n]) ++ a) t) sl)
             (Iter (first_cell a t) sl) acc
             (at_pos_non_null _ _ _ _ _ _ Hwf Hat)
             (at_pos_non_null _ _ _ _ _ _ Hwf Hfirst)).
    simpl iterator. rewrite bool_decide_eq_true_2.
    2:{ intros Heq. symmetry in Heq. revert Heq.
        destruct b as [|n0 b]; simpl.
        - apply (at_pos_range h d t [] n [] a); [done|]. by split.
        - apply (at_pos_range h d t [] n0 (b ++ [n]) a); [done|].
          split; [|done]. simpl. rewrite Hd. by do 2 f_equal. }
    cbn [fst snd].
    assert ((prv <~ SortedListPrev (Iter (first_cell a t) sl);;
             x <~ SortedListGetData prv;;
             ret (prv, acc ++ [x])) h
            = Ok (Iter n.1 sl, acc ++ [n.2]) h) as Hbody.
    { assert (SortedListPrev (Iter (first_cell a t) sl) h
              = Ok (Iter n.1 sl) h) as Hprev.
      { unfold SortedListPrev. simpl.
        rewrite non_null_true by by eapply at_pos_non_null.
        rewrite bind_assert_true.
        assert (DLLPrev (first_cell a t) h = Ok n.1 h) as Hdll.
        { unfold DLLPrev. rewrite (locate_at _ _ _ _ _ _ Hwf Hat).
          by rewrite last_snoc. }
        by mstep Hdll. }
      mstep Hprev.
      by mstep (SortedListGetData_ok _ _ _ _ _ _ (Iter n.1 sl) Hwf Hat'). }
    mstep Hbody.
    rewrite <-(assoc_L (++)) in Hd. rewrite <-(assoc_L (++)).
    change (Iter n.1 sl) with (Iter (first_cell ([n] ++ a) t) sl).
    rewrite (IH ([n] ++ a)); [|done..|lia].
    unfold payloads. rewrite fmap_app, reverse_app. simpl.
    by rewrite <-(assoc_L (++)).
Qed.

(** X13.  Walking a list with its iterators reads what is in it: from
    [SortedListBegin] with [SortedListNext] until [SortedListIsEqual] to
    [SortedListEnd] the payloads come in the order of the list, from the
    end with [SortedListPrev] back to the first position they come in
    the reverse order, and the walks leave the memory as it is. *)
Theorem walks_read_the_list h sl d c t ns :
  wf h → is_slist h sl d c t ns →
  read_forward sl h = Ok (payloads ns) h ∧
  read_backward sl h = Ok (reverse (payloads ns)) h.
Proof.
  intros Hwf Hlist. pose proof Hlist as (_ & _ & Hd).
  pose proof (heap_size_ge _ _ _ Hd) as Hsize. simpl in Hsize.
  split.
  - unfold read_forward. mstep (SortedListBegin_ok _ _ _ _ _ _ Hlist).
    mstep (SortedListEnd_ok _ _ _ _ _ _ Hlist).
    pose proof (read_forward_loop h sl d t ns [] [] (S (heap_size h)) Hwf Hd
                  ltac:(lia)) as Hrun.
    by mstep (Hrun : while _ _ _ h = _).
  - unfold read_backward. mstep (SortedListBegin_ok _ _ _ _ _ _ Hlist).
    mstep (SortedListEnd_ok _ _ _ _ _ _ Hlist).
    pose proof (read_backward_loop h sl d t ns [] [] (S (heap_size h)) Hwf)
      as Hrun.
    rewrite app_nil_r in Hrun. specialize (Hrun Hd ltac:(lia)).
    by mstep (Hrun : while _ _ _ h = _).
Qed.

Lemma walks_read_the_list_witness :
  wf two_filled ∧
  is_slist two_filled 100 101 ascending 102 [(107, 1); (108, 3); (106, 5)] ∧
  read_forward 100 two_filled = Ok [1; 3; 5] two_filled ∧
  read_backward 100 two_filled = Ok [5; 3; 1] two_filled.
Proof.
  assert (wf two_filled) as Hwf by compute_done.
  assert (is_slist two_filled 100 101 ascending 102
            [(107, 1); (108, 3); (106, 5)]) as Hlist
    by (repeat split; (done || reflexivity)).
  exact (conj Hwf (conj Hlist (walks_read_the_list _ _ _ _ _ _ Hwf Hlist))).
Defined.

(** X14.  [PriorityQueueErase] undoes [PriorityQueueEnqueue]: when nothing in the
    queue matches and the new payload does, enqueueing it and erasing the
    match returns that payload and leaves every container, list and queue
    as it was before. *)
Theorem erase_undoes_enqueue h q sl d c t ns ismatch parameter data :
  wf h → is_queue h q sl d c t ns → served h = true →
  Forall (λ n, ismatch n.2 parameter = 0) ns → ismatch data parameter ≠ 0 →
  ∃ h1 h2,
    PriorityQueueEnqueue q data h = Ok 0 h1 ∧
    PriorityQueueErase q ismatch parameter h1 = Ok data h2 ∧
    is_queue h2 q sl d c t ns ∧ wf h2 ∧
    dlls h2 = dlls h ∧ slists h2 = slists h ∧ queues h2 = queues h.
Proof.
  intros Hwf Hqueue Hserved Hno Hyes.
  destruct (PriorityQueueEnqueue_ok _ _ _ _ _ _ _ data Hwf Hqueue Hserved)
    as (m1 & m2 & (-> & _ & _) & Hrun).
  pose proof Hqueue as (Hq & Hqs & Hsl & Hs & Hd).
  set (h1 := Heap _ _ _ _ _) in Hrun.
  assert (wf h1) as Hwf1 by by apply wf_grow.
  assert (is_queue h1 q sl d c t (m1 ++ (brk h, data) :: m2)) as Hqueue1.
  { repeat split; [done..|apply lookup_insert_eq]. }
  apply Forall_app in Hno as [Hno1 Hno2].
  eexists h1, _. split; [exact Hrun|]. split.
  { exact (PriorityQueueErase_found _ _ _ _ _ _ _ (brk h, data) _ ismatch
             parameter Hwf1 Hqueue1 Hno1 Hyes). }
  split_and!.
  - repeat split; [done..|]. simpl. apply lookup_insert_eq.
  - eapply wf_store; [done|apply lookup_insert_eq|].
    unfold cells. simpl. rewrite !fmap_app. simpl. solve_submseteq.
  - simpl. rewrite insert_insert_eq. by apply insert_id.
  - done.
  - done.
Qed.

Lemma erase_undoes_enqueue_witness :
  wf queue_123 ∧
  is_queue queue_123 100 101 102 ascending 103 [(104, 1); (105, 2); (106, 3)] ∧
  served queue_123 = true ∧
  Forall (λ n : node, equals n.2 7 = 0) [(104, 1); (105, 2); (106, 3)] ∧
  equals 7 7 ≠ 0 ∧
  ∃ h1 h2,
    PriorityQueueEnqueue 100 7 queue_123 = Ok 0 h1 ∧
    PriorityQueueErase 100 equals 7 h1 = Ok 7 h2 ∧
    dlls h2 = dlls queue_123.
Proof.
  assert (wf queue_123) as Hwf by compute_done.
  assert (is_queue queue_123 100 101 102 ascending 103
            [(104, 1); (105, 2); (106, 3)]) as Hq
    by (repeat split; (done || reflexivity)).
  assert (served queue_123 = true) as Hserved by reflexivity.
  assert (Forall (λ n : node, equals n.2 7 = 0)
            [(104, 1); (105, 2); (106, 3)]) as Hno
    by (repeat constructor).
  assert (equals 7 7 ≠ 0) as Hyes by discriminate.
  split; [exact Hwf|]. split; [exact Hq|]. split; [exact Hserved|].
  split; [exact Hno|]. split; [exact Hyes|].
  destruct (erase_undoes_enqueue _ _ _ _ _ _ _ equals 7 7 Hwf Hq Hserved Hno
              Hyes) as (h1 & h2 & Henq & Herase & _ & _ & Hd & _).
  exists h1, h2. exact (conj Henq (conj Herase Hd)).
Defined.
